(** * qbjs: parser, printer, security validator, compiler and result cache

    A shallow embedding of the core of [@qbjs/core] and of its LRU result
    cache, with the properties of the specification stated and proved over
    it.  Part I holds the definitions, one module per source module; Part II
    holds the theorems.

    Modelling conventions.
    - A JavaScript [number] is an integer of [Z]; [NaN], infinities and
      fractions are outside the model, except where a function tests for
      [NaN] itself ([parseInt] returns an [option Z]).
    - A JavaScript string is a [string]: a sequence of code units below 256.
      Whitespace is the part of the ECMAScript [WhiteSpace] and
      [LineTerminator] classes that lies in that range.
    - An array that the code fills with [push] is a list that grows at its
      end; an [errors] array shared by several calls is threaded through
      them.
    - An object read through [Object.keys] is the list of its own
      properties in the order [Object.keys] gives them; property names
      that JavaScript treats specially (such as [__proto__]) are outside
      the model. *)

From Stdlib Require Import ZArith Ascii String List Bool Lia.
From stdpp Require Import base tactics option list strings gmap pretty sorting.
Import ListNotations.

Set Warnings "-register-all,-clear-no-such-hyp".
Local Open Scope Z_scope.

(** * Part I: definitions *)

(** ** JavaScript values and built-ins *)

Module Js.

(** The double quote, for message templates. *)
Definition dquote : string := String (ascii_of_nat 34) EmptyString.

(** [Array.prototype.join]. *)
Definition join (sep : string) (l : list string) : string := String.concat sep l.

(** [Array.prototype.includes] (SameValueZero is equality on the modelled types). *)
Definition includes {A} `{EqDecision A} (l : list A) (x : A) : bool :=
  bool_decide (x ∈ l).

(** [Array.prototype.push] of one element. *)
Definition push {A} (l : list A) (x : A) : list A := l ++ [x].

(** The values an [unknown] can hold. *)
Inductive JsValue : Type :=
| JUndefined
| JNull
| JBool (b : bool)
| JNum (n : Z)
| JStr (s : string)
| JArr (items : list JsValue)
| JObj (props : list (string * JsValue)).

(** The [typeof] operator. *)
Definition typeof (v : JsValue) : string :=
  match v with
  | JUndefined => "undefined"
  | JNull => "object"
  | JBool _ => "boolean"
  | JNum _ => "number"
  | JStr _ => "string"
  | JArr _ => "object"
  | JObj _ => "object"
  end.

Definition isArray (v : JsValue) : bool :=
  match v with JArr _ => true | _ => false end.

(** [String(n)] for an integer. *)
Definition numberToString (n : Z) : string := pretty n.

(** [String(value)]. *)
Fixpoint toStr (v : JsValue) : string :=
  match v with
  | JUndefined => "undefined"
  | JNull => "null"
  | JBool true => "true"
  | JBool false => "false"
  | JNum n => numberToString n
  | JStr s => s
  | JArr items =>
      join "," (map (fun x => match x with
                              | JUndefined | JNull => ""
                              | _ => toStr x
                              end) items)
  | JObj _ => "[object Object]"
  end.

(** *** Strings *)

(** Code units of [WhiteSpace] and [LineTerminator]: TAB, LF, VT, FF, CR,
    SP and NBSP. *)
Definition isWhiteSpace (c : ascii) : bool :=
  let n := nat_of_ascii c in
  ((9 <=? n) && (n <=? 13) || (n =? 32) || (n =? 160))%nat.

Definition isDigit (c : ascii) : bool :=
  let n := nat_of_ascii c in ((48 <=? n) && (n <=? 57))%nat.

Fixpoint trimStart (s : string) : string :=
  match s with
  | EmptyString => EmptyString
  | String c rest => if isWhiteSpace c then trimStart rest else s
  end.

Fixpoint trimEnd (s : string) : string :=
  match s with
  | EmptyString => EmptyString
  | String c rest =>
      match trimEnd rest with
      | EmptyString => if isWhiteSpace c then EmptyString else String c EmptyString
      | t => String c t
      end
  end.

(** [String.prototype.trim]. *)
Definition trim (s : string) : string := trimEnd (trimStart s).

(** [s.split(sep)] for a separator of one code unit. *)
Fixpoint split (sep : ascii) (s : string) : list string :=
  match s with
  | EmptyString => [EmptyString]
  | String c rest =>
      if Ascii.eqb c sep then EmptyString :: split sep rest
      else
        match split sep rest with
        | first :: others => String c first :: others
        | [] => [String c EmptyString]
        end
  end.

(** [s.lastIndexOf(c)] for one code unit; [-1] when [c] is absent. *)
Fixpoint lastIndexOf (c : ascii) (s : string) : Z :=
  match s with
  | EmptyString => -1
  | String x rest =>
      let r := lastIndexOf c rest in
      if 0 <=? r then r + 1 else if Ascii.eqb x c then 0 else -1
  end.

(** [s.substring(start, end)]: both indices are clamped to the string and
    swapped when out of order. *)
Definition substring (s : string) (start end_ : Z) : string :=
  let len := Z.of_nat (String.length s) in
  let finalStart := Z.min (Z.max start 0) len in
  let finalEnd := Z.min (Z.max end_ 0) len in
  let from := Z.min finalStart finalEnd in
  let to := Z.max finalStart finalEnd in
  String.substring (Z.to_nat from) (Z.to_nat (to - from)) s.

(** [s.substring(start)]. *)
Definition substringFrom (s : string) (start : Z) : string :=
  substring s start (Z.of_nat (String.length s)).

Definition toLowerCaseChar (c : ascii) : ascii :=
  let n := nat_of_ascii c in
  if ((65 <=? n) && (n <=? 90) || (192 <=? n) && (n <=? 222) && negb (n =? 215))%nat
  then ascii_of_nat (n + 32) else c.

(** [String.prototype.toLowerCase]. *)
Fixpoint toLowerCase (s : string) : string :=
  match s with
  | EmptyString => EmptyString
  | String c rest => String (toLowerCaseChar c) (toLowerCase rest)
  end.

(** The value of the leading decimal digits of [s], after [acc]; [seen]
    tells whether a digit was read. *)
Fixpoint readDigits (s : string) (acc : Z) (seen : bool) : option Z :=
  match s with
  | String c rest =>
      if isDigit c then readDigits rest (acc * 10 + (Z.of_nat (nat_of_ascii c) - 48)) true
      else if seen then Some acc else None
  | EmptyString => if seen then Some acc else None
  end.

(** [Number.parseInt(s, 10)]: leading whitespace, a sign, then digits;
    [None] is [NaN]. *)
Definition parseInt (s : string) : option Z :=
  match trimStart s with
  | String "-" rest => Z.opp <$> readDigits rest 0 false
  | String "+" rest => readDigits rest 0 false
  | rest => readDigits rest 0 false
  end.

(** [/^\d+$/.test(s)]. *)
Definition allDigits (s : string) : bool :=
  negb (String.eqb s EmptyString) && forallb isDigit (list_ascii_of_string s).

(** The own enumerable properties of an object, in the order of
    [Object.keys]; those of an array are its indices. *)
Definition entries (v : JsValue) : list (string * JsValue) :=
  match v with
  | JObj props => props
  | JArr items => imap (fun i x => (pretty i, x)) items
  | _ => []
  end.

(** [Object.keys(obj)]. *)
Definition objectKeys (v : JsValue) : list string := map fst (entries v).

(** [obj[key]]. *)
Fixpoint lookupProp (props : list (string * JsValue)) (key : string) : JsValue :=
  match props with
  | [] => JUndefined
  | (k, x) :: rest => if String.eqb k key then x else lookupProp rest key
  end.

Definition getProp (obj : JsValue) (key : string) : JsValue := lookupProp (entries obj) key.

(** Whether a string is truthy. *)
Definition truthy (s : string) : bool := negb (String.eqb s EmptyString).

(** [s.startsWith(p)]. *)
Definition startsWith (s p : string) : bool := String.prefix p s.

(** [s.indexOf(c)] for one code unit; [-1] when [c] is absent. *)
Fixpoint indexOf (c : ascii) (s : string) : Z :=
  match s with
  | EmptyString => -1
  | String x rest =>
      if Ascii.eqb x c then 0
      else let r := indexOf c rest in if 0 <=? r then r + 1 else -1
  end.

(** [s.slice(start)]: a negative [start] counts from the end. *)
Definition slice (s : string) (start : Z) : string :=
  let len := Z.of_nat (String.length s) in
  let from := if start <? 0 then Z.max (len + start) 0 else Z.min start len in
  String.substring (Z.to_nat from) (Z.to_nat (len - from)) s.

End Js.

(** ** ast/types.ts *)

Module Ast.
Import Js.

(** The members of the [FilterOperator] union, in the order of
    [FILTER_OPERATORS]; [operatorName] gives the string of each.  The
    constructors carry a prefix because [eq], [lt], [in] and the like are
    taken in Rocq. *)
Inductive FilterOperator : Type :=
| op_eq | op_eqi | op_ne | op_nei | op_lt | op_lte | op_gt | op_gte | op_in | op_notIn
| op_contains | op_containsi | op_notContains | op_notContainsi
| op_startsWith | op_endsWith | op_null | op_notNull | op_between.

Inductive SortDirection : Type := asc | desc.

Record SortSpec : Type := mkSortSpec {
  sort_field : string;
  direction : SortDirection
}.

Inductive LogicalOperator : Type := lop_and | lop_or | lop_not.

(** [FilterNode = FieldFilter | LogicalFilter], told apart by [type]. *)
Inductive FilterNode : Type :=
| FieldFilter (field : string) (operator : FilterOperator) (value : JsValue)
| LogicalFilter (operator : LogicalOperator) (conditions : list FilterNode).

Record Pagination : Type := mkPagination {
  offset : Z;
  limit : Z
}.

Record QueryAST : Type := mkQueryAST {
  fields : option (list string);
  pagination : Pagination;
  sort : list SortSpec;
  filter : option FilterNode
}.

Definition isFieldFilter (node : FilterNode) : bool :=
  match node with FieldFilter _ _ _ => true | LogicalFilter _ _ => false end.

Definition isLogicalFilter (node : FilterNode) : bool :=
  match node with FieldFilter _ _ _ => false | LogicalFilter _ _ => true end.

Definition FILTER_OPERATORS : list FilterOperator :=
  [op_eq; op_eqi; op_ne; op_nei; op_lt; op_lte; op_gt; op_gte; op_in; op_notIn;
   op_contains; op_containsi; op_notContains; op_notContainsi;
   op_startsWith; op_endsWith; op_null; op_notNull; op_between].

Definition LOGICAL_OPERATORS : list LogicalOperator := [lop_and; lop_or; lop_not].

Definition SORT_DIRECTIONS : list SortDirection := [asc; desc].

(** The string behind each member of the [FilterOperator] union. *)
Definition operatorName (op : FilterOperator) : string :=
  match op with
  | op_eq => "eq" | op_eqi => "eqi" | op_ne => "ne" | op_nei => "nei"
  | op_lt => "lt" | op_lte => "lte" | op_gt => "gt" | op_gte => "gte"
  | op_in => "in" | op_notIn => "notIn"
  | op_contains => "contains" | op_containsi => "containsi"
  | op_notContains => "notContains" | op_notContainsi => "notContainsi"
  | op_startsWith => "startsWith" | op_endsWith => "endsWith"
  | op_null => "null" | op_notNull => "notNull" | op_between => "between"
  end.

Definition logicalName (op : LogicalOperator) : string :=
  match op with lop_and => "and" | lop_or => "or" | lop_not => "not" end.

Definition directionName (d : SortDirection) : string :=
  match d with asc => "asc" | desc => "desc" end.

(** *** Notions used to state properties of filter trees *)

(** The [field] of every [FieldFilter] node of a filter, one entry per
    node, in traversal order. *)
Fixpoint filterFieldOccurrences (node : FilterNode) : list string :=
  match node with
  | FieldFilter f _ _ => [f]
  | LogicalFilter _ conditions => flat_map filterFieldOccurrences conditions
  end.

Definition filterFieldsOf (filter : option FilterNode) : list string :=
  match filter with
  | None => []
  | Some node => filterFieldOccurrences node
  end.

(** The [FieldFilter] nodes of a filter as [(field, operator, value)], one
    entry per node, in traversal order. *)
Fixpoint fieldFilters (node : FilterNode) : list (string * FilterOperator * JsValue) :=
  match node with
  | FieldFilter f op v => [(f, op, v)]
  | LogicalFilter _ conditions => flat_map fieldFilters conditions
  end.

Definition fieldFiltersOf (filter : option FilterNode)
  : list (string * FilterOperator * JsValue) :=
  match filter with
  | None => []
  | Some node => fieldFilters node
  end.

#[global] Instance FilterOperator_eq_dec : EqDecision FilterOperator.
Proof. solve_decision. Defined.

#[global] Instance LogicalOperator_eq_dec : EqDecision LogicalOperator.
Proof. solve_decision. Defined.

#[global] Instance SortDirection_eq_dec : EqDecision SortDirection.
Proof. solve_decision. Defined.

End Ast.

(** ** security/types.ts *)

Module SecurityTypes.
Import Js Ast.

(** [SecurityConfig]: every member is optional. *)
Record SecurityConfig : Type := mkSecurityConfig {
  cfg_allowedFields : option (list string);
  cfg_allowedRelations : option (list string);
  cfg_maxLimit : option Z;
  cfg_operators : option (list FilterOperator);
  cfg_defaultLimit : option Z;
  cfg_defaultPage : option Z
}.

Record ResolvedSecurityConfig : Type := mkResolvedSecurityConfig {
  allowedFields : list string;
  allowedRelations : list string;
  maxLimit : Z;
  operators : list FilterOperator;
  defaultLimit : Z;
  defaultPage : Z
}.

Definition DEFAULT_SECURITY_CONFIG : ResolvedSecurityConfig :=
  {| allowedFields := [];
     allowedRelations := [];
     maxLimit := 100;
     operators := FILTER_OPERATORS;
     defaultLimit := 10;
     defaultPage := 1 |}.

(** [a ?? b]. *)
Definition nullish {A} (a : option A) (b : A) : A := default b a.

Definition resolveSecurityConfig (config : option SecurityConfig) : ResolvedSecurityConfig :=
  match config with
  | None => DEFAULT_SECURITY_CONFIG
  | Some config =>
      {| allowedFields := nullish (cfg_allowedFields config) (allowedFields DEFAULT_SECURITY_CONFIG);
         allowedRelations := nullish (cfg_allowedRelations config) (allowedRelations DEFAULT_SECURITY_CONFIG);
         maxLimit := nullish (cfg_maxLimit config) (maxLimit DEFAULT_SECURITY_CONFIG);
         operators := nullish (cfg_operators config) (operators DEFAULT_SECURITY_CONFIG);
         defaultLimit := nullish (cfg_defaultLimit config) (defaultLimit DEFAULT_SECURITY_CONFIG);
         defaultPage := nullish (cfg_defaultPage config) (defaultPage DEFAULT_SECURITY_CONFIG) |}
  end.

End SecurityTypes.

(** ** security/validator.ts *)

Module Validator.
Import Js Ast SecurityTypes.

Inductive SecurityErrorCode : Type :=
| FIELD_NOT_ALLOWED | OPERATOR_NOT_ALLOWED | LIMIT_EXCEEDED.

Record SecurityError : Type := mkSecurityError {
  code : SecurityErrorCode;
  field : string;
  message : string;
  path : list string
}.

Inductive SecurityWarningCode : Type := LIMIT_CAPPED.

Record SecurityWarning : Type := mkSecurityWarning {
  w_code : SecurityWarningCode;
  w_field : string;
  w_message : string;
  originalValue : Z;
  cappedValue : Z
}.

Record SecurityValidationResult : Type := mkSecurityValidationResult {
  valid : bool;
  errors : list SecurityError;
  warnings : list SecurityWarning;
  ast : option QueryAST
}.

#[global] Instance SecurityErrorCode_eq_dec : EqDecision SecurityErrorCode.
Proof. solve_decision. Defined.

Definition validateFields (fields : option (list string)) (allowedFields : list string)
  : list SecurityError :=
  match fields with
  | None => []
  | Some fields =>
      if (length fields =? 0)%nat || (length allowedFields =? 0)%nat then []
      else
        fold_left (fun errors f =>
          if negb (includes allowedFields f) then
            push errors
              {| code := FIELD_NOT_ALLOWED;
                 field := f;
                 message := "Field " +:+ dquote +:+ f +:+ dquote +:+
                            " is not allowed. Allowed fields: " +:+ join ", " allowedFields;
                 path := ["fields"; f] |}
          else errors) fields []
  end.

Definition validateLimit (limit maxLimit : Z) : Z * option SecurityWarning :=
  if limit <=? maxLimit then (limit, None)
  else
    (maxLimit,
     Some {| w_code := LIMIT_CAPPED;
             w_field := "limit";
             w_message := "Limit " +:+ numberToString limit +:+
                          " exceeds maximum allowed limit of " +:+ numberToString maxLimit +:+
                          ". Capped to " +:+ numberToString maxLimit +:+ ".";
             originalValue := limit;
             cappedValue := maxLimit |}).

(** [validateOperators] on a filter that is not [null]; [conditions] is
    walked with its index [i]. *)
Fixpoint validateOperatorsNode (filter : FilterNode) (allowedOperators : list FilterOperator)
  (path : list string) : list SecurityError :=
  match filter with
  | FieldFilter f op _ =>
      if negb (includes allowedOperators op) then
        [ {| code := OPERATOR_NOT_ALLOWED;
             field := f;
             message := "Operator " +:+ dquote +:+ operatorName op +:+ dquote +:+
                        " is not allowed. Allowed operators: " +:+
                        join ", " (map operatorName allowedOperators);
             path := path ++ [f; operatorName op] |} ]
      else []
  | LogicalFilter lop conditions =>
      (fix loop (conditions : list FilterNode) (i : nat) (errors : list SecurityError)
         : list SecurityError :=
         match conditions with
         | [] => errors
         | condition :: rest =>
             loop rest (S i)
               (errors ++ validateOperatorsNode condition allowedOperators
                            (path ++ [logicalName lop; pretty i]))
         end) conditions 0%nat []
  end.

Definition validateOperators (filter : option FilterNode)
  (allowedOperators : list FilterOperator) (path : list string) : list SecurityError :=
  match filter with
  | None => []
  | Some filter => validateOperatorsNode filter allowedOperators path
  end.

(** [Set.prototype.add] on a set that remembers insertion order. *)
Definition setAdd (fields : list string) (f : string) : list string :=
  if includes fields f then fields else push fields f.

(** The inner [traverse] of [extractFilterFields]; the set [fields] it
    adds to is threaded through. *)
Fixpoint traverse (node : FilterNode) (fields : list string) : list string :=
  match node with
  | FieldFilter f _ _ => setAdd fields f
  | LogicalFilter _ conditions =>
      fold_left (fun fields condition => traverse condition fields) conditions fields
  end.

Definition extractFilterFields (filter : option FilterNode) : list string :=
  match filter with
  | None => []
  | Some node => traverse node []
  end.

Definition validateFilterFields (filter : option FilterNode) (allowedFields : list string)
  (path : list string) : list SecurityError :=
  if (length allowedFields =? 0)%nat || negb (bool_decide (is_Some filter)) then []
  else
    let filterFields := extractFilterFields filter in
    fold_left (fun errors f =>
      if negb (includes allowedFields f) then
        push errors
          {| code := FIELD_NOT_ALLOWED;
             field := f;
             message := "Filter field " +:+ dquote +:+ f +:+ dquote +:+
                        " is not allowed. Allowed fields: " +:+ join ", " allowedFields;
             path := path ++ [f] |}
      else errors) filterFields [].

Definition validateSortFields (sort : list SortSpec) (allowedFields : list string)
  : list SecurityError :=
  if (length allowedFields =? 0)%nat || (length sort =? 0)%nat then []
  else
    fold_left (fun errors spec =>
      if negb (includes allowedFields (sort_field spec)) then
        push errors
          {| code := FIELD_NOT_ALLOWED;
             field := sort_field spec;
             message := "Sort field " +:+ dquote +:+ sort_field spec +:+ dquote +:+
                        " is not allowed. Allowed fields: " +:+ join ", " allowedFields;
             path := ["sort"; sort_field spec] |}
      else errors) sort [].

Definition validateSecurity (ast : option QueryAST) (config : option SecurityConfig)
  : SecurityValidationResult :=
  match ast with
  | None => {| valid := true; errors := []; warnings := []; ast := None |}
  | Some ast =>
      let resolvedConfig := resolveSecurityConfig config in
      let errors := [] in
      let warnings := [] in
      let fieldErrors := validateFields (fields ast) (allowedFields resolvedConfig) in
      let errors := errors ++ fieldErrors in
      let filterFieldErrors :=
        validateFilterFields (filter ast) (allowedFields resolvedConfig) ["filter"] in
      let errors := errors ++ filterFieldErrors in
      let sortFieldErrors := validateSortFields (sort ast) (allowedFields resolvedConfig) in
      let errors := errors ++ sortFieldErrors in
      let operatorErrors := validateOperators (filter ast) (operators resolvedConfig) ["filter"] in
      let errors := errors ++ operatorErrors in
      let '(cappedLimit, limitWarning) :=
        validateLimit (limit (pagination ast)) (maxLimit resolvedConfig) in
      let warnings :=
        match limitWarning with
        | Some w => push warnings w
        | None => warnings
        end in
      let modifiedAst :=
        {| fields := fields ast;
           pagination := {| offset := offset (pagination ast); limit := cappedLimit |};
           sort := sort ast;
           filter := filter ast |} in
      {| valid := (length errors =? 0)%nat;
         errors := errors;
         warnings := warnings;
         ast := Some modifiedAst |}
  end.

(** *** Notions used to state the properties of the validator *)

(** How often [f] occurs in a list of names. *)
Definition occurrences (f : string) (l : list string) : nat :=
  length (List.filter (String.eqb f) l).

(** The number of [FIELD_NOT_ALLOWED] errors tagged with [f]. *)
Definition fieldNotAllowedCount (f : string) (errors : list SecurityError) : nat :=
  length (List.filter
            (fun e => bool_decide (code e = FIELD_NOT_ALLOWED) && String.eqb f (field e))
            errors).

(** One [FIELD_NOT_ALLOWED] error tagged [f] for each occurrence of [f] on
    the three surfaces, an occurrence in the filter being a [FieldFilter]
    node that names [f]. *)
Definition oneErrorPerOccurrence (ast : QueryAST) (config : option SecurityConfig)
  (f : string) : Prop :=
  fieldNotAllowedCount f (errors (validateSecurity (Some ast) config))
  = (occurrences f (default [] (fields ast))
     + occurrences f (filterFieldsOf (filter ast))
     + occurrences f (map sort_field (sort ast)))%nat.

(** The [FieldFilter] nodes of a filter, each with the path that
    [validateOperators] has built when it reaches the node: the operator
    of every logical node above it and the index of the condition taken. *)
Fixpoint fieldNodesAt (node : FilterNode) (path : list string)
  : list (list string * (string * FilterOperator * JsValue)) :=
  match node with
  | FieldFilter f op v => [(path, (f, op, v))]
  | LogicalFilter lop conditions =>
      (fix walk (conditions : list FilterNode) (i : nat)
         : list (list string * (string * FilterOperator * JsValue)) :=
         match conditions with
         | [] => []
         | condition :: rest =>
             fieldNodesAt condition (path ++ [logicalName lop; pretty i]) ++ walk rest (S i)
         end) conditions 0%nat
  end.

(** The error that [validateOperators] reports for a node at [path]. *)
Definition operatorError (allowedOperators : list FilterOperator)
  (at_ : list string * (string * FilterOperator * JsValue)) : SecurityError :=
  let '(path, (f, op, _)) := at_ in
  {| code := OPERATOR_NOT_ALLOWED;
     field := f;
     message := "Operator " +:+ dquote +:+ operatorName op +:+ dquote +:+
                " is not allowed. Allowed operators: " +:+
                join ", " (map operatorName allowedOperators);
     path := path ++ [f; operatorName op] |}.

(** Every name that the AST mentions: selected fields, filter fields and
    sort fields. *)
Definition mentionedFields (ast : QueryAST) : list string :=
  default [] (fields ast) ++ filterFieldsOf (filter ast) ++ map sort_field (sort ast).

(** What a configuration permits: the fields (all of them when
    [allowedFields] is empty) and the filter operators. *)
Definition permits (resolved : ResolvedSecurityConfig) (ast : QueryAST) : Prop :=
  (allowedFields resolved = [] \/ Forall (fun f => f ∈ allowedFields resolved) (mentionedFields ast))
  /\ Forall (fun n => n.1.2 ∈ operators resolved) (fieldFiltersOf (filter ast)).

(** The input of [validateSecurity] with another [pagination.limit]. *)
Definition withLimit (ast : QueryAST) (l : Z) : QueryAST :=
  {| fields := fields ast;
     pagination := {| offset := offset (pagination ast); limit := l |};
     sort := sort ast;
     filter := filter ast |}.

End Validator.

(** ** compiler/types.ts *)

Module CompilerTypes.

Inductive CompileErrorCode : Type :=
| UNKNOWN_COLUMN | TYPE_MISMATCH | UNSUPPORTED_OPERATOR.

Inductive CompileWarningCode : Type :=
| COLUMN_IGNORED | OPERATOR_FALLBACK | PERFORMANCE_HINT.

Record CompileError : Type := mkCompileError {
  code : CompileErrorCode;
  field : string;
  message : string
}.

Record CompileWarning : Type := mkCompileWarning {
  w_code : CompileWarningCode;
  w_field : string;
  w_message : string;
  suggestion : option string
}.

Record CompilerResult (T : Type) : Type := mkCompilerResult {
  query : option T;
  errors : list CompileError;
  warnings : list CompileWarning
}.
Arguments query {T}.
Arguments errors {T}.
Arguments warnings {T}.

Definition createCompileError (code : CompileErrorCode) (field message : string)
  : CompileError :=
  {| code := code; field := field; message := message |}.

Definition createCompileWarning (code : CompileWarningCode) (field message : string)
  (suggestion : option string) : CompileWarning :=
  {| w_code := code; w_field := field; w_message := message; suggestion := suggestion |}.

#[global] Instance CompileErrorCode_eq_dec : EqDecision CompileErrorCode.
Proof. solve_decision. Defined.

(** [interface QueryCompiler<TTable, TQuery>]. *)
Class QueryCompiler (TTable TQuery : Type) : Type := {
  compile : Ast.QueryAST -> TTable -> CompilerResult TQuery
}.

End CompilerTypes.

(** ** The builders of drizzle-orm that the compiler calls

    drizzle-orm is not part of the repository: its builders are the
    members of an interface, and the compiler is stated over any
    implementation of it.  [and] and [or] return [SQL | undefined]. *)

Module Drizzle.
Import Js.

Class Builders (PgColumn SQL : Type) : Type := {
  and : list SQL -> option SQL;
  or : list SQL -> option SQL;
  not : SQL -> SQL;
  asc : PgColumn -> SQL;
  desc : PgColumn -> SQL;
  eq : PgColumn -> JsValue -> SQL;
  ne : PgColumn -> JsValue -> SQL;
  lt : PgColumn -> JsValue -> SQL;
  lte : PgColumn -> JsValue -> SQL;
  gt : PgColumn -> JsValue -> SQL;
  gte : PgColumn -> JsValue -> SQL;
  ilike : PgColumn -> string -> SQL;
  notIlike : PgColumn -> string -> SQL;
  like : PgColumn -> string -> SQL;
  notLike : PgColumn -> string -> SQL;
  inArray : PgColumn -> list JsValue -> SQL;
  notInArray : PgColumn -> list JsValue -> SQL;
  isNull : PgColumn -> SQL;
  isNotNull : PgColumn -> SQL;
  between : PgColumn -> JsValue -> JsValue -> SQL
}.

(** A symbolic implementation, for examples: a column is its name and
    every builder is a constructor of the term it builds. *)
Inductive Term : Type :=
| TAnd (l : list Term) | TOr (l : list Term) | TNot (t : Term)
| TAsc (c : string) | TDesc (c : string)
| TEq (c : string) (v : JsValue) | TNe (c : string) (v : JsValue)
| TLt (c : string) (v : JsValue) | TLte (c : string) (v : JsValue)
| TGt (c : string) (v : JsValue) | TGte (c : string) (v : JsValue)
| TIlike (c : string) (p : string) | TNotIlike (c : string) (p : string)
| TLike (c : string) (p : string) | TNotLike (c : string) (p : string)
| TInArray (c : string) (vs : list JsValue) | TNotInArray (c : string) (vs : list JsValue)
| TIsNull (c : string) | TIsNotNull (c : string)
| TBetween (c : string) (lo hi : JsValue).

Definition symbolic : Builders string Term :=
  {| and := fun l => match l with [] => None | _ => Some (TAnd l) end;
     or := fun l => match l with [] => None | _ => Some (TOr l) end;
     not := TNot;
     asc := TAsc; desc := TDesc;
     eq := TEq; ne := TNe; lt := TLt; lte := TLte; gt := TGt; gte := TGte;
     ilike := TIlike; notIlike := TNotIlike; like := TLike; notLike := TNotLike;
     inArray := TInArray; notInArray := TNotInArray;
     isNull := TIsNull; isNotNull := TIsNotNull;
     between := TBetween |}.

End Drizzle.

(** ** compiler/drizzle-pg.ts *)

Module Compiler.
Import Js Ast CompilerTypes.

Section DrizzlePg.
Context {PgColumn SQL : Type} {drizzle : Drizzle.Builders PgColumn SQL}.

(** [getTableColumns(table)]: the columns of the table by name, in the
    order of [Object.keys]. *)
Definition PgTable : Type := list (string * PgColumn).

Definition getTableColumns (table : PgTable) : list (string * PgColumn) := table.

(** [Object.keys(columns)]. *)
Definition keys (columns : list (string * PgColumn)) : list string := map fst columns.

(** [columns[name]]. *)
Fixpoint getColumn (columns : list (string * PgColumn)) (name : string) : option PgColumn :=
  match columns with
  | [] => None
  | (k, column) :: rest => if String.eqb k name then Some column else getColumn rest name
  end.

Record DrizzlePgQuery : Type := mkDrizzlePgQuery {
  columns : option (gmap string bool);
  limit : Z;
  offset : Z;
  orderBy : list SQL;
  where_ : option SQL
}.

Definition compileFields (fields : option (list string)) (table : PgTable)
  (errors : list CompileError) (warnings : list CompileWarning)
  : option (gmap string bool) * list CompileError * list CompileWarning :=
  match fields with
  | None => (None, errors, warnings)
  | Some fields =>
      let columns := getTableColumns table in
      let columnNames := keys columns in
      let '(result, errors) :=
        fold_left (fun '(result, errors) f =>
          if includes columnNames f then (<[f := true]> result, errors)
          else
            (result,
             push errors
               (createCompileError UNKNOWN_COLUMN f
                  ("Column '" +:+ f +:+ "' does not exist in table schema"))))
          fields (∅ : gmap string bool, errors) in
      if (size result =? 0)%nat && (0 <? length fields)%nat then
        (None, errors,
         push warnings
           (createCompileWarning COLUMN_IGNORED "fields"
              "All requested fields were invalid, selecting all columns"
              (Some ("Available columns: " +:+ join ", " columnNames))))
      else (Some result, errors, warnings)
  end.

Definition compilePagination (pagination : Pagination) : Z * Z :=
  (Ast.limit pagination, Ast.offset pagination).

Definition compileSort (sort : list SortSpec) (table : PgTable) (errors : list CompileError)
  : list SQL * list CompileError :=
  let columns := getTableColumns table in
  let columnNames := keys columns in
  fold_left (fun '(orderBy, errors) spec =>
    if negb (includes columnNames (sort_field spec)) then
      (orderBy,
       push errors
         (createCompileError UNKNOWN_COLUMN (sort_field spec)
            ("Sort column '" +:+ sort_field spec +:+ "' does not exist in table schema")))
    else
      match getColumn columns (sort_field spec) with
      | Some column =>
          (push orderBy
             (if bool_decide (direction spec = Ast.desc) then Drizzle.desc column
              else Drizzle.asc column),
           errors)
      | None => (orderBy, errors) (* not reached: the name is a key of [columns] *)
      end) sort ([], errors).

(** [Array.isArray(value) ? value : [value]]. *)
Definition asArray (value : JsValue) : list JsValue :=
  match value with JArr items => items | _ => [value] end.

Definition compileOperator (column : PgColumn) (operator : FilterOperator) (value : JsValue)
  (fieldName : string) (errors : list CompileError) : option SQL * list CompileError :=
  match operator with
  | op_eq => (Some (Drizzle.eq column value), errors)
  | op_eqi => (Some (Drizzle.ilike column (toStr value)), errors)
  | op_ne => (Some (Drizzle.ne column value), errors)
  | op_nei => (Some (Drizzle.notIlike column (toStr value)), errors)
  | op_lt => (Some (Drizzle.lt column value), errors)
  | op_lte => (Some (Drizzle.lte column value), errors)
  | op_gt => (Some (Drizzle.gt column value), errors)
  | op_gte => (Some (Drizzle.gte column value), errors)
  | op_in => (Some (Drizzle.inArray column (asArray value)), errors)
  | op_notIn => (Some (Drizzle.notInArray column (asArray value)), errors)
  | op_contains => (Some (Drizzle.like column ("%" +:+ toStr value +:+ "%")), errors)
  | op_containsi => (Some (Drizzle.ilike column ("%" +:+ toStr value +:+ "%")), errors)
  | op_notContains => (Some (Drizzle.notLike column ("%" +:+ toStr value +:+ "%")), errors)
  | op_notContainsi => (Some (Drizzle.notIlike column ("%" +:+ toStr value +:+ "%")), errors)
  | op_startsWith => (Some (Drizzle.like column (toStr value +:+ "%")), errors)
  | op_endsWith => (Some (Drizzle.like column ("%" +:+ toStr value)), errors)
  | op_null => (Some (Drizzle.isNull column), errors)
  | op_notNull => (Some (Drizzle.isNotNull column), errors)
  | op_between =>
      match value with
      | JArr [lo; hi] => (Some (Drizzle.between column lo hi), errors)
      | _ =>
          (None,
           push errors
             (createCompileError TYPE_MISMATCH fieldName
                ("Operator 'between' requires array with exactly 2 values, got " +:+
                 typeof value)))
      end
  end.

(** The inner [compileNode] of [compileFilter].  [conditions.map(compileNode)]
    compiles the children from left to right, each pushing to [errors]. *)
Fixpoint compileNode (table : PgTable) (node : FilterNode) (errors : list CompileError)
  : option SQL * list CompileError :=
  let columns := getTableColumns table in
  let columnNames := keys columns in
  match node with
  | FieldFilter f operator value =>
      if negb (includes columnNames f) then
        (None,
         push errors
           (createCompileError UNKNOWN_COLUMN f
              ("Filter column '" +:+ f +:+ "' does not exist in table schema")))
      else
        match getColumn columns f with
        | Some column => compileOperator column operator value f errors
        | None => (None, errors) (* not reached: the name is a key of [columns] *)
        end
  | LogicalFilter operator conditions =>
      let '(compiled, errors) :=
        (fix mapNodes (conditions : list FilterNode) (errors : list CompileError)
           : list (option SQL) * list CompileError :=
           match conditions with
           | [] => ([], errors)
           | condition :: rest =>
               let '(c, errors) := compileNode table condition errors in
               let '(cs, errors) := mapNodes rest errors in
               (c :: cs, errors)
           end) conditions errors in
      let compiledConditions := omap id compiled in
      match compiledConditions with
      | [] => (None, errors)
      | first :: others =>
          match operator with
          | lop_and =>
              if (length compiledConditions =? 1)%nat then (Some first, errors)
              else (Drizzle.and compiledConditions, errors)
          | lop_or =>
              if (length compiledConditions =? 1)%nat then (Some first, errors)
              else (Drizzle.or compiledConditions, errors)
          | lop_not => (Some (Drizzle.not first), errors)
          end
      end
  end.

Definition compileFilter (filter : option FilterNode) (table : PgTable)
  (errors : list CompileError) : option SQL * list CompileError :=
  match filter with
  | None => (None, errors)
  | Some filter => compileNode table filter errors
  end.

(** [DrizzlePgCompiler.compile]. *)
Definition compile (ast : QueryAST) (table : PgTable) : CompilerResult DrizzlePgQuery :=
  let errors := [] in
  let warnings := [] in
  let '(columns, errors, warnings) := compileFields (fields ast) table errors warnings in
  let '(limit, offset) := compilePagination (pagination ast) in
  let '(orderBy, errors) := compileSort (sort ast) table errors in
  let '(where_, errors) := compileFilter (filter ast) table errors in
  let query :=
    {| columns := columns; limit := limit; offset := offset;
       orderBy := orderBy; where_ := where_ |} in
  {| query := Some query; errors := errors; warnings := warnings |}.

(** *** Notions used to state the properties of the compiler *)

(** [conditions.map(compileNode).filter(c => c !== null)] and the errors
    after it. *)
Fixpoint compileConditions (table : PgTable) (conditions : list FilterNode)
  (errors : list CompileError) : list SQL * list CompileError :=
  match conditions with
  | [] => ([], errors)
  | condition :: rest =>
      let '(c, errors) := compileNode table condition errors in
      let '(cs, errors) := compileConditions table rest errors in
      (match c with Some c => c :: cs | None => cs end, errors)
  end.

(** Whether the table has a column of that name. *)
Definition known (table : PgTable) (name : string) : bool :=
  includes (keys (getTableColumns table)) name.

(** A filter without the [FieldFilter] nodes on unknown columns. *)
Fixpoint pruneUnknown (table : PgTable) (node : FilterNode) : option FilterNode :=
  match node with
  | FieldFilter f _ _ => if known table f then Some node else None
  | LogicalFilter operator conditions =>
      Some (LogicalFilter operator (omap (pruneUnknown table) conditions))
  end.

Definition pruneFilter (table : PgTable) (filter : option FilterNode) : option FilterNode :=
  filter ≫= pruneUnknown table.

(** The ordering directive of a sort entry, if its column resolves. *)
Definition orderDirective (table : PgTable) (spec : SortSpec) : option SQL :=
  (fun column => if bool_decide (direction spec = Ast.desc) then Drizzle.desc column
                 else Drizzle.asc column) <$> getColumn (getTableColumns table) (sort_field spec).


(** A [between] node whose value is not an array of exactly two values. *)
Definition mistyped (n : string * FilterOperator * JsValue) : bool :=
  match n with
  | (_, op_between, JArr [_; _]) => false
  | (_, op_between, _) => true
  | _ => false
  end.

(** The filter nodes that [compileFilter] reports: those on an unknown
    column and the mistyped [between] nodes; and the code and field of the
    error of each. *)
Definition rejected (table : PgTable) (n : string * FilterOperator * JsValue) : bool :=
  negb (known table n.1.1) || mistyped n.

Definition rejection (table : PgTable) (n : string * FilterOperator * JsValue)
  : CompileErrorCode * string :=
  (if known table n.1.1 then TYPE_MISMATCH else UNKNOWN_COLUMN, n.1.1).

(** The code and the field of an error. *)
Definition brief (e : CompileError) : CompileErrorCode * string := (code e, field e).


End DrizzlePg.

End Compiler.

(** ** The LRU result cache

    [Date.now()] is an argument [now] of every method that reads the
    clock.  The [Map] is the list of its entries in insertion order.
    [onEvict] is a callback of the configuration: the calls made to it are
    recorded, in order, in [evicted].  The timer of the automatic cleanup
    is outside the model; [cleanup] is the method it calls. *)

Module Cache.
Import Js.

Inductive EvictionReason : Type := expired | capacity | manual | clear_.

#[global] Instance EvictionReason_eq_dec : EqDecision EvictionReason.
Proof. solve_decision. Defined.

Record CacheEntry : Type := mkCacheEntry {
  value : JsValue;
  createdAt : Z;
  lastAccessedAt : Z;
  accessCount : Z;
  size : Z
}.

Record LRUCacheConfig : Type := mkLRUCacheConfig {
  maxSize : Z;
  ttl : Z;
  autoCleanup : bool;
  cleanupInterval : Z
}.

Definition DEFAULT_CACHE_CONFIG : LRUCacheConfig :=
  {| maxSize := 1000; ttl := 300000; autoCleanup := true; cleanupInterval := 60000 |}.

Record LRUCache : Type := mkLRUCache {
  cache : list (string * CacheEntry);
  config : LRUCacheConfig;
  hits : Z;
  misses : Z;
  evictions : Z;
  evictionsByReason : EvictionReason -> Z;
  evicted : list (string * JsValue * EvictionReason)
}.

(** *** [Map] operations *)

Fixpoint mapGet (key : string) (m : list (string * CacheEntry)) : option CacheEntry :=
  match m with
  | [] => None
  | (k, e) :: rest => if String.eqb k key then Some e else mapGet key rest
  end.

Definition mapHas (key : string) (m : list (string * CacheEntry)) : bool :=
  bool_decide (is_Some (mapGet key m)).

Fixpoint mapDelete (key : string) (m : list (string * CacheEntry)) : list (string * CacheEntry) :=
  match m with
  | [] => []
  | (k, e) :: rest => if String.eqb k key then rest else (k, e) :: mapDelete key rest
  end.

(** [Map.prototype.set]: a present key keeps its place, a new one goes last. *)
Fixpoint mapSet (key : string) (entry : CacheEntry) (m : list (string * CacheEntry))
  : list (string * CacheEntry) :=
  match m with
  | [] => [(key, entry)]
  | (k, e) :: rest =>
      if String.eqb k key then (k, entry) :: rest else (k, e) :: mapSet key entry rest
  end.

Definition mapSize (m : list (string * CacheEntry)) : Z := Z.of_nat (length m).

Definition mapKeys (m : list (string * CacheEntry)) : list string := map fst m.

(** *** [LRUCache] *)

(** [new LRUCache(config)]. *)
Definition create (config : LRUCacheConfig) : LRUCache :=
  {| cache := [];
     config := config;
     hits := 0;
     misses := 0;
     evictions := 0;
     evictionsByReason := fun _ => 0;
     evicted := [] |}.

Definition isExpired (this : LRUCache) (now : Z) (entry : CacheEntry) : bool :=
  now - createdAt entry >? ttl (config this).

Definition evict (key : string) (reason : EvictionReason) (this : LRUCache) : LRUCache :=
  match mapGet key (cache this) with
  | Some entry =>
      {| cache := mapDelete key (cache this);
         config := config this;
         hits := hits this;
         misses := misses this;
         evictions := evictions this + 1;
         evictionsByReason :=
           fun r => if bool_decide (r = reason) then evictionsByReason this r + 1
                    else evictionsByReason this r;
         evicted := push (evicted this) (key, value entry, reason) |}
  | None => this
  end.

(** The first key of the [Map] is the least recently used. *)
Definition evictLRU (this : LRUCache) : LRUCache :=
  match mapKeys (cache this) with
  | firstKey :: _ => evict firstKey capacity this
  | [] => this
  end.

Fixpoint estimateSize (v : JsValue) : Z :=
  match v with
  | JNull | JUndefined => 0
  | JBool _ => 4
  | JNum _ => 8
  | JStr s => Z.of_nat (String.length s) * 2
  | JArr items =>
      fold_left (fun sum item => sum + estimateSize item) items 0
      + 8 * Z.of_nat (length items)
  | JObj props =>
      fold_left (fun sum '(key, val) =>
                   sum + Z.of_nat (String.length key) * 2 + estimateSize val) props 0
  end.

Definition withMisses (this : LRUCache) (n : Z) : LRUCache :=
  {| cache := cache this; config := config this; hits := hits this; misses := n;
     evictions := evictions this; evictionsByReason := evictionsByReason this;
     evicted := evicted this |}.

Definition get (key : string) (now : Z) (this : LRUCache) : option JsValue * LRUCache :=
  match mapGet key (cache this) with
  | None => (None, withMisses this (misses this + 1))
  | Some entry =>
      if isExpired this now entry then
        let this := evict key expired this in
        (None, withMisses this (misses this + 1))
      else
        let entry :=
          {| value := value entry;
             createdAt := createdAt entry;
             lastAccessedAt := now;
             accessCount := accessCount entry + 1;
             size := size entry |} in
        (Some (value entry),
         {| cache := mapSet key entry (mapDelete key (cache this));
            config := config this;
            hits := hits this + 1;
            misses := misses this;
            evictions := evictions this;
            evictionsByReason := evictionsByReason this;
            evicted := evicted this |})
  end.

(** [while (cond(this)) this.evictLRU()].  An iteration that finds the
    [Map] empty changes nothing, so a loop whose condition still holds
    after as many iterations as there were entries never ends: with [n]
    the number of entries, [None] is a loop that does not terminate. *)
Fixpoint evictWhile (cond : LRUCache -> bool) (n : nat) (this : LRUCache) : option LRUCache :=
  if cond this then
    match n with
    | O => None
    | S n => evictWhile cond n (evictLRU this)
    end
  else Some this.

Definition withCache (this : LRUCache) (m : list (string * CacheEntry)) : LRUCache :=
  {| cache := m; config := config this; hits := hits this; misses := misses this;
     evictions := evictions this; evictionsByReason := evictionsByReason this;
     evicted := evicted this |}.

(** [set] returns [None] when its loop does not terminate. *)
Definition set (key : string) (v : JsValue) (now : Z) (this : LRUCache) : option LRUCache :=
  let size := estimateSize v in
  let this := if mapHas key (cache this) then withCache this (mapDelete key (cache this))
              else this in
  match evictWhile (fun this => mapSize (cache this) >=? maxSize (config this))
          (length (cache this)) this with
  | None => None
  | Some this =>
      let entry :=
        {| value := v; createdAt := now; lastAccessedAt := now; accessCount := 1;
           size := size |} in
      Some (withCache this (mapSet key entry (cache this)))
  end.

Definition has (key : string) (now : Z) (this : LRUCache) : bool * LRUCache :=
  match mapGet key (cache this) with
  | None => (false, this)
  | Some entry =>
      if isExpired this now entry then (false, evict key expired this) else (true, this)
  end.

Definition delete (key : string) (this : LRUCache) : bool * LRUCache :=
  if mapHas key (cache this) then (true, evict key manual this) else (false, this).

Definition clear (this : LRUCache) : LRUCache :=
  let size := mapSize (cache this) in
  {| cache := [];
     config := config this;
     hits := hits this;
     misses := misses this;
     evictions := evictions this + size;
     evictionsByReason :=
       fun r => if bool_decide (r = clear_) then evictionsByReason this r + size
                else evictionsByReason this r;
     evicted := evicted this ++ map (fun '(key, entry) => (key, value entry, clear_)) (cache this) |}.

Definition keys (this : LRUCache) : list string := mapKeys (cache this).

(** [cleanup]: the entries are visited in the order they have when the
    loop starts; deleting the visited entry does not disturb the iteration. *)
Definition cleanup (now : Z) (this : LRUCache) : Z * LRUCache :=
  fold_left (fun '(cleaned, this) '(key, entry) =>
               if now - createdAt entry >? ttl (config this)
               then (cleaned + 1, evict key expired this)
               else (cleaned, this))
    (cache this) (0, this).

Definition withConfig (this : LRUCache) (c : LRUCacheConfig) : LRUCache :=
  {| cache := cache this; config := c; hits := hits this; misses := misses this;
     evictions := evictions this; evictionsByReason := evictionsByReason this;
     evicted := evicted this |}.

Definition setTTL (t : Z) (this : LRUCache) : LRUCache :=
  withConfig this
    {| maxSize := maxSize (config this); ttl := t; autoCleanup := autoCleanup (config this);
       cleanupInterval := cleanupInterval (config this) |}.

Definition setMaxSize (n : Z) (this : LRUCache) : option LRUCache :=
  let this :=
    withConfig this
      {| maxSize := n; ttl := ttl (config this); autoCleanup := autoCleanup (config this);
         cleanupInterval := cleanupInterval (config this) |} in
  evictWhile (fun this => mapSize (cache this) >? n) (length (cache this)) this.

Definition resetStats (this : LRUCache) : LRUCache :=
  {| cache := cache this; config := config this; hits := 0; misses := 0; evictions := 0;
     evictionsByReason := fun _ => 0; evicted := evicted this |}.

(** [invalidatePattern]: a string is matched as a prefix of the key; a
    [RegExp] is known by its [test], taken to keep no state between two
    calls (no [g] or [y] flag).  The keys are visited in the order they
    have when the loop starts. *)
Definition invalidatePattern (pattern : string + (string -> bool)) (this : LRUCache)
  : Z * LRUCache :=
  fold_left (fun '(invalidated, this) key =>
               let matches :=
                 match pattern with
                 | inl pattern => startsWith key pattern
                 | inr test => test key
                 end in
               if matches then (invalidated + 1, evict key manual this)
               else (invalidated, this))
    (mapKeys (cache this)) (0, this).

Definition invalidateOlderThan (maxAge : Z) (now : Z) (this : LRUCache) : Z * LRUCache :=
  let cutoff := now - maxAge in
  fold_left (fun '(invalidated, this) '(key, entry) =>
               if createdAt entry <? cutoff
               then (invalidated + 1, evict key expired this)
               else (invalidated, this))
    (cache this) (0, this).

(** *** [QueryCache], which extends [LRUCache] *)

(** [QueryCache.generateKey(queryString, schemaName?)]. *)
Definition generateKey (queryString : string) (schemaName : option string) : string :=
  let normalizedQuery := trim queryString in
  match schemaName with
  | Some schemaName =>
      if truthy schemaName then normalizedQuery +:+ ":" +:+ schemaName else normalizedQuery
  | None => normalizedQuery
  end.

Definition getQuery (queryString : string) (schemaName : option string) (now : Z)
  (this : LRUCache) : option JsValue * LRUCache :=
  let key := generateKey queryString schemaName in
  get key now this.

Definition setQuery (queryString : string) (v : JsValue) (schemaName : option string)
  (now : Z) (this : LRUCache) : option LRUCache :=
  let key := generateKey queryString schemaName in
  set key v now this.

Definition hasQuery (queryString : string) (schemaName : option string) (now : Z)
  (this : LRUCache) : bool * LRUCache :=
  let key := generateKey queryString schemaName in
  has key now this.

(** *** Notions used to state the properties of the cache *)

(** A call of a method of the cache, with the time at which it reads the
    clock, and the cache after a call or a sequence of calls ([None] when
    a loop does not terminate). *)
Inductive Call : Type :=
| CallGet (key : string) (now : Z)
| CallSet (key : string) (v : JsValue) (now : Z)
| CallHas (key : string) (now : Z)
| CallDelete (key : string)
| CallClear
| CallCleanup (now : Z)
| CallInvalidatePattern (pattern : string + (string -> bool))
| CallInvalidateOlderThan (maxAge : Z) (now : Z)
| CallSetTTL (t : Z)
| CallSetMaxSize (n : Z)
| CallResetStats.

Definition call (c : Call) (this : LRUCache) : option LRUCache :=
  match c with
  | CallGet key now => Some (snd (get key now this))
  | CallSet key v now => set key v now this
  | CallHas key now => Some (snd (has key now this))
  | CallDelete key => Some (snd (delete key this))
  | CallClear => Some (clear this)
  | CallCleanup now => Some (snd (cleanup now this))
  | CallInvalidatePattern pattern => Some (snd (invalidatePattern pattern this))
  | CallInvalidateOlderThan maxAge now => Some (snd (invalidateOlderThan maxAge now this))
  | CallSetTTL t => Some (setTTL t this)
  | CallSetMaxSize n => setMaxSize n this
  | CallResetStats => Some (resetStats this)
  end.

Fixpoint callAll (calls : list Call) (this : LRUCache) : option LRUCache :=
  match calls with
  | [] => Some this
  | c :: rest =>
      match call c this with
      | Some this => callAll rest this
      | None => None
      end
  end.

Definition isResetStats (c : Call) : bool :=
  match c with CallResetStats => true | _ => false end.

(** The cache [this'] is [this] after the entries [gone] were evicted for
    [reason], as far as the statistics and the calls of [onEvict] go: one
    call for each entry, in order, each counted once. *)
Definition evictedAll (reason : EvictionReason) (gone : list (string * CacheEntry))
  (this this' : LRUCache) : Prop :=
  config this' = config this
  /\ hits this' = hits this
  /\ misses this' = misses this
  /\ evictions this' = evictions this + Z.of_nat (length gone)
  /\ (forall r, evictionsByReason this' r
                = evictionsByReason this r
                  + if bool_decide (r = reason) then Z.of_nat (length gone) else 0)
  /\ evicted this' = evicted this ++ map (fun a => (a.1, value a.2, reason)) gone.

(** The number of calls of [onEvict] with a reason. *)
Definition reasonCount (reason : EvictionReason)
  (log : list (string * JsValue * EvictionReason)) : Z :=
  Z.of_nat (length (List.filter (fun a => bool_decide (a.2 = reason)) log)).

(** [this'] is [this] after some calls of [onEvict], each counted. *)
Definition logged (this this' : LRUCache) : Prop :=
  exists new,
    evictions this' = evictions this + Z.of_nat (length new)
    /\ (forall r, evictionsByReason this' r = evictionsByReason this r + reasonCount r new)
    /\ evicted this' = evicted this ++ new.

(** [this'] is [this] after a method that adds no entry: the keys stay
    distinct, the configuration is the same, and the evictions are counted. *)
Definition shrinks (this this' : LRUCache) : Prop :=
  (NoDup (mapKeys (cache this)) -> NoDup (mapKeys (cache this')))
  /\ config this' = config this
  /\ (length (cache this') <= length (cache this))%nat
  /\ logged this this'.


(** The entry that [set] stores. *)
Definition newEntry (v : JsValue) (now : Z) : CacheEntry :=
  {| value := v; createdAt := now; lastAccessedAt := now; accessCount := 1;
     size := estimateSize v |}.



(** The entries are in the order of their last access: none was accessed
    before an entry that precedes it. *)
Definition byAccess (a b : string * CacheEntry) : Prop :=
  lastAccessedAt (snd a) <= lastAccessedAt (snd b).

Definition recencyOrdered (m : list (string * CacheEntry)) : Prop :=
  StronglySorted byAccess m.

(** No entry was accessed after [now]. *)
Definition accessedBy (now : Z) (m : list (string * CacheEntry)) : Prop :=
  Forall (fun a => lastAccessedAt (snd a) <= now) m.

(** What the methods keep true of the [Map] when the clock does not run
    backwards: the keys are distinct, and the entries are in the order of
    their last access, none of them after [now]. *)
Definition mapInvariant (now : Z) (m : list (string * CacheEntry)) : Prop :=
  NoDup (mapKeys m) /\ recencyOrdered m /\ accessedBy now m.


End Cache.

(** ** ast/parser.ts *)

Module Parser.
Import Js Ast.

Inductive ParseErrorCode : Type :=
| INVALID_FIELD | INVALID_OPERATOR | INVALID_VALUE | EXCEEDED_LIMIT | SECURITY_VIOLATION.

Record ParseError : Type := mkParseError {
  code : ParseErrorCode;
  field : string;
  message : string;
  path : list string
}.

Inductive ParseWarningCode : Type := FIELD_IGNORED | LIMIT_CAPPED | DEFAULT_APPLIED.

Record ParseWarning : Type := mkParseWarning {
  w_code : ParseWarningCode;
  w_field : string;
  w_message : string;
  suggestion : option string
}.

Record ParserResult : Type := mkParserResult {
  ast : option QueryAST;
  errors : list ParseError;
  warnings : list ParseWarning
}.

#[global] Instance ParseErrorCode_eq_dec : EqDecision ParseErrorCode.
Proof. solve_decision. Defined.

Definition DEFAULT_PAGINATION : Pagination := {| offset := 0; limit := 10 |}.

Definition DEFAULT_PAGE : Z := 1.

(** [parseFields]: anything but a non-empty string gives [null]. *)
Definition parseFields (fieldsParam : JsValue) : option (list string) :=
  match fieldsParam with
  | JStr fieldsParam =>
      if negb (truthy fieldsParam) then None
      else
        let trimmed := trim fieldsParam in
        if String.eqb trimmed "" then None
        else
          let fields :=
            List.filter (fun f => (0 <? String.length f)%nat) (map trim (split "," trimmed)) in
          if (0 <? length fields)%nat then Some fields else None
  | _ => None
  end.

(** [typeof param === "number" ? param : Number.parseInt(String(param), 10)];
    [None] is [NaN]. *)
Definition toNumber (param : JsValue) : option Z :=
  match param with
  | JNum n => Some n
  | _ => parseInt (toStr param)
  end.

Definition parsePagination (pageParam limitParam : JsValue) : Pagination :=
  let limit := Ast.limit DEFAULT_PAGINATION in
  let limit :=
    match limitParam with
    | JUndefined | JNull => limit
    | _ =>
        match toNumber limitParam with
        | Some parsedLimit => if 0 <? parsedLimit then parsedLimit else limit
        | None => limit
        end
    end in
  let page := DEFAULT_PAGE in
  let page :=
    match pageParam with
    | JUndefined | JNull => page
    | _ =>
        match toNumber pageParam with
        | Some parsedPage => if 0 <? parsedPage then parsedPage else page
        | None => page
        end
    end in
  let offset := (page - 1) * limit in
  {| offset := offset; limit := limit |}.

(** [SORT_DIRECTIONS.includes(directionStr)], with the member found. *)
Definition sortDirectionOf (directionStr : string) : option SortDirection :=
  List.find (fun d => String.eqb (directionName d) directionStr) SORT_DIRECTIONS.

(** The body of the loop of [parseSort], for one part of the string. *)
Definition parseSortStep (sortSpecs : list SortSpec) (part : string) : list SortSpec :=
  let trimmedPart := trim part in
  if String.eqb trimmedPart "" then sortSpecs
  else
    let colonIndex := lastIndexOf ":" trimmedPart in
    let '(f, direction) :=
      if colonIndex =? -1 then (trimmedPart, asc)
      else
        let f := trim (substring trimmedPart 0 colonIndex) in
        let directionStr :=
          toLowerCase (trim (substringFrom trimmedPart (colonIndex + 1))) in
        (f, default asc (sortDirectionOf directionStr)) in
    if (0 <? String.length f)%nat
    then push sortSpecs {| sort_field := f; direction := direction |}
    else sortSpecs.

Definition parseSort (sortParam : JsValue) : list SortSpec :=
  match sortParam with
  | JStr sortParam =>
      if negb (truthy sortParam) then []
      else
        let trimmed := trim sortParam in
        if String.eqb trimmed "" then []
        else
          let parts := split "," trimmed in
          fold_left parseSortStep parts []
  | _ => []
  end.

(** [isValidFilterOperator] and [isValidLogicalOperator], with the member
    found. *)
Definition isValidFilterOperator (op : string) : option FilterOperator :=
  List.find (fun o => String.eqb (operatorName o) op) FILTER_OPERATORS.

Definition isValidLogicalOperator (op : string) : option LogicalOperator :=
  List.find (fun o => String.eqb (logicalName o) op) LOGICAL_OPERATORS.

Definition parseFieldFilterFromObject (fieldName : string) (value : JsValue)
  (errors : list ParseError) (path : list string) : option FilterNode * list ParseError :=
  match value with
  | JNull | JUndefined => (None, errors)
  | JObj obj =>
      let operators := map fst obj in
      if (length operators =? 0)%nat then (None, errors)
      else if (1 <? length operators)%nat then
        let '(conditions, errors) :=
          fold_left (fun '(conditions, errors) op =>
            match isValidFilterOperator op with
            | Some o => (push conditions (FieldFilter fieldName o (lookupProp obj op)), errors)
            | None =>
                (conditions,
                 push errors
                   {| code := INVALID_OPERATOR;
                      field := join "." path;
                      message := "Invalid filter operator: " +:+ dquote +:+ op +:+ dquote;
                      path := path ++ [op] |})
            end) operators ([], errors) in
        match conditions with
        | [] => (None, errors)
        | [condition] => (Some condition, errors)
        | _ => (Some (LogicalFilter lop_and conditions), errors)
        end
      else
        let operator := hd "" operators in
        match (if truthy operator then isValidFilterOperator operator else None) with
        | None =>
            (None,
             if truthy operator then
               push errors
                 {| code := INVALID_OPERATOR;
                    field := join "." path;
                    message := "Invalid filter operator: " +:+ dquote +:+ operator +:+ dquote;
                    path := path ++ [operator] |}
             else errors)
        | Some o => (Some (FieldFilter fieldName o (lookupProp obj operator)), errors)
        end
  | _ => (Some (FieldFilter fieldName op_eq value), errors)
  end.

(** [keys.sort((a, b) => parseInt(a, 10) - parseInt(b, 10))] on keys made of
    digits: a stable sort by value. *)
Definition keyNumber (key : string) : Z := default 0 (parseInt key).

Fixpoint insertKey (key : string) (sorted : list string) : list string :=
  match sorted with
  | [] => [key]
  | k :: rest =>
      if keyNumber key <? keyNumber k then key :: sorted else k :: insertKey key rest
  end.

Definition sortKeys (keys : list string) : list string :=
  fold_left (fun sorted key => insertKey key sorted) keys [].

(** One turn of the loops of [parseFilter] and [parseLogicalFilter] over the
    keys of an object: the key is parsed by [parseOne] and the result, when
    it is not [null], is pushed to [conditions]. *)
Definition collectStep
  (parseOne : string -> list ParseError -> option (option FilterNode * list ParseError))
  (state : option (list FilterNode * list ParseError)) (key : string)
  : option (list FilterNode * list ParseError) :=
  match state with
  | None => None
  | Some (conditions, errors) =>
      match parseOne key errors with
      | Some (Some condition, errors) => Some (push conditions condition, errors)
      | Some (None, errors) => Some (conditions, errors)
      | None => None
      end
  end.

(** The whole loop, from an empty [conditions]. *)
Definition collect
  (parseOne : string -> list ParseError -> option (option FilterNode * list ParseError))
  (keys : list string) (errors : list ParseError)
  : option (list FilterNode * list ParseError) :=
  fold_left (collectStep parseOne) keys (Some ([], errors)).

(** [parseFilter] and [parseLogicalFilter] call each other, not always on a
    smaller value: [n] bounds the depth of the calls, and [None] is a call
    that needs more than [n].  [parseFilter] below supplies a bound that
    is always enough. *)
Fixpoint parseFilterN (n : nat) (filterObj : JsValue) (errors : list ParseError)
  (path : list string) {struct n} : option (option FilterNode * list ParseError) :=
  match n with
  | O => None
  | S n =>
      match filterObj with
      | JNull | JUndefined => Some (None, errors)
      | JBool _ | JNum _ | JStr _ =>
          Some (None,
                push errors
                  {| code := INVALID_VALUE;
                     field := join "." path;
                     message := "Filter must be an object";
                     path := path |})
      | JArr _ | JObj _ =>
          let obj := filterObj in
          let keys := objectKeys obj in
          if (length keys =? 0)%nat then Some (None, errors)
          else
            let firstKey := hd "" keys in
            match (if (length keys =? 1)%nat && truthy firstKey
                   then isValidLogicalOperator firstKey else None) with
            | Some operator =>
                parseLogicalFilterN n operator (getProp obj firstKey) errors (path ++ [firstKey])
            | None =>
                if (1 <? length keys)%nat then
                  match
                    collect (fun key errors =>
                      match isValidLogicalOperator key with
                      | Some operator =>
                          parseLogicalFilterN n operator (getProp obj key) errors (path ++ [key])
                      | None =>
                          Some (parseFieldFilterFromObject key (getProp obj key) errors
                                  (path ++ [key]))
                      end) keys errors
                  with
                  | None => None
                  | Some ([], errors) => Some (None, errors)
                  | Some ([condition], errors) => Some (Some condition, errors)
                  | Some (conditions, errors) =>
                      Some (Some (LogicalFilter lop_and conditions), errors)
                  end
                else
                  let fieldName := hd "" keys in
                  if negb (truthy fieldName) then Some (None, errors)
                  else
                    Some (parseFieldFilterFromObject fieldName (getProp obj fieldName) errors
                            (path ++ [fieldName]))
            end
      end
  end
with parseLogicalFilterN (n : nat) (operator : LogicalOperator) (value : JsValue)
  (errors : list ParseError) (path : list string) {struct n}
  : option (option FilterNode * list ParseError) :=
  match n with
  | O => None
  | S n =>
      let invalid (errors : list ParseError) :=
        Some (None,
              push errors
                {| code := INVALID_VALUE;
                   field := join "." path;
                   message := "Logical operator " +:+ dquote +:+ logicalName operator +:+ dquote +:+
                              " requires an array or object of conditions";
                   path := path |}) in
      match value with
      | JNull | JUndefined => Some (None, errors)
      | JArr _ =>
          match
            collect (fun i errors => parseFilterN n (getProp value i) errors (path ++ [i]))
              (objectKeys value) errors
          with
          | None => None
          | Some ([], errors) => Some (None, errors)
          | Some (conditions, errors) => Some (Some (LogicalFilter operator conditions), errors)
          end
      | JObj _ =>
          let obj := value in
          let keys := objectKeys obj in
          let isArrayLike := forallb allDigits keys in
          if isArrayLike && (0 <? length keys)%nat then
            let sortedKeys := sortKeys keys in
            match
              collect (fun key errors => parseFilterN n (getProp obj key) errors (path ++ [key]))
                sortedKeys errors
            with
            | None => None
            | Some ([], errors) => Some (None, errors)
            | Some (conditions, errors) =>
                Some (Some (LogicalFilter operator conditions), errors)
            end
          else
            match parseFilterN n value errors path with
            | None => None
            | Some (Some condition, errors) =>
                Some (Some (LogicalFilter operator [condition]), errors)
            | Some (None, errors) => invalid errors
            end
      | JBool _ | JNum _ | JStr _ => invalid errors
      end
  end.

(** The depth of a value, and a bound on the calls that is enough for it. *)
Fixpoint depth (v : JsValue) : nat :=
  match v with
  | JArr items => S (fold_right (fun x d => Nat.max (depth x) d) O items)
  | JObj props => S (fold_right (fun kx d => Nat.max (depth (snd kx)) d) O props)
  | _ => O
  end.

Definition enough (v : JsValue) : nat := S (2 * depth v).

Definition parseFilter (filterObj : JsValue) (errors : list ParseError) (path : list string)
  : option FilterNode * list ParseError :=
  default (None, errors) (parseFilterN (enough filterObj) filterObj errors path).

(** [QueryInput]: an absent member is [undefined]. *)
Record QueryInput : Type := mkQueryInput {
  in_fields : JsValue;
  in_page : JsValue;
  in_limit : JsValue;
  in_sort : JsValue;
  in_filter : JsValue
}.

Definition isUndefined (v : JsValue) : bool :=
  match v with JUndefined => true | _ => false end.

Definition parse (input : QueryInput) : ParserResult :=
  let errors := [] in
  let warnings := [] in
  let fields := parseFields (in_fields input) in
  let pagination := parsePagination (in_page input) (in_limit input) in
  let warnings :=
    if isUndefined (in_page input) && isUndefined (in_limit input) then warnings
    else if isUndefined (in_page input) then
      push warnings
        {| w_code := DEFAULT_APPLIED;
           w_field := "page";
           w_message := "Page parameter not provided, defaulting to page 1";
           suggestion := Some "Provide a page parameter for explicit pagination" |}
    else warnings in
  let sort := parseSort (in_sort input) in
  let '(filter, errors) := parseFilter (in_filter input) errors ["filter"] in
  let hasCriticalErrors :=
    existsb (fun e => bool_decide (code e = INVALID_VALUE)
                      || bool_decide (code e = SECURITY_VIOLATION)
                      || bool_decide (code e = EXCEEDED_LIMIT)) errors in
  if hasCriticalErrors then {| ast := None; errors := errors; warnings := warnings |}
  else
    {| ast := Some {| fields := fields; pagination := pagination; sort := sort;
                      filter := filter |};
       errors := errors;
       warnings := warnings |}.

(** *** Query strings and URLs

    [qs.parse] belongs to the qs library, which is not part of the
    repository: the two functions below take it as a parameter. *)

Section QueryString.
Variable qsParse : string -> JsValue.

Definition parseQueryString (queryString : string) : ParserResult :=
  let cleanQuery := if startsWith queryString "?" then slice queryString 1 else queryString in
  let parsed := qsParse cleanQuery in
  let input :=
    {| in_fields := match getProp parsed "fields" with JStr x => JStr x | _ => JUndefined end;
       in_page := match getProp parsed "page" with JStr x => JStr x | _ => JUndefined end;
       in_limit := match getProp parsed "limit" with JStr x => JStr x | _ => JUndefined end;
       in_sort := match getProp parsed "sort" with JStr x => JStr x | _ => JUndefined end;
       in_filter := getProp parsed "filter" |} in
  parse input.

Definition parseFromUrl (url : string) : ParserResult :=
  let queryStart := indexOf "?" url in
  if queryStart =? -1 then
    parse {| in_fields := JUndefined; in_page := JUndefined; in_limit := JUndefined;
             in_sort := JUndefined; in_filter := JUndefined |}
  else
    let queryString := slice url (queryStart + 1) in
    parseQueryString queryString.

End QueryString.

(** *** Notions used to state the properties of the parser *)

(** The invariants of the data model on a filter tree: a [FieldFilter] has
    a non-empty [field] and an [operator] of [FILTER_OPERATORS] (its
    [value] is always present in the embedding), a [LogicalFilter] has
    conditions, and each of them satisfies the invariants. *)
Fixpoint wellFormed (node : FilterNode) : bool :=
  match node with
  | FieldFilter f operator _ => truthy f && includes FILTER_OPERATORS operator
  | LogicalFilter _ conditions => (0 <? length conditions)%nat && forallb wellFormed conditions
  end.

(** The same invariants but for the one on field names. *)
Fixpoint wellShaped (node : FilterNode) : bool :=
  match node with
  | FieldFilter _ operator _ => includes FILTER_OPERATORS operator
  | LogicalFilter _ conditions => (0 <? length conditions)%nat && forallb wellShaped conditions
  end.

(** No object of the value has the empty string among its keys. *)
Fixpoint noEmptyKey (v : JsValue) : bool :=
  match v with
  | JArr items => forallb noEmptyKey items
  | JObj props => forallb (fun kx => truthy (fst kx) && noEmptyKey (snd kx)) props
  | _ => true
  end.

(** What holds of a node parsed from the value [v], or for the field [f]:
    it is well shaped, and well formed when the names it was given are not
    empty. *)
Definition built (v : JsValue) (node : FilterNode) : Prop :=
  wellShaped node = true /\ (noEmptyKey v = true -> wellFormed node = true).

Definition builtNamed (f : string) (node : FilterNode) : Prop :=
  wellShaped node = true /\ (truthy f = true -> wellFormed node = true).


(** The errors [errors'] are [errors] followed by errors that satisfy [P]:
    the shared array is only pushed to. *)
Definition pushedTo (P : ParseError -> Prop) (errors errors' : list ParseError) : Prop :=
  exists new, errors' = errors ++ new /\ Forall P new.

(** The two codes that the parser uses. *)
Definition parserCode (e : ParseError) : Prop :=
  code e = INVALID_VALUE \/ code e = INVALID_OPERATOR.

(** The error of an operator key that is not a [FilterOperator]. *)
Definition invalidOperatorError (path : list string) (op : string) : ParseError :=
  {| code := INVALID_OPERATOR;
     field := join "." path;
     message := "Invalid filter operator: " +:+ dquote +:+ op +:+ dquote;
     path := path ++ [op] |}.

(** A value that is neither [null], [undefined] nor an object with keys
    of its own choice: a boolean, a number, a string or an array. *)
Definition isPlainValue (v : JsValue) : bool :=
  match v with
  | JBool _ | JNum _ | JStr _ | JArr _ => true
  | _ => false
  end.


End Parser.

(** ** ast/printer.ts *)

Module Printer.
Import Js Ast.

Definition printFields (fields : option (list string)) : option string :=
  match fields with
  | None => None
  | Some fields => if (length fields =? 0)%nat then None else Some (join "," fields)
  end.


(** The template [`${s.field}:${s.direction}`]. *)
Definition sortText (s : SortSpec) : string :=
  sort_field s +:+ ":" +:+ directionName (direction s).

Definition printSort (sort : list SortSpec) : option string :=
  if (length sort =? 0)%nat then None
  else Some (join "," (map sortText sort)).






End Printer.

(** ** Notions used to state the round trip of the printer and the parser *)

Module RoundTrip.
Import Js Ast Parser Printer.




Definition commaFree (s : string) : bool :=
  forallb (fun c => negb (Ascii.eqb c ",")) (list_ascii_of_string s).

(** A name that survives [join], [split] and [trim]: not empty, without a
    comma, without whitespace at either end. *)
Definition plainName (s : string) : bool :=
  truthy s && String.eqb (trimStart s) s && String.eqb (trimEnd s) s && commaFree s.




End RoundTrip.

(** ** ast/factory.ts

    The factory functions throw an [Error] on an invalid argument:
    [Throw message] is the exception, [Ok] the value returned.  The checks
    on the JavaScript type of an argument ([typeof], [Array.isArray],
    ["value" in node]) hold of every value of the types of the embedding;
    the checks on contents are all there, in the order of the source. *)

Module Factory.
Import Js Ast.

Inductive Result (A : Type) : Type :=
| Ok (a : A)
| Throw (message : string).
Arguments Ok {A} a.
Arguments Throw {A} message.

(** The statements of a function run in sequence, up to the first
    exception: [r ;; k] runs [k] after [r]. *)
#[global] Instance Result_bind : MBind Result :=
  fun A B (k : A -> Result B) (r : Result A) =>
    match r with
    | Ok a => k a
    | Throw message => Throw message
    end.

(** [if (b) throw new Error(message)]. *)
Definition throwIf (b : bool) (message : string) : Result unit :=
  if b then Throw message else Ok tt.

(** [for (const x of l) f(x)], left at the first exception. *)
Fixpoint forEach {A} (f : A -> Result unit) (l : list A) : Result unit :=
  match l with
  | [] => Ok tt
  | x :: rest => f x ;; forEach f rest
  end.



Definition DEFAULT_PAGINATION : Pagination := {| offset := 0; limit := 10 |}.


Fixpoint validateFilterNode (node : FilterNode) : Result unit :=
  match node with
  | FieldFilter f operator _ =>
      throwIf (String.length f =? 0)%nat "FieldFilter.field must be a non-empty string" ;;
      throwIf (negb (includes FILTER_OPERATORS operator))
        ("FieldFilter.operator must be one of: " +:+
         join ", " (map operatorName FILTER_OPERATORS))
  | LogicalFilter operator conditions =>
      throwIf (negb (includes LOGICAL_OPERATORS operator))
        ("LogicalFilter.operator must be one of: " +:+
         join ", " (map logicalName LOGICAL_OPERATORS)) ;;
      throwIf (length conditions =? 0)%nat
        "LogicalFilter.conditions must have at least one element" ;;
      forEach validateFilterNode conditions
  end.


(** [createSortSpec(field, direction = "asc")]. *)
Definition createSortSpec (f : string) (direction : option SortDirection) : Result SortSpec :=
  let direction := default asc direction in
  throwIf (String.length f =? 0)%nat "field must be a non-empty string" ;;
  throwIf (negb (includes SORT_DIRECTIONS direction))
    ("direction must be one of: " +:+ join ", " (map directionName SORT_DIRECTIONS)) ;;
  Ok {| sort_field := f; direction := direction |}.

Definition createFieldFilter (f : string) (operator : FilterOperator) (value : JsValue)
  : Result FilterNode :=
  throwIf (String.length f =? 0)%nat "field must be a non-empty string" ;;
  throwIf (negb (includes FILTER_OPERATORS operator))
    ("operator must be one of: " +:+ join ", " (map operatorName FILTER_OPERATORS)) ;;
  Ok (FieldFilter f operator value).

Definition createLogicalFilter (operator : LogicalOperator) (conditions : list FilterNode)
  : Result FilterNode :=
  throwIf (negb (includes LOGICAL_OPERATORS operator))
    ("operator must be one of: " +:+ join ", " (map logicalName LOGICAL_OPERATORS)) ;;
  throwIf (length conditions =? 0)%nat "conditions must have at least one element" ;;
  forEach validateFilterNode conditions ;;
  Ok (LogicalFilter operator conditions).

(** *** Notions used to state the properties of the factory *)



End Factory.

(** ** builder/index.ts *)

Module Builder.
Import Js Ast SecurityTypes.

(** [QueryBuilderError = ParseError | SecurityError | CompileError], and
    the warnings likewise. *)
Inductive QueryBuilderError : Type :=
| OfParser (e : Parser.ParseError)
| OfValidator (e : Validator.SecurityError)
| OfCompiler (e : CompilerTypes.CompileError).

Inductive QueryBuilderWarning : Type :=
| WarningOfParser (w : Parser.ParseWarning)
| WarningOfValidator (w : Validator.SecurityWarning)
| WarningOfCompiler (w : CompilerTypes.CompileWarning).

Record QueryBuilderParseResult : Type := mkQueryBuilderParseResult {
  p_ast : option QueryAST;
  p_errors : list QueryBuilderError;
  p_warnings : list QueryBuilderWarning
}.

Record QueryBuilderCompileResult (TQuery : Type) : Type := mkQueryBuilderCompileResult {
  c_query : option TQuery;
  c_errors : list CompilerTypes.CompileError;
  c_warnings : list CompilerTypes.CompileWarning
}.
Arguments c_query {TQuery}.
Arguments c_errors {TQuery}.
Arguments c_warnings {TQuery}.

Record QueryBuilderExecuteResult (TQuery : Type) : Type := mkQueryBuilderExecuteResult {
  query : option TQuery;
  ast : option QueryAST;
  errors : list QueryBuilderError;
  warnings : list QueryBuilderWarning
}.
Arguments query {TQuery}.
Arguments ast {TQuery}.
Arguments errors {TQuery}.
Arguments warnings {TQuery}.

(** [interface QueryBuilder<TTable, TQuery>]. *)
Record QueryBuilder (TTable TQuery : Type) : Type := mkQueryBuilder {
  parse : Parser.QueryInput -> QueryBuilderParseResult;
  parseFromUrl : string -> QueryBuilderParseResult;
  compile : QueryAST -> TTable -> QueryBuilderCompileResult TQuery;
  execute : Parser.QueryInput -> TTable -> QueryBuilderExecuteResult TQuery;
  executeFromUrl : string -> TTable -> QueryBuilderExecuteResult TQuery;
  getSecurityConfig : SecurityConfig
}.
Arguments parse {TTable TQuery}.
Arguments parseFromUrl {TTable TQuery}.
Arguments compile {TTable TQuery}.
Arguments execute {TTable TQuery}.
Arguments executeFromUrl {TTable TQuery}.
Arguments getSecurityConfig {TTable TQuery}.

Record CreateQueryBuilderOptions (TTable TQuery : Type) : Type := mkCreateQueryBuilderOptions {
  config : option SecurityConfig;
  compiler : CompilerTypes.QueryCompiler TTable TQuery
}.
Arguments config {TTable TQuery}.
Arguments compiler {TTable TQuery}.

(** A [ResolvedSecurityConfig] where a [SecurityConfig] is expected: the
    same object, every member of which is present. *)
Definition asSecurityConfig (resolved : ResolvedSecurityConfig) : SecurityConfig :=
  {| cfg_allowedFields := Some (allowedFields resolved);
     cfg_allowedRelations := Some (allowedRelations resolved);
     cfg_maxLimit := Some (maxLimit resolved);
     cfg_operators := Some (operators resolved);
     cfg_defaultLimit := Some (defaultLimit resolved);
     cfg_defaultPage := Some (defaultPage resolved) |}.

Section CreateQueryBuilder.
Context {TTable TQuery : Type}.
Variable qsParse : string -> JsValue.

(** The inner [parseInternal] of [createQueryBuilder]. *)
Definition parseInternal (resolvedConfig : ResolvedSecurityConfig)
  (parserResult : Parser.ParserResult) : QueryBuilderParseResult :=
  let errors := [] in
  let warnings := [] in
  let errors := errors ++ map OfParser (Parser.errors parserResult) in
  let warnings := warnings ++ map WarningOfParser (Parser.warnings parserResult) in
  match Parser.ast parserResult with
  | None => {| p_ast := None; p_errors := errors; p_warnings := warnings |}
  | Some parsed =>
      let securityResult :=
        Validator.validateSecurity (Some parsed) (Some (asSecurityConfig resolvedConfig)) in
      let errors := errors ++ map OfValidator (Validator.errors securityResult) in
      let warnings := warnings ++ map WarningOfValidator (Validator.warnings securityResult) in
      if negb (Validator.valid securityResult) then
        {| p_ast := None; p_errors := errors; p_warnings := warnings |}
      else
        {| p_ast := Validator.ast securityResult; p_errors := errors; p_warnings := warnings |}
  end.

Definition createQueryBuilder (options : CreateQueryBuilderOptions TTable TQuery)
  : QueryBuilder TTable TQuery :=
  let resolvedConfig := resolveSecurityConfig (config options) in
  let compiler := compiler options in
  let parse := fun input => parseInternal resolvedConfig (Parser.parse input) in
  let parseFromUrl := fun url => parseInternal resolvedConfig (Parser.parseFromUrl qsParse url) in
  let compile := fun ast table =>
    let compileResult := CompilerTypes.compile (QueryCompiler := compiler) ast table in
    {| c_query := CompilerTypes.query compileResult;
       c_errors := CompilerTypes.errors compileResult;
       c_warnings := CompilerTypes.warnings compileResult |} in
  let run := fun (parseResult : QueryBuilderParseResult) (table : TTable) =>
    let errors := [] in
    let warnings := [] in
    let errors := errors ++ p_errors parseResult in
    let warnings := warnings ++ p_warnings parseResult in
    match p_ast parseResult with
    | None => {| query := None; ast := None; errors := errors; warnings := warnings |}
    | Some parsed =>
        let compileResult := compile parsed table in
        let errors := errors ++ map OfCompiler (c_errors compileResult) in
        let warnings := warnings ++ map WarningOfCompiler (c_warnings compileResult) in
        {| query := c_query compileResult;
           ast := Some parsed;
           errors := errors;
           warnings := warnings |}
    end in
  {| parse := parse;
     parseFromUrl := parseFromUrl;
     compile := compile;
     execute := fun input table => run (parse input) table;
     executeFromUrl := fun url table => run (parseFromUrl url) table;
     getSecurityConfig := asSecurityConfig resolvedConfig |}.

End CreateQueryBuilder.

End Builder.

(** * Part II: theorems *)

(** ** Lists filled by [push] *)

Section PushLoops.
Context {A B : Type}.

Lemma fold_left_push_filter (p : A -> bool) (g : A -> B) (l : list A) (init : list B) :
  fold_left (fun acc x => if p x then Js.push acc (g x) else acc) l init
  = init ++ map g (List.filter p l).
Proof.
  revert init. induction l as [|x l IH]; intros init; simpl.
  - by rewrite app_nil_r.
  - rewrite IH. destruct (p x); simpl; [|done].
    unfold Js.push. by rewrite <- app_assoc.
Qed.

End PushLoops.

Lemma includes_true {A} `{EqDecision A} (l : list A) (x : A) :
  Js.includes l x = true <-> x ∈ l.
Proof. unfold Js.includes. by rewrite bool_decide_eq_true. Qed.

Lemma includes_false {A} `{EqDecision A} (l : list A) (x : A) :
  Js.includes l x = false <-> x ∉ l.
Proof. unfold Js.includes. by rewrite bool_decide_eq_false. Qed.

(** ** An induction principle for filter trees *)

Section FilterNodeInd.
Import Ast.
Variable P : FilterNode -> Prop.
Hypothesis Hfield : forall f op v, P (FieldFilter f op v).
Hypothesis Hlogical : forall lop conditions,
  Forall P conditions -> P (LogicalFilter lop conditions).

Lemma FilterNode_ind' (node : FilterNode) : P node.
Proof.
  revert node. fix IH 1. intros [f op v|lop conditions].
  - apply Hfield.
  - apply Hlogical. induction conditions as [|c cs IHcs].
    + constructor.
    + constructor; [apply IH|apply IHcs].
Qed.

End FilterNodeInd.

(** ** security/validator.ts *)

Section ValidatorFacts.
Import Js Ast SecurityTypes Validator.

Lemma length_eqb_0 {A} (l : list A) : (length l =? 0)%nat = true <-> l = [].
Proof. destruct l; simpl; split; intros; congruence. Qed.

Lemma validateFields_spec (fs : list string) (allowed : list string) :
  allowed <> [] ->
  validateFields (Some fs) allowed
  = map (fun f =>
           {| code := FIELD_NOT_ALLOWED;
              field := f;
              message := "Field " +:+ dquote +:+ f +:+ dquote +:+
                         " is not allowed. Allowed fields: " +:+ join ", " allowed;
              path := ["fields"; f] |})
        (List.filter (fun f => negb (includes allowed f)) fs).
Proof.
  intros Hne. unfold validateFields.
  destruct allowed as [|a allowed]; [done|].
  destruct fs as [|f fs]; [done|].
  cbn [length Nat.eqb orb].
  by rewrite (fold_left_push_filter (fun f => negb (includes (a :: allowed) f))).
Qed.

Lemma validateSortFields_spec (sort : list SortSpec) (allowed : list string) :
  allowed <> [] ->
  validateSortFields sort allowed
  = map (fun spec =>
           {| code := FIELD_NOT_ALLOWED;
              field := sort_field spec;
              message := "Sort field " +:+ dquote +:+ sort_field spec +:+ dquote +:+
                         " is not allowed. Allowed fields: " +:+ join ", " allowed;
              path := ["sort"; sort_field spec] |})
        (List.filter (fun spec => negb (includes allowed (sort_field spec))) sort).
Proof.
  intros Hne. unfold validateSortFields.
  destruct allowed as [|a allowed]; [done|].
  destruct sort as [|s sort]; [done|].
  cbn [length Nat.eqb orb].
  by rewrite (fold_left_push_filter (fun spec => negb (includes (a :: allowed) (sort_field spec)))).
Qed.

Lemma validateFilterFields_spec (filter : option FilterNode) (allowed path : list string) :
  allowed <> [] ->
  validateFilterFields filter allowed path
  = map (fun f =>
           {| code := FIELD_NOT_ALLOWED;
              field := f;
              message := "Filter field " +:+ dquote +:+ f +:+ dquote +:+
                         " is not allowed. Allowed fields: " +:+ join ", " allowed;
              path := path ++ [f] |})
        (List.filter (fun f => negb (includes allowed f)) (extractFilterFields filter)).
Proof.
  intros Hne. unfold validateFilterFields.
  destruct allowed as [|a allowed]; [done|].
  destruct filter as [node|]; [|done].
  rewrite bool_decide_eq_true_2 by eauto.
  cbn [length Nat.eqb orb negb].
  by rewrite (fold_left_push_filter (fun f => negb (includes (a :: allowed) f))).
Qed.

(** [traverse] adds the fields of the nodes one by one. *)
Lemma traverse_fold (node : FilterNode) (acc : list string) :
  traverse node acc = fold_left setAdd (filterFieldOccurrences node) acc.
Proof.
  revert acc. induction node as [f op v|lop conditions IH] using FilterNode_ind'; intros acc.
  - done.
  - simpl. revert acc. induction IH as [|c cs Hc _ IHcs]; intros acc; simpl.
    + done.
    + rewrite fold_left_app, <- Hc. apply IHcs.
Qed.

Lemma setAdd_fold_elem (l acc : list string) (x : string) :
  x ∈ fold_left setAdd l acc <-> x ∈ acc \/ x ∈ l.
Proof.
  revert acc. induction l as [|y l IH]; intros acc; simpl.
  - rewrite elem_of_nil. tauto.
  - rewrite IH, elem_of_cons. unfold setAdd, push.
    destruct (includes acc y) eqn:E.
    + apply includes_true in E. split; [tauto|]. intros [?|[->|?]]; auto.
    + rewrite elem_of_app, list_elem_of_singleton. tauto.
Qed.

Lemma setAdd_fold_NoDup (l acc : list string) :
  NoDup acc -> NoDup (fold_left setAdd l acc).
Proof.
  revert acc. induction l as [|y l IH]; intros acc Hacc; simpl; [done|].
  apply IH. unfold setAdd, push. destruct (includes acc y) eqn:E; [done|].
  apply includes_false in E. apply NoDup_app. split_and!; [done| |apply NoDup_singleton].
  intros x Hx ->%list_elem_of_singleton. done.
Qed.

Lemma extractFilterFields_elem (filter : option FilterNode) (x : string) :
  x ∈ extractFilterFields filter <-> x ∈ filterFieldsOf filter.
Proof.
  destruct filter as [node|]; simpl; [|done].
  rewrite traverse_fold, setAdd_fold_elem, elem_of_nil. tauto.
Qed.

Lemma extractFilterFields_NoDup (filter : option FilterNode) :
  NoDup (extractFilterFields filter).
Proof.
  destruct filter as [node|]; simpl; [|constructor].
  rewrite traverse_fold. apply setAdd_fold_NoDup. constructor.
Qed.

Lemma occurrences_NoDup (f : string) (l : list string) :
  NoDup l -> occurrences f l = if bool_decide (f ∈ l) then 1%nat else 0%nat.
Proof.
  unfold occurrences. induction 1 as [|x l Hx Hl IH]; simpl; [done|].
  destruct (String.eqb_spec f x) as [->|Hne]; simpl.
  - rewrite IH. rewrite (bool_decide_eq_false_2 (x ∈ l)) by done.
    rewrite bool_decide_eq_true_2; [done|]. left.
  - rewrite IH. apply (f_equal (fun b : bool => if b then 1%nat else 0%nat)).
    apply bool_decide_ext. rewrite elem_of_cons. intuition congruence.
Qed.

Lemma occurrences_filter_keep (f : string) (p : string -> bool) (l : list string) :
  p f = true -> occurrences f (List.filter p l) = occurrences f l.
Proof.
  intros Hp. unfold occurrences. induction l as [|x l IH]; simpl; [done|].
  destruct (String.eqb_spec f x) as [->|Hne].
  - rewrite Hp. simpl. rewrite String.eqb_refl. simpl. by rewrite IH.
  - destruct (p x); simpl; [|done].
    destruct (String.eqb_spec f x); [done|]. done.
Qed.

Lemma occurrences_filter_drop (f : string) (p : string -> bool) (l : list string) :
  p f = false -> occurrences f (List.filter p l) = 0%nat.
Proof.
  intros Hp. unfold occurrences. induction l as [|x l IH]; simpl; [done|].
  destruct (p x) eqn:Hx; simpl; [|done].
  destruct (String.eqb_spec f x) as [->|Hne]; [congruence|done].
Qed.

Lemma fieldNotAllowedCount_app (f : string) (e1 e2 : list SecurityError) :
  fieldNotAllowedCount f (e1 ++ e2)
  = (fieldNotAllowedCount f e1 + fieldNotAllowedCount f e2)%nat.
Proof. unfold fieldNotAllowedCount. by rewrite List.filter_app, length_app. Qed.

Lemma fieldNotAllowedCount_map {X} (f : string) (name : X -> string)
    (mk : X -> SecurityError) (l : list X) :
  (forall x, code (mk x) = FIELD_NOT_ALLOWED) ->
  (forall x, field (mk x) = name x) ->
  fieldNotAllowedCount f (map mk l) = occurrences f (map name l).
Proof.
  intros Hc Hf. unfold fieldNotAllowedCount, occurrences.
  induction l as [|x l IH]; simpl; [done|].
  rewrite Hc, Hf. rewrite bool_decide_eq_true_2 by done. simpl.
  destruct (f =? name x)%string; simpl; by rewrite IH.
Qed.

Lemma validateOperatorsNode_codes (node : FilterNode) (ops : list FilterOperator)
    (path : list string) :
  Forall (fun e => code e = OPERATOR_NOT_ALLOWED) (validateOperatorsNode node ops path).
Proof.
  revert path. induction node as [f op v|lop conditions IH] using FilterNode_ind';
    intros path; simpl.
  - destruct (negb _); repeat constructor.
  - cut (forall i acc, Forall (fun e => code e = OPERATOR_NOT_ALLOWED) acc ->
           Forall (fun e => code e = OPERATOR_NOT_ALLOWED)
             ((fix loop (conditions : list FilterNode) (i : nat) (errors : list SecurityError)
                 : list SecurityError :=
                 match conditions with
                 | [] => errors
                 | condition :: rest =>
                     loop rest (S i)
                       (errors ++ validateOperatorsNode condition ops
                                    (path ++ [logicalName lop; pretty i]))
                 end) conditions i acc)).
    { intros H. apply H. constructor. }
    induction IH as [|c cs Hc _ IHcs]; intros i acc Hacc; [done|].
    apply IHcs. apply Forall_app. split; [done|apply Hc].
Qed.

Lemma fieldNotAllowedCount_other (f : string) (errs : list SecurityError) :
  Forall (fun e => code e = OPERATOR_NOT_ALLOWED) errs ->
  fieldNotAllowedCount f errs = 0%nat.
Proof.
  unfold fieldNotAllowedCount. induction 1 as [|e errs He _ IH]; simpl; [done|].
  rewrite He. rewrite bool_decide_eq_false_2 by done. done.
Qed.

Lemma validateSecurity_errors (ast : QueryAST) (config : option SecurityConfig) :
  errors (validateSecurity (Some ast) config)
  = validateFields (fields ast) (allowedFields (resolveSecurityConfig config))
    ++ validateFilterFields (filter ast) (allowedFields (resolveSecurityConfig config)) ["filter"]
    ++ validateSortFields (sort ast) (allowedFields (resolveSecurityConfig config))
    ++ validateOperators (filter ast) (operators (resolveSecurityConfig config)) ["filter"].
Proof.
  unfold validateSecurity. destruct (validateLimit _ _) as [capped w]. simpl.
  by rewrite <- !app_assoc.
Qed.

Lemma validateFields_count (fs : option (list string)) (allowed : list string) (f : string) :
  allowed <> [] ->
  fieldNotAllowedCount f (validateFields fs allowed)
  = if includes allowed f then 0%nat else occurrences f (default [] fs).
Proof.
  intros Hne. destruct fs as [fs|]; cbn [default].
  - rewrite validateFields_spec by done.
    rewrite (fieldNotAllowedCount_map f (fun x => x)) by done. rewrite map_id.
    destruct (includes allowed f) eqn:E.
    + apply occurrences_filter_drop. by rewrite E.
    + apply occurrences_filter_keep. by rewrite E.
  - by destruct (includes allowed f).
Qed.

Lemma validateSortFields_count (sort : list SortSpec) (allowed : list string) (f : string) :
  allowed <> [] ->
  fieldNotAllowedCount f (validateSortFields sort allowed)
  = if includes allowed f then 0%nat else occurrences f (map sort_field sort).
Proof.
  intros Hne. rewrite validateSortFields_spec by done.
  rewrite (fieldNotAllowedCount_map f sort_field) by done.
  replace (map sort_field (List.filter (fun spec => negb (includes allowed (sort_field spec))) sort))
    with (List.filter (fun x => negb (includes allowed x)) (map sort_field sort)).
  - destruct (includes allowed f) eqn:E.
    + apply occurrences_filter_drop. by rewrite E.
    + apply occurrences_filter_keep. by rewrite E.
  - induction sort as [|s sort IH]; simpl; [done|].
    destruct (negb _); simpl; by rewrite IH.
Qed.

Lemma validateFilterFields_count (filter : option FilterNode) (allowed path : list string)
    (f : string) :
  allowed <> [] ->
  fieldNotAllowedCount f (validateFilterFields filter allowed path)
  = if includes allowed f then 0%nat
    else if bool_decide (f ∈ filterFieldsOf filter) then 1%nat else 0%nat.
Proof.
  intros Hne. rewrite validateFilterFields_spec by done.
  rewrite (fieldNotAllowedCount_map f (fun x => x)) by done. rewrite map_id.
  destruct (includes allowed f) eqn:E.
  - apply occurrences_filter_drop. by rewrite E.
  - rewrite occurrences_filter_keep by (by rewrite E).
    rewrite occurrences_NoDup by apply extractFilterFields_NoDup.
    apply (f_equal (fun b : bool => if b then 1%nat else 0%nat)).
    apply bool_decide_ext, extractFilterFields_elem.
Qed.

(** C1, as amended.  With a non-empty [allowedFields], the number of
    [FIELD_NOT_ALLOWED] errors that [validateSecurity] tags with a field
    [f] outside [allowedFields] is the number of occurrences of [f] in the
    selected fields, plus one if some node of the filter tree names [f]
    (the filter fields are collected into a set first), plus the number of
    sort entries on [f]; the three surfaces add up, none cuts another
    short; and a field inside [allowedFields] gets no such error. *)
Theorem validateSecurity_field_errors (ast : QueryAST) (config : option SecurityConfig)
    (f : string) :
  allowedFields (resolveSecurityConfig config) <> [] ->
  fieldNotAllowedCount f (errors (validateSecurity (Some ast) config))
  = if bool_decide (f ∈ allowedFields (resolveSecurityConfig config)) then 0%nat
    else (occurrences f (default [] (fields ast))
          + (if bool_decide (f ∈ filterFieldsOf (filter ast)) then 1 else 0)
          + occurrences f (map sort_field (sort ast)))%nat.
Proof.
  intros Hne. rewrite validateSecurity_errors, !fieldNotAllowedCount_app.
  rewrite validateFields_count, validateFilterFields_count, validateSortFields_count by done.
  rewrite (fieldNotAllowedCount_other f (validateOperators _ _ _)).
  - unfold includes. destruct (bool_decide (f ∈ _)); lia.
  - destruct (filter ast) as [node|]; simpl; [apply validateOperatorsNode_codes|constructor].
Qed.

(** A witness of [validateSecurity_field_errors]: [allowedFields = ["id"]]
    and a request that selects [name] twice and sorts on it. *)
Lemma validateSecurity_field_errors_witness :
  fieldNotAllowedCount "name"
    (errors (validateSecurity
       (Some {| fields := Some ["id"; "name"; "name"];
                pagination := {| offset := 0; limit := 10 |};
                sort := [ {| sort_field := "name"; direction := asc |} ];
                filter := Some (FieldFilter "name" op_eq (JStr "x")) |})
       (Some {| cfg_allowedFields := Some ["id"]; cfg_allowedRelations := None;
                cfg_maxLimit := None; cfg_operators := None;
                cfg_defaultLimit := None; cfg_defaultPage := None |})))
  = 4%nat.
Proof.
  rewrite validateSecurity_field_errors; [reflexivity|].
  simpl. discriminate.
Defined.

(** C1, as stated, fails: the filter [price > 1 and price < 5] names the
    disallowed field [price] in two nodes, and [validateSecurity] reports
    it once. *)
Lemma validateSecurity_filter_field_reported_once :
  ~ oneErrorPerOccurrence
      {| fields := None;
         pagination := {| offset := 0; limit := 10 |};
         sort := [];
         filter := Some (LogicalFilter lop_and
                     [FieldFilter "price" op_gt (JNum 1); FieldFilter "price" op_lt (JNum 5)]) |}
      (Some {| cfg_allowedFields := Some ["id"]; cfg_allowedRelations := None;
               cfg_maxLimit := None; cfg_operators := None;
               cfg_defaultLimit := None; cfg_defaultPage := None |})
      "price".
Proof. unfold oneErrorPerOccurrence. vm_compute. discriminate. Qed.

Lemma validateLimit_limit (limit maxLimit : Z) :
  fst (validateLimit limit maxLimit) = Z.min limit maxLimit.
Proof. unfold validateLimit. destruct (Z.leb_spec limit maxLimit); simpl; lia. Qed.



(** C9.  For an AST that is not [null], [validateSecurity] returns, whether
    or not it reports errors, a new AST with the [fields], [sort], [filter]
    and [pagination.offset] of its input and [pagination.limit] capped to
    [maxLimit]; its errors do not depend on the limit, and its warnings
    are the [LIMIT_CAPPED] warning of [validateLimit], if any.  The
    input is a value of the embedding: nothing writes to it. *)
Theorem validateSecurity_frame (ast : QueryAST) (config : option SecurityConfig) :
  Validator.ast (validateSecurity (Some ast) config)
  = Some {| fields := fields ast;
            pagination :=
              {| offset := offset (pagination ast);
                 limit := Z.min (limit (pagination ast))
                            (maxLimit (resolveSecurityConfig config)) |};
            sort := sort ast;
            filter := filter ast |}
  /\ (forall l, errors (validateSecurity (Some (withLimit ast l)) config)
               = errors (validateSecurity (Some ast) config))
  /\ warnings (validateSecurity (Some ast) config)
     = option_list (snd (validateLimit (limit (pagination ast))
                           (maxLimit (resolveSecurityConfig config))))
  /\ valid (validateSecurity (Some ast) config)
     = bool_decide (errors (validateSecurity (Some ast) config) = []).
Proof.
  split_and!.
  - unfold validateSecurity.
    pose proof (validateLimit_limit (limit (pagination ast))
                  (maxLimit (resolveSecurityConfig config))) as Hmin.
    destruct (validateLimit _ _) as [capped w]. simpl in *. by rewrite Hmin.
  - intros l. by rewrite !validateSecurity_errors.
  - unfold validateSecurity. destruct (validateLimit _ _) as [capped [w|]]; done.
  - unfold validateSecurity. destruct (validateLimit _ _) as [capped w]. simpl.
    match goal with |- (length ?l =? 0)%nat = _ => by destruct l end.
Qed.

(** C10.  A [null] AST is trivially valid: for every configuration the
    result is [{ valid: true, errors: [], warnings: [], ast: null }]. *)
Theorem validateSecurity_null (config : option SecurityConfig) :
  validateSecurity None config
  = {| valid := true; errors := []; warnings := []; Validator.ast := None |}.
Proof. reflexivity. Qed.

End ValidatorFacts.

(** ** compiler/drizzle-pg.ts *)

Section CompilerFacts.
Import Js Ast CompilerTypes Compiler.
Context {PgColumn SQL : Type} {drizzle : Drizzle.Builders PgColumn SQL}.
Implicit Types (table : @PgTable PgColumn) (errors : list CompileError).

Lemma getColumn_known table (f : string) :
  known table f = true -> exists column, getColumn (getTableColumns table) f = Some column.
Proof.
  unfold known, getTableColumns, keys. rewrite includes_true.
  induction table as [|[k c] table IH]; simpl.
  - by intros ?%elem_of_nil.
  - intros [->|Hin]%elem_of_cons.
    + rewrite String.eqb_refl. eauto.
    + destruct (k =? f)%string; eauto.
Qed.

Lemma getColumn_unknown table (f : string) :
  known table f = false -> getColumn (getTableColumns table) f = None.
Proof.
  unfold known, getTableColumns, keys. rewrite includes_false.
  induction table as [|[k c] table IH]; simpl; [done|].
  intros Hnot. apply not_elem_of_cons in Hnot as [Hne Hnot].
  destruct (String.eqb_spec k f); [congruence|auto].
Qed.

Lemma compileOperator_errors (column : PgColumn) op v f errors :
  compileOperator column op v f errors
  = (fst (compileOperator column op v f []), errors ++ snd (compileOperator column op v f [])).
Proof.
  destruct op; simpl; rewrite ?app_nil_r; try done.
  destruct v as [| | | | |[|lo [|hi [|]]]|]; simpl; by rewrite ?app_nil_r.
Qed.


(** The inner loop of [compileNode] is [compileConditions]. *)
Lemma compileNode_logical table lop conditions errors :
  compileNode table (LogicalFilter lop conditions) errors
  = let '(compiledConditions, errors) := compileConditions table conditions errors in
    match compiledConditions with
    | [] => (None, errors)
    | first :: others =>
        match lop with
        | lop_and =>
            if (length compiledConditions =? 1)%nat then (Some first, errors)
            else (Drizzle.and compiledConditions, errors)
        | lop_or =>
            if (length compiledConditions =? 1)%nat then (Some first, errors)
            else (Drizzle.or compiledConditions, errors)
        | lop_not => (Some (Drizzle.not first), errors)
        end
    end.
Proof.
  cbn [compileNode].
  match goal with
  | |- (let '(_, _) := ?loop conditions errors in _) = _ =>
      assert (Hloop : forall cs e, (omap id (fst (loop cs e)), snd (loop cs e))
                                   = compileConditions table cs e)
  end.
  { induction cs as [|c cs IH]; intros e; [done|].
    cbn [compileConditions]. destruct (compileNode table c e) as [r e1].
    rewrite <- IH.
    match goal with |- context [?loop cs e1] => destruct (loop cs e1) as [rs e2] end.
    by destruct r. }
  rewrite <- Hloop.
  match goal with |- context [?loop conditions errors] =>
    destruct (loop conditions errors) as [rs e2] end.
  done.
Qed.

(** C5.  Let the children of a logical node compile to the non-null
    predicates [first :: others].  If the operator is [not], the node
    compiles to the negation of [first], whatever [others] is; if it is
    [and] or [or] and [first] is the only survivor, the node compiles to
    [first] itself, with no wrapper.  This holds of [compileNode], at
    every depth of the tree, and so of [compileFilter]. *)
Theorem compileFilter_logical table lop conditions errors (first : SQL) (others : list SQL) :
  fst (compileConditions table conditions errors) = first :: others ->
  lop = lop_not \/ others = [] ->
  compileNode table (LogicalFilter lop conditions) errors
  = (Some (if bool_decide (lop = lop_not) then Drizzle.not first else first),
     snd (compileConditions table conditions errors))
  /\ compileFilter (Some (LogicalFilter lop conditions)) table errors
     = compileNode table (LogicalFilter lop conditions) errors.
Proof.
  intros Hcs Hcase. split; [|done]. rewrite compileNode_logical.
  destruct (compileConditions table conditions errors) as [cc e]. simpl in Hcs. subst cc.
  destruct lop; simpl; try done; destruct Hcase as [?| ->]; done.
Qed.

(** *** Field selection *)

Lemma compileFields_loop table (fs : list string) (X : gset string) errors :
  fold_left (fun '(result, errors) f =>
      if includes (keys (getTableColumns table)) f then (<[f := true]> result, errors)
      else
        (result,
         push errors
           (createCompileError UNKNOWN_COLUMN f
              ("Column '" +:+ f +:+ "' does not exist in table schema"))))
    fs (gset_to_gmap true X, errors)
  = (gset_to_gmap true (X ∪ list_to_set (List.filter (known table) fs)),
     errors ++ map (fun f => createCompileError UNKNOWN_COLUMN f
                               ("Column '" +:+ f +:+ "' does not exist in table schema"))
                 (List.filter (fun f => negb (known table f)) fs)).
Proof.
  revert X errors. induction fs as [|f fs IH]; intros X errors;
    cbn [fold_left List.filter].
  - cbn [map]. rewrite app_nil_r. f_equal. f_equal. set_solver.
  - destruct (known table f) eqn:E; unfold known in E; rewrite E; cbn [negb map].
    + rewrite <- gset_to_gmap_union_singleton, IH. f_equal. f_equal. set_solver.
    + rewrite IH. unfold push. by rewrite <- app_assoc.
Qed.

Lemma size_gset_to_gmap_0 (l : list string) :
  (size (gset_to_gmap true (list_to_set l : gset string)) =? 0)%nat
  = bool_decide (l = []).
Proof.
  destruct l as [|x l].
  - done.
  - rewrite bool_decide_eq_false_2 by done. apply Nat.eqb_neq.
    rewrite map_size_empty_iff. intros Hm.
    assert (Hx : gset_to_gmap true (list_to_set (x :: l) : gset string) !! x = Some true).
    { apply lookup_gset_to_gmap_Some. split; [set_solver|done]. }
    by rewrite Hm in Hx.
Qed.

Lemma compileFields_spec table (fs : list string) errors (warnings : list CompileWarning) :
  compileFields (Some fs) table errors warnings
  = let selected := List.filter (known table) fs in
    let errors :=
      errors ++ map (fun f => createCompileError UNKNOWN_COLUMN f
                                ("Column '" +:+ f +:+ "' does not exist in table schema"))
                  (List.filter (fun f => negb (known table f)) fs) in
    if bool_decide (selected = []) && bool_decide (fs <> []) then
      (None, errors,
       warnings ++
         [createCompileWarning COLUMN_IGNORED "fields"
            "All requested fields were invalid, selecting all columns"
            (Some ("Available columns: " +:+ join ", " (keys (getTableColumns table))))])
    else (Some (gset_to_gmap true (list_to_set selected)), errors, warnings).
Proof.
  unfold compileFields. rewrite <- (gset_to_gmap_empty true), compileFields_loop.
  rewrite (left_id_L ∅ (∪)). cbn zeta. rewrite size_gset_to_gmap_0.
  replace (0 <? length fs)%nat with (bool_decide (fs <> [])); [done|].
  by destruct fs.
Qed.

(** *** Ordering *)

Lemma compileSort_loop table (sort : list SortSpec) (orderBy : list SQL) errors :
  fold_left (fun '(orderBy, errors) spec =>
    if negb (includes (keys (getTableColumns table)) (sort_field spec)) then
      (orderBy,
       push errors
         (createCompileError UNKNOWN_COLUMN (sort_field spec)
            ("Sort column '" +:+ sort_field spec +:+ "' does not exist in table schema")))
    else
      match getColumn (getTableColumns table) (sort_field spec) with
      | Some column =>
          (push orderBy
             (if bool_decide (direction spec = Ast.desc) then Drizzle.desc column
              else Drizzle.asc column),
           errors)
      | None => (orderBy, errors)
      end) sort (orderBy, errors)
  = (orderBy ++ omap (orderDirective table) sort,
     errors ++ map (fun spec => createCompileError UNKNOWN_COLUMN (sort_field spec)
                      ("Sort column '" +:+ sort_field spec +:+ "' does not exist in table schema"))
                 (List.filter (fun spec => negb (known table (sort_field spec))) sort)).
Proof.
  revert orderBy errors. induction sort as [|spec sort IH]; intros orderBy errors;
    cbn [fold_left List.filter omap list_omap].
  - cbn [map]. by rewrite !app_nil_r.
  - unfold orderDirective at 1.
    destruct (known table (sort_field spec)) eqn:E.
    + destruct (getColumn_known table (sort_field spec) E) as [column Hc].
      unfold known in E. rewrite E, Hc. cbn [negb map fmap option_fmap option_map].
      rewrite IH. unfold push. by rewrite <- app_assoc.
    + rewrite (getColumn_unknown table (sort_field spec) E).
      unfold known in E. rewrite E. cbn [negb map fmap option_fmap option_map].
      rewrite IH. unfold push. by rewrite <- app_assoc.
Qed.

Lemma compileSort_spec table (sort : list SortSpec) errors :
  compileSort sort table errors
  = (omap (orderDirective table) sort,
     errors ++ map (fun spec => createCompileError UNKNOWN_COLUMN (sort_field spec)
                      ("Sort column '" +:+ sort_field spec +:+ "' does not exist in table schema"))
                 (List.filter (fun spec => negb (known table (sort_field spec))) sort)).
Proof. unfold compileSort. by rewrite compileSort_loop. Qed.

(** *** The predicate *)

Lemma compileNode_errors table (node : FilterNode) errors :
  compileNode table node errors
  = (fst (compileNode table node []), errors ++ snd (compileNode table node [])).
Proof.
  revert errors.
  induction node as [f op v|lop conditions IH] using FilterNode_ind'; intros errors.
  - cbn [compileNode]. destruct (negb _); simpl; [done|].
    destruct (getColumn _ f) as [column|]; simpl; [|by rewrite app_nil_r].
    apply compileOperator_errors.
  - rewrite !compileNode_logical.
    assert (Hcs : forall e, compileConditions table conditions e
                   = (fst (compileConditions table conditions []),
                      e ++ snd (compileConditions table conditions []))).
    { induction IH as [|c cs Hc _ IHcs]; intros e; simpl.
      - by rewrite app_nil_r.
      - rewrite (Hc e). rewrite (IHcs (e ++ _)).
        destruct (compileNode table c []) as [r e1]. simpl.
        rewrite (IHcs e1).
        destruct (compileConditions table cs []) as [rs e2]. simpl.
        by rewrite app_assoc. }
    rewrite (Hcs errors).
    destruct (compileConditions table conditions []) as [cc e']. simpl.
    destruct cc as [|first others]; [done|].
    destruct lop; simpl; try done; by destruct others.
Qed.



Lemma compileConditions_errors table (conditions : list FilterNode) errors :
  compileConditions table conditions errors
  = (fst (compileConditions table conditions []),
     errors ++ snd (compileConditions table conditions [])).
Proof.
  revert errors. induction conditions as [|c cs IH]; intros e; simpl.
  - by rewrite app_nil_r.
  - rewrite (compileNode_errors table c e). rewrite (IH (e ++ _)).
    destruct (compileNode table c []) as [r e1]. simpl.
    rewrite (IH e1).
    destruct (compileConditions table cs []) as [rs e2]. simpl.
    by rewrite app_assoc.
Qed.

Lemma compileConditions_cons table (c : FilterNode) (cs : list FilterNode) :
  fst (compileConditions table (c :: cs) [])
  = match fst (compileNode table c []) with Some x => [x] | None => [] end
    ++ fst (compileConditions table cs []).
Proof.
  cbn [compileConditions]. destruct (compileNode table c []) as [r e1].
  rewrite (compileConditions_errors table cs e1).
  destruct (compileConditions table cs []) as [rs e2]. by destruct r.
Qed.


Lemma compileNode_prune table (node : FilterNode) :
  fst (compileNode table node [])
  = fst (compileFilter (pruneUnknown table node) table []).
Proof.
  induction node as [f op v|lop conditions IH] using FilterNode_ind'.
  - cbn [pruneUnknown]. unfold known. destruct (includes _ f) eqn:E.
    + done.
    + cbn [compileNode compileFilter]. by rewrite E.
  - cbn [pruneUnknown compileFilter]. rewrite !compileNode_logical.
    assert (Hcs : fst (compileConditions table conditions [])
                  = fst (compileConditions table (omap (pruneUnknown table) conditions) [])).
    { induction IH as [|c cs Hc _ IHcs]; [done|].
      cbn [omap list_omap]. rewrite compileConditions_cons, Hc, IHcs.
      destruct (pruneUnknown table c) as [c'|]; [|done].
      by rewrite compileConditions_cons. }
    destruct (compileConditions table conditions []) as [cc e'].
    destruct (compileConditions table (omap _ conditions) []) as [cc' e''].
    simpl in Hcs. subst cc'.
    destruct cc as [|first others]; [done|].
    destruct lop; simpl; try done; by destruct others.
Qed.

Lemma pruneUnknown_fields table (node node' : FilterNode) :
  pruneUnknown table node = Some node' ->
  filterFieldOccurrences node' = List.filter (known table) (filterFieldOccurrences node).
Proof.
  revert node'.
  induction node as [f op v|lop conditions IH] using FilterNode_ind'; intros node'.
  - cbn [pruneUnknown filterFieldOccurrences List.filter].
    destruct (known table f); [|done]. by intros [= <-].
  - cbn [pruneUnknown]. intros [= <-]. cbn [filterFieldOccurrences].
    induction IH as [|c cs Hc _ IHcs]; simpl; [done|].
    rewrite List.filter_app, <- IHcs.
    destruct (pruneUnknown table c) as [c'|] eqn:Ec; simpl.
    + by rewrite (Hc c' eq_refl).
    + f_equal. clear -Ec. symmetry.
      destruct c as [f op v|lop' cs']; simpl in *; [|done].
      by destruct (known table f).
Qed.

Lemma compileFilter_spec table (filter : option FilterNode) errors :
  compileFilter filter table errors
  = (fst (compileFilter (pruneFilter table filter) table []),
     errors ++ snd (compileFilter filter table [])).
Proof.
  destruct filter as [node|]; cbn [compileFilter pruneFilter mbind option_bind].
  - rewrite compileNode_errors. f_equal. apply compileNode_prune.
  - by rewrite app_nil_r.
Qed.


End CompilerFacts.

(** A witness of [compileFilter_logical] on the symbolic builders:
    [not] over two conditions negates the first and drops the second. *)
Lemma compileFilter_logical_witness :
  Compiler.compileNode (drizzle := Drizzle.symbolic)
    [("a", "a"); ("b", "b")]
    (Ast.LogicalFilter Ast.lop_not
       [Ast.FieldFilter "a" Ast.op_eq (Js.JNum 1);
        Ast.FieldFilter "b" Ast.op_eq (Js.JNum 2)]) []
  = (Some (Drizzle.TNot (Drizzle.TEq "a" (Js.JNum 1))), []).
Proof.
  exact (proj1 (compileFilter_logical (drizzle := Drizzle.symbolic)
                  [("a", "a"); ("b", "b")] Ast.lop_not
                  [Ast.FieldFilter "a" Ast.op_eq (Js.JNum 1);
                   Ast.FieldFilter "b" Ast.op_eq (Js.JNum 2)] []
                  (Drizzle.TEq "a" (Js.JNum 1)) [Drizzle.TEq "b" (Js.JNum 2)]
                  eq_refl (or_introl eq_refl))).
Defined.

(** ** The LRU result cache *)

Section CacheFacts.
Import Js Cache.
Implicit Types (m : list (string * CacheEntry)) (this : LRUCache).

Lemma mapGet_absent key m : key ∉ mapKeys m -> mapGet key m = None.
Proof.
  induction m as [|[k e] m IH]; simpl; [done|].
  intros [Hne Hnot]%not_elem_of_cons.
  destruct (String.eqb_spec k key); [congruence|auto].
Qed.


Lemma mapSet_absent key entry m : key ∉ mapKeys m -> mapSet key entry m = m ++ [(key, entry)].
Proof.
  induction m as [|[k e] m IH]; simpl; [done|].
  intros [Hne Hnot]%not_elem_of_cons.
  destruct (String.eqb_spec k key); [congruence|]. by rewrite IH.
Qed.

Lemma mapDelete_keys key m x : x ∈ mapKeys (mapDelete key m) -> x ∈ mapKeys m.
Proof.
  induction m as [|[k e] m IH]; simpl; [done|].
  destruct (String.eqb_spec k key); simpl; rewrite ?elem_of_cons; intuition.
Qed.

Lemma mapDelete_gone key m : NoDup (mapKeys m) -> key ∉ mapKeys (mapDelete key m).
Proof.
  induction m as [|[k e] m IH]; simpl; [intros _ ?%elem_of_nil; done|].
  intros [Hk Hm]%NoDup_cons. destruct (String.eqb_spec k key) as [->|Hne]; [done|].
  simpl. rewrite not_elem_of_cons. auto.
Qed.

Lemma mapDelete_sublist key m : mapDelete key m `sublist_of` m.
Proof.
  induction m as [|[k e] m IH]; simpl; [done|].
  destruct (String.eqb_spec k key); [by apply sublist_cons|by apply sublist_skip].
Qed.

Lemma Forall_sublist_of {A} (P : A -> Prop) (l1 l2 : list A) :
  l1 `sublist_of` l2 -> Forall P l2 -> Forall P l1.
Proof.
  intros Hsub. rewrite !Forall_forall. intros H x Hx.
  apply H. eapply elem_of_sublist; eauto.
Qed.

Lemma mapInvariant_sublist now m m' :
  m' `sublist_of` m -> mapInvariant now m -> mapInvariant now m'.
Proof.
  intros Hsub (Hnd & Hord & Hby). split_and!.
  - eapply sublist_NoDup; [exact Hnd|]. by apply (fmap_sublist fst).
  - clear Hnd Hby. unfold recencyOrdered in *.
    induction Hsub as [|x l1 l2 Hsub IH|x l1 l2 Hsub IH]; [done| |].
    + apply StronglySorted_inv in Hord as [Hl2 Hx]. constructor; [auto|].
      eapply Forall_sublist_of; eauto.
    + apply StronglySorted_inv in Hord as [Hl2 Hx]. auto.
  - unfold accessedBy in *. eapply Forall_sublist_of; eauto.
Qed.

Lemma mapInvariant_later now now' m :
  now <= now' -> mapInvariant now m -> mapInvariant now' m.
Proof.
  intros Hle (Hnd & Hord & Hby). split_and!; [done..|].
  unfold accessedBy in *. eapply Forall_impl; [exact Hby|]. simpl. lia.
Qed.

Lemma mapInvariant_snoc now m key entry :
  mapInvariant now m -> key ∉ mapKeys m -> lastAccessedAt entry = now ->
  mapInvariant now (m ++ [(key, entry)]).
Proof.
  intros (Hnd & Hord & Hby) Hkey Hnow. split_and!.
  - unfold mapKeys. rewrite fmap_app. apply NoDup_app. split_and!; [done| |apply NoDup_singleton].
    intros x Hx ->%list_elem_of_singleton. done.
  - unfold recencyOrdered. apply StronglySorted_app_2.
    + intros a b Ha ->%list_elem_of_singleton. unfold byAccess. simpl.
      unfold accessedBy in Hby. rewrite Forall_forall in Hby. rewrite Hnow. by apply Hby.
    + done.
    + repeat constructor.
  - unfold accessedBy. apply Forall_app. split; [done|]. constructor; [simpl; lia|constructor].
Qed.

(** The methods keep the invariant. *)

Lemma create_mapInvariant now cfg : mapInvariant now (cache (create cfg)).
Proof. split_and!; constructor. Qed.

Lemma evict_mapInvariant now key reason this :
  mapInvariant now (cache this) -> mapInvariant now (cache (evict key reason this)).
Proof.
  intros H. unfold evict. destruct (mapGet key (cache this)); [|done]. simpl.
  eapply mapInvariant_sublist; [apply mapDelete_sublist|done].
Qed.

Lemma evictLRU_mapInvariant now this :
  mapInvariant now (cache this) -> mapInvariant now (cache (evictLRU this)).
Proof.
  intros H. unfold evictLRU. destruct (mapKeys (cache this)); [done|].
  by apply evict_mapInvariant.
Qed.

Lemma evictWhile_mapInvariant now cond n this this' :
  mapInvariant now (cache this) -> evictWhile cond n this = Some this' ->
  mapInvariant now (cache this').
Proof.
  revert this. induction n as [|n IH]; intros this H; simpl.
  - destruct (cond this); [done|]. by intros [= <-].
  - destruct (cond this); [|by intros [= <-]].
    apply IH. by apply evictLRU_mapInvariant.
Qed.

Lemma evictWhile_keys cond n this this' x :
  evictWhile cond n this = Some this' -> x ∈ mapKeys (cache this') -> x ∈ mapKeys (cache this).
Proof.
  revert this. induction n as [|n IH]; intros this; simpl.
  - destruct (cond this); [done|]. by intros [= <-].
  - destruct (cond this); [|by intros [= <-]].
    intros Hw Hx. specialize (IH _ Hw Hx). revert IH.
    unfold evictLRU. destruct (mapKeys (cache this)) eqn:Ek; [by rewrite Ek|].
    unfold evict. destruct (mapGet s (cache this)); [|by rewrite Ek].
    simpl. intros ?%mapDelete_keys. by rewrite <- Ek.
Qed.

Lemma set_mapInvariant now0 now key v this this' :
  mapInvariant now0 (cache this) -> now0 <= now -> set key v now this = Some this' ->
  mapInvariant now (cache this').
Proof.
  intros Hinv Hle. unfold set.
  set (this1 := if mapHas key (cache this) then _ else this).
  assert (Hinv1 : mapInvariant now0 (cache this1)).
  { subst this1. destruct (mapHas key (cache this)); [|done].
    simpl. eapply mapInvariant_sublist; [apply mapDelete_sublist|done]. }
  assert (Hkey1 : key ∉ mapKeys (cache this1)).
  { subst this1. destruct (mapHas key (cache this)) eqn:Eh; simpl.
    - apply mapDelete_gone, Hinv.
    - unfold mapHas in Eh. apply bool_decide_eq_false in Eh. intros Hin. apply Eh.
      clear -Hin. induction (cache this) as [|[k e] m IH]; simpl in *.
      + by apply elem_of_nil in Hin.
      + destruct (String.eqb_spec k key); [eauto|].
        apply elem_of_cons in Hin as [?|?]; [congruence|auto]. }
  destruct (evictWhile _ _ this1) as [this2|] eqn:Ew; [|done].
  intros [= <-]. simpl.
  rewrite mapSet_absent by (intros Hin; apply Hkey1; eapply evictWhile_keys; eauto).
  apply mapInvariant_snoc; [|by intros Hin; apply Hkey1; eapply evictWhile_keys; eauto|done].
  eapply mapInvariant_later; [exact Hle|]. eapply evictWhile_mapInvariant; eauto.
Qed.

Lemma get_mapInvariant now0 now key this :
  mapInvariant now0 (cache this) -> now0 <= now ->
  mapInvariant now (cache (snd (get key now this))).
Proof.
  intros Hinv Hle. unfold get.
  destruct (mapGet key (cache this)) as [entry|] eqn:Eg; simpl.
  - destruct (isExpired this now entry); simpl.
    + eapply mapInvariant_later; [exact Hle|]. by apply evict_mapInvariant.
    + rewrite mapSet_absent by apply mapDelete_gone, Hinv.
      apply mapInvariant_snoc; [|apply mapDelete_gone, Hinv|done].
      eapply mapInvariant_later; [exact Hle|].
      eapply mapInvariant_sublist; [apply mapDelete_sublist|done].
  - by eapply mapInvariant_later.
Qed.

(** *** [set] below and at capacity *)


(** With a capacity that is not positive the loop of [set] never ends. *)
Lemma set_without_capacity this key v now :
  maxSize (config this) <= 0 -> set key v now this = None.
Proof.
  intros Hmax. unfold set.
  set (this1 := if mapHas key (cache this) then _ else this).
  assert (Hcfg : maxSize (config this1) <= 0).
  { subst this1. by destruct (mapHas key (cache this)). }
  assert (Hloop : forall n this', maxSize (config this') <= 0 ->
            evictWhile (fun this => mapSize (cache this) >=? maxSize (config this)) n this'
            = None).
  { induction n as [|n IH]; intros this' H'; cbn [evictWhile];
      replace (mapSize (cache this') >=? maxSize (config this')) with true
        by (symmetry; rewrite Z.geb_leb; apply Z.leb_le; unfold mapSize; lia); [done|].
    apply IH. unfold evictLRU. destruct (mapKeys (cache this')); [done|].
    unfold evict. by destruct (mapGet _ _). }
  by rewrite Hloop.
Qed.







End CacheFacts.

(** ** Decimal numerals *)

Section Numerals.
Import Js.

Lemma pretty_N_char_digit (d : N) :
  (d < 10)%N ->
  isDigit (pretty_N_char d) = true
  /\ Z.of_nat (nat_of_ascii (pretty_N_char d)) - 48 = Z.of_N d.
Proof.
  intros Hd.
  assert (d = 0 \/ d = 1 \/ d = 2 \/ d = 3 \/ d = 4 \/ d = 5 \/ d = 6 \/ d = 7 \/ d = 8
          \/ d = 9)%N as H by lia.
  repeat (destruct H as [->|H]; [by vm_compute|]). subst d. by vm_compute.
Qed.

(** Reading back the digits that [pretty_N_go] puts in front of [s]. *)
Lemma readDigits_pretty_N_go (x : N) :
  exists k : Z, 0 <= k /\ forall s acc seen,
    readDigits (pretty_N_go x s) acc seen
    = readDigits s (acc * 10 ^ k + Z.of_N x) (seen || (0 <? x)%N).
Proof.
  induction (N.lt_wf_0 x) as [x _ IH].
  destruct (decide (x = 0%N)) as [->|Hx].
  - exists 0. split; [done|]. intros s acc seen. rewrite pretty_N_go_0.
    rewrite orb_false_r. f_equal. lia.
  - destruct (IH (x `div` 10)%N) as (k & Hk & IHk).
    { apply N.div_lt; lia. }
    exists (k + 1). split; [lia|]. intros s acc seen.
    rewrite pretty_N_go_step by lia. rewrite IHk. cbn [readDigits].
    destruct (pretty_N_char_digit (x `mod` 10)%N) as [-> ->].
    { apply N.mod_lt. lia. }
    replace (0 <? x)%N with true by (symmetry; apply N.ltb_lt; lia).
    rewrite orb_true_r. f_equal.
    rewrite Z.pow_add_r by lia.
    pose proof (N.div_mod x 10 ltac:(lia)) as Hdm.
    rewrite N2Z.inj_div in *. lia.
Qed.

Lemma pretty_N_go_head (x : N) (s : string) :
  (0 < x)%N -> exists c rest, pretty_N_go x s = String c rest /\ isDigit c = true.
Proof.
  revert s. induction (N.lt_wf_0 x) as [x _ IH]. intros s Hx.
  rewrite pretty_N_go_step by done.
  destruct (decide (x `div` 10 = 0)%N) as [->|Hd].
  - rewrite pretty_N_go_0. eexists _, _. split; [done|].
    apply pretty_N_char_digit, N.mod_lt. lia.
  - apply IH; [apply N.div_lt; lia|by apply N.neq_0_lt_0].
Qed.

Lemma parseInt_digit_head (c : ascii) (rest : string) :
  isDigit c = true -> parseInt (String c rest) = readDigits (String c rest) 0 false.
Proof.
  intros Hc. unfold parseInt. cbn [trimStart].
  destruct c as [[] [] [] [] [] [] [] []]; try discriminate Hc; reflexivity.
Qed.

Lemma readDigits_pretty_pos (p : positive) :
  readDigits (pretty (N.pos p)) 0 false = Some (Z.pos p).
Proof.
  unfold pretty, pretty_N. rewrite decide_False by done.
  destruct (readDigits_pretty_N_go (N.pos p)) as (k & _ & ->). by cbn.
Qed.

Lemma parseInt_pretty_pos (p : positive) : parseInt (pretty (N.pos p)) = Some (Z.pos p).
Proof.
  rewrite <- readDigits_pretty_pos.
  unfold pretty, pretty_N. rewrite decide_False by done.
  destruct (pretty_N_go_head (N.pos p) "") as (c & rest & Heq & Hc); [done|].
  rewrite Heq. by apply parseInt_digit_head.
Qed.



End Numerals.

(** ** ast/parser.ts: pagination *)

Section PaginationFacts.
Import Js Ast Parser.







End PaginationFacts.

(** ** ast/parser.ts: the filter *)

Section ParserFacts.
Import Js Ast Parser.
Implicit Types (errors : list ParseError) (path : list string).

(** *** The loop over the keys *)

Lemma collect_fold parseOne keys errors :
  collect parseOne keys errors = fold_left (collectStep parseOne) keys (Some ([], errors)).
Proof. reflexivity. Qed.

Lemma collectStep_None parseOne keys : fold_left (collectStep parseOne) keys None = None.
Proof. by induction keys. Qed.

Lemma collect_Forall (P : FilterNode -> Prop) parseOne keys errors conditions errors' :
  (forall key e c e', key ∈ keys -> parseOne key e = Some (Some c, e') -> P c) ->
  collect parseOne keys errors = Some (conditions, errors') ->
  Forall P conditions.
Proof.
  rewrite collect_fold.
  assert (Hgen : forall acc, Forall P acc ->
            (forall key e c e', key ∈ keys -> parseOne key e = Some (Some c, e') -> P c) ->
            fold_left (collectStep parseOne) keys (Some (acc, errors))
            = Some (conditions, errors') -> Forall P conditions).
  { clear. revert errors. induction keys as [|k keys IH]; intros errors acc Hacc Hone; simpl.
    - by intros [= <- <-].
    - destruct (parseOne k errors) as [[[c|] e1]|] eqn:Ek.
      + apply IH.
        * apply Forall_app. split; [done|]. constructor; [|constructor].
          eapply Hone; [left|exact Ek].
        * intros key e c' e' Hin. apply Hone. by right.
      + apply IH; [done|]. intros key e c' e' Hin. apply Hone. by right.
      + by rewrite collectStep_None. }
  apply Hgen. constructor.
Qed.

Lemma collect_total parseOne keys errors :
  (forall key e, key ∈ keys -> is_Some (parseOne key e)) ->
  is_Some (collect parseOne keys errors).
Proof.
  rewrite collect_fold. generalize (@nil FilterNode) as acc. revert errors.
  induction keys as [|k keys IH]; intros errors acc Hone; simpl; [done|].
  destruct (Hone k errors) as [[[c|] e1] ->]; [left|..];
    apply IH; intros key e Hin; apply Hone; by right.
Qed.

Lemma collect_more parseOne parseOne' keys errors r :
  (forall key e r, key ∈ keys -> parseOne key e = Some r -> parseOne' key e = Some r) ->
  collect parseOne keys errors = Some r -> collect parseOne' keys errors = Some r.
Proof.
  rewrite !collect_fold. generalize (@nil FilterNode) as acc. revert errors.
  induction keys as [|k keys IH]; intros errors acc Hone; simpl; [done|].
  destruct (parseOne k errors) as [[[c|] e1]|] eqn:Ek.
  - rewrite (Hone k errors _ ltac:(left) Ek). apply IH.
    intros key e r' Hin. apply Hone. by right.
  - rewrite (Hone k errors _ ltac:(left) Ek). apply IH.
    intros key e r' Hin. apply Hone. by right.
  - by rewrite collectStep_None.
Qed.


(** *** The bound is enough, and more changes nothing *)

Lemma lookupProp_cases (props : list (string * JsValue)) (key : string) :
  lookupProp props key = JUndefined \/ (key, lookupProp props key) ∈ props.
Proof.
  induction props as [|[k x] props IH]; simpl; [by left|].
  destruct (String.eqb_spec k key) as [->|Hne].
  - right. left.
  - destruct IH as [IH|IH]; [by left|]. right. by right.
Qed.

Lemma depth_entries (v : JsValue) (k : string) (x : JsValue) :
  (k, x) ∈ entries v -> (depth x < depth v)%nat.
Proof.
  destruct v as [| | | | |items|props]; simpl; try by intros ?%elem_of_nil.
  - intros Hin. apply elem_of_lookup_imap in Hin as (i & y & [= _ <-] & Hi).
    apply list_elem_of_lookup_2 in Hi. clear i k.
    induction items as [|z items IH]; [by apply elem_of_nil in Hi|].
    simpl. apply elem_of_cons in Hi as [->|Hi]; [lia|]. specialize (IH Hi). lia.
  - intros Hin. induction props as [|[k' z] props IH]; [by apply elem_of_nil in Hin|].
    simpl. apply elem_of_cons in Hin as [[= <- <-]|Hin]; [lia|]. specialize (IH Hin). lia.
Qed.

Lemma depth_getProp (v : JsValue) (key : string) :
  (depth (getProp v key) <= Nat.pred (depth v))%nat.
Proof.
  unfold getProp. destruct (lookupProp_cases (entries v) key) as [->|Hin].
  - simpl. lia.
  - apply depth_entries in Hin. lia.
Qed.

Ltac case_first_key :=
  match goal with
  | |- context [if ?b then isValidLogicalOperator ?k else None] =>
      destruct (if b then isValidLogicalOperator k else None) as [operator|]
  end.

Ltac use_collect_total :=
  match goal with
  | |- context [collect ?f ?keys ?e] =>
      let Hc := fresh "Hc" in
      destruct (collect_total f keys e) as [[[|? [|? ?]] ?] Hc];
      [|rewrite Hc; done..]
  end.

Lemma parseFilterN_total (n : nat) :
  (forall v errors path, (2 * depth v < n)%nat -> is_Some (parseFilterN n v errors path))
  /\ (forall operator v errors path, (2 * depth v + 1 < n)%nat ->
        is_Some (parseLogicalFilterN n operator v errors path)).
Proof.
  induction n as [|n [IHf IHl]]; [split; intros; lia|]. split.
  - intros v errors path Hn. cbn [parseFilterN].
    pose proof (depth_getProp v) as Hd.
    destruct v as [| | | | |items|props]; try done.
    all: cbn [depth] in Hn, Hd.
    all: destruct (length _ =? 0)%nat; [done|].
    all: case_first_key;
      [apply IHl;
       match goal with |- context [getProp _ ?k] => specialize (Hd k) end; lia|].
    all: destruct (1 <? length _)%nat; [|by destruct (negb _)].
    all: use_collect_total.
    all: intros key e _; destruct (isValidLogicalOperator key); [|done].
    all: apply IHl; specialize (Hd key); lia.
  - intros operator v errors path Hn. cbn [parseLogicalFilterN].
    pose proof (depth_getProp v) as Hd.
    destruct v as [| | | | |items|props]; try done.
    all: cbn [depth] in Hn, Hd.
    + use_collect_total.
      intros key e _. apply IHf. specialize (Hd key). lia.
    + destruct (_ && _).
      * use_collect_total.
        intros key e _. apply IHf. specialize (Hd key). lia.
      * destruct (IHf (JObj props) errors path) as [[[c|] e] ->]; [cbn [depth]; lia|done..].
Qed.

Ltac use_collect_more :=
  match goal with
  | |- context [match collect ?f ?keys ?e with _ => _ end = Some _
                -> match collect ?g ?keys ?e with _ => _ end = Some _] =>
      let Hc := fresh "Hc" in
      let cr := fresh "cr" in
      destruct (collect f keys e) as [cr|] eqn:Hc; [|done];
      rewrite (collect_more f g keys e cr); [done| |exact Hc]; clear Hc
  end.

Lemma parseFilterN_more (n : nat) :
  (forall m v errors path r, (n <= m)%nat ->
     parseFilterN n v errors path = Some r -> parseFilterN m v errors path = Some r)
  /\ (forall m operator v errors path r, (n <= m)%nat ->
        parseLogicalFilterN n operator v errors path = Some r ->
        parseLogicalFilterN m operator v errors path = Some r).
Proof.
  induction n as [|n [IHf IHl]]; [split; intros; discriminate|]. split.
  - intros [|m] v errors path r Hm; [lia|]. cbn [parseFilterN].
    assert (Hm' : (n <= m)%nat) by lia.
    destruct v as [| | | | |items|props]; try done.
    all: destruct (length _ =? 0)%nat; [done|].
    all: case_first_key; [by apply IHl|].
    all: destruct (1 <? length _)%nat; [|done].
    all: use_collect_more.
    all: intros key e r' _; destruct (isValidLogicalOperator key); [by apply IHl|done].
  - intros [|m] operator v errors path r Hm; [lia|]. cbn [parseLogicalFilterN].
    assert (Hm' : (n <= m)%nat) by lia.
    destruct v as [| | | | |items|props]; try done.
    + use_collect_more. intros key e r' _. by apply IHf.
    + destruct (_ && _).
      * use_collect_more. intros key e r' _. by apply IHf.
      * destruct (parseFilterN n _ _ _) as [fr|] eqn:Ef; [|done].
        by rewrite (IHf m _ _ _ _ Hm' Ef).
Qed.

(** [parseFilter] returns what [parseFilterN] returns with any bound that
    is enough: its own bound always is. *)
Lemma parseFilter_eq (n : nat) (v : JsValue) errors path r :
  parseFilterN n v errors path = Some r -> parseFilter v errors path = r.
Proof.
  intros Hn. unfold parseFilter.
  destruct (proj1 (parseFilterN_total (enough v)) v errors path) as [r' Hr'].
  { unfold enough. lia. }
  rewrite Hr'. simpl.
  pose proof (proj1 (parseFilterN_more n) (Nat.max n (enough v)) v errors path r
                ltac:(lia) Hn) as H1.
  pose proof (proj1 (parseFilterN_more (enough v)) (Nat.max n (enough v)) v errors path r'
                ltac:(lia) Hr') as H2.
  congruence.
Qed.

Lemma parseFilter_total (v : JsValue) errors path :
  parseFilterN (enough v) v errors path = Some (parseFilter v errors path).
Proof.
  destruct (proj1 (parseFilterN_total (enough v)) v errors path) as [r Hr].
  { unfold enough. lia. }
  rewrite Hr. f_equal. symmetry. by eapply parseFilter_eq.
Qed.

(** *** What the parser builds *)

Lemma includes_FILTER_OPERATORS (o : FilterOperator) : includes FILTER_OPERATORS o = true.
Proof. by destruct o; vm_compute. Qed.

Lemma forallb_Forall_true {A} (f : A -> bool) (l : list A) :
  Forall (fun x => f x = true) l -> forallb f l = true.
Proof. induction 1; simpl; [done|]. by apply andb_true_iff. Qed.

Lemma forallb_true_Forall {A} (f : A -> bool) (l : list A) :
  forallb f l = true -> Forall (fun x => f x = true) l.
Proof.
  induction l as [|x l IH]; simpl; [constructor|].
  intros [? ?]%andb_true_iff. constructor; auto.
Qed.

Lemma builtNamed_logical (f : string) (operator : LogicalOperator) (conditions : list FilterNode) :
  conditions <> [] -> Forall (builtNamed f) conditions ->
  builtNamed f (LogicalFilter operator conditions).
Proof.
  intros Hne Hall. split; [|intros Hf]; cbn [wellShaped wellFormed].
  - apply andb_true_iff. split; [by destruct conditions|].
    apply forallb_Forall_true. eapply Forall_impl; [exact Hall|]. by intros c [? _].
  - apply andb_true_iff. split; [by destruct conditions|].
    apply forallb_Forall_true. eapply Forall_impl; [exact Hall|]. intros c [_ Hc]. auto.
Qed.

Lemma built_logical (v : JsValue) (operator : LogicalOperator) (conditions : list FilterNode) :
  conditions <> [] ->
  Forall (fun c => wellShaped c = true /\ (noEmptyKey v = true -> wellFormed c = true))
    conditions ->
  built v (LogicalFilter operator conditions).
Proof.
  intros Hne Hall. split; [|intros Hf]; cbn [wellShaped wellFormed].
  - apply andb_true_iff. split; [by destruct conditions|].
    apply forallb_Forall_true. eapply Forall_impl; [exact Hall|]. by intros c [? _].
  - apply andb_true_iff. split; [by destruct conditions|].
    apply forallb_Forall_true. eapply Forall_impl; [exact Hall|]. intros c [_ Hc]. auto.
Qed.

Lemma parseFieldFilterFromObject_built (f : string) (v : JsValue) errors path node errors' :
  parseFieldFilterFromObject f v errors path = (Some node, errors') -> builtNamed f node.
Proof.
  unfold parseFieldFilterFromObject.
  assert (Hfield : forall o x, builtNamed f (FieldFilter f o x)).
  { intros o x. split; [|intros Hf]; cbn; rewrite ?Hf; apply includes_FILTER_OPERATORS. }
  destruct v as [| | | | |items|obj]; try (by intros [= <- _]); try done.
  destruct (length _ =? 0)%nat; [done|].
  destruct (1 <? length _)%nat.
  - match goal with |- context [fold_left ?step ?ops0 ?init] =>
      assert (Hloop : forall ops acc errs, Forall (builtNamed f) acc ->
                Forall (builtNamed f) (fst (fold_left step ops (acc, errs))))
    end.
    { induction ops as [|op ops IH]; intros acc errs Hacc; simpl; [done|].
      destruct (isValidFilterOperator op); apply IH; [|done].
      apply Forall_app. split; [done|]. constructor; [apply Hfield|constructor]. }
    specialize (Hloop (map fst obj) [] errors ltac:(constructor)).
    destruct (fold_left _ _ _) as [conditions errs]. simpl in Hloop.
    destruct conditions as [|c [|c' cs]]; [done| |].
    + intros [= <- _]. by apply Forall_inv in Hloop.
    + intros [= <- _]. by apply builtNamed_logical.
  - destruct (if truthy _ then _ else None); [|done]. intros [= <- _]. apply Hfield.
Qed.

Lemma pretty_nat_truthy (i : nat) : truthy (pretty i) = true.
Proof.
  unfold pretty, pretty_nat, pretty, pretty_N. case_decide; [done|].
  destruct (pretty_N_go_head (N.of_nat i) "") as (c & rest & -> & _); [lia|done].
Qed.

Lemma noEmptyKey_entries (v : JsValue) (k : string) (x : JsValue) :
  noEmptyKey v = true -> (k, x) ∈ entries v -> truthy k = true /\ noEmptyKey x = true.
Proof.
  destruct v as [| | | | |items|props]; simpl; try by intros _ ?%elem_of_nil.
  - intros Hall Hin. apply elem_of_lookup_imap in Hin as (i & y & [= -> <-] & Hi).
    split; [apply pretty_nat_truthy|].
    rewrite forallb_forall in Hall. apply Hall.
    apply list_elem_of_In. by eapply list_elem_of_lookup_2.
  - intros Hall Hin. rewrite forallb_forall in Hall.
    apply list_elem_of_In, Hall in Hin. by apply andb_true_iff in Hin.
Qed.

Lemma noEmptyKey_getProp (v : JsValue) (key : string) :
  noEmptyKey v = true -> noEmptyKey (getProp v key) = true.
Proof.
  intros Hv. unfold getProp. destruct (lookupProp_cases (entries v) key) as [->|Hin]; [done|].
  by apply (noEmptyKey_entries v key).
Qed.

Lemma noEmptyKey_objectKeys (v : JsValue) (key : string) :
  noEmptyKey v = true -> key ∈ objectKeys v -> truthy key = true.
Proof.
  intros Hv Hin. unfold objectKeys in Hin.
  apply list_elem_of_fmap in Hin as ([k x] & -> & Hin).
  by apply (noEmptyKey_entries v k x).
Qed.

Ltac use_collect_Forall P :=
  match goal with
  | |- context [collect ?f ?keys ?e] =>
      let Hc := fresh "Hc" in
      let Hall := fresh "Hall" in
      destruct (collect f keys e) as [[conditions errs]|] eqn:Hc; [|done];
      assert (Hall : Forall P conditions);
      [eapply collect_Forall; [clear Hc|exact Hc]|clear Hc]
  end.

Lemma parseFilterN_built (n : nat) :
  (forall v errors path node errors',
     parseFilterN n v errors path = Some (Some node, errors') -> built v node)
  /\ (forall operator v errors path node errors',
        parseLogicalFilterN n operator v errors path = Some (Some node, errors') ->
        built v node).
Proof.
  induction n as [|n [IHf IHl]]; [split; intros; discriminate|].
  assert (Hchild : forall v key c,
            built (getProp v key) c ->
            wellShaped c = true /\ (noEmptyKey v = true -> wellFormed c = true)).
  { intros v key c [Hs Hf]. split; [done|]. intros Hv. by apply Hf, noEmptyKey_getProp. }
  split.
  - intros v errors path node errors'. cbn [parseFilterN].
    destruct v as [| | | | |items|props]; try done.
    all: destruct (length _ =? 0)%nat; [done|].
    all: case_first_key; [intros H; apply IHl in H; by eapply Hchild|].
    all: destruct (1 <? length _)%nat.
    2,4: destruct (negb (truthy _)) eqn:Et; [done|]; intros [= H];
         apply parseFieldFilterFromObject_built in H as [Hs Hf];
         split; [done|]; intros _; apply Hf; by destruct (truthy _).
    all: match goal with |- context [objectKeys ?v] =>
           use_collect_Forall
             (fun c => wellShaped c = true /\ (noEmptyKey v = true -> wellFormed c = true))
         end.
    1,3: intros key e c e' Hin; cbv beta; destruct (isValidLogicalOperator key);
         [intros H; apply IHl in H; by eapply Hchild|];
         intros [= H]; apply parseFieldFilterFromObject_built in H as [Hs Hf];
         split; [done|]; intros Hv; apply Hf; by eapply noEmptyKey_objectKeys.
    all: destruct conditions as [|c [|c' cs]]; [done| |].
    all: intros [= <- _]; first [by apply Forall_inv in Hall|by apply built_logical].
  - intros operator v errors path node errors'. cbn [parseLogicalFilterN].
    destruct v as [| | | | |items|props]; try done.
    + match goal with |- context [objectKeys ?v] =>
        use_collect_Forall
          (fun c => wellShaped c = true /\ (noEmptyKey v = true -> wellFormed c = true))
      end.
      { intros key e c e' _ H. cbv beta in H. apply IHf in H. by eapply Hchild. }
      destruct conditions as [|c cs]; [done|]. intros [= <- _]. by apply built_logical.
    + destruct (_ && _).
      * match goal with |- context [objectKeys ?v] =>
          use_collect_Forall
            (fun c => wellShaped c = true /\ (noEmptyKey v = true -> wellFormed c = true))
        end.
        { intros key e c e' _ H. cbv beta in H. apply IHf in H. by eapply Hchild. }
        destruct conditions as [|c cs]; [done|]. intros [= <- _]. by apply built_logical.
      * destruct (parseFilterN n _ _ _) as [[[c|] e]|] eqn:Ef; [|done..].
        intros [= <- _]. apply IHf in Ef. apply built_logical; [done|].
        constructor; [exact Ef|constructor].
Qed.

(** Every filter that [parse] returns has an operator of the enumeration on
    each [FieldFilter] and conditions under each [LogicalFilter]; its field
    names are non-empty as well when no object of the input has an empty
    key. *)
Lemma parse_filter_built (input : QueryInput) (ast : QueryAST) (node : FilterNode) :
  Parser.ast (parse input) = Some ast -> filter ast = Some node ->
  wellShaped node = true /\ (noEmptyKey (in_filter input) = true -> wellFormed node = true).
Proof.
  unfold parse. pose proof (parseFilter_total (in_filter input) [] ["filter"]) as Ht.
  destruct (parseFilter (in_filter input) [] ["filter"]) as [f errs].
  destruct (existsb _ errs); [done|]. intros [= <-]. cbn [filter]. intros ->.
  by apply (proj1 (parseFilterN_built _)) in Ht.
Qed.

(** C7 fails on an object with several keys, one of them empty.  [parse]
    of the filter [{ "": { eq: 1 }, a: { eq: 2 } }] reports no error and
    returns an AST whose filter has a [FieldFilter] with an empty field
    name: the loop over several keys passes each key to
    [parseFieldFilterFromObject] unchecked, while the path for a single key
    returns [null] for an empty name. *)
Theorem parse_keeps_empty_field_name :
  let input :=
    {| in_fields := JUndefined; in_page := JUndefined; in_limit := JUndefined;
       in_sort := JUndefined;
       in_filter := JObj [("", JObj [("eq", JNum 1)]); ("a", JObj [("eq", JNum 2)])] |} in
  let node :=
    LogicalFilter lop_and [FieldFilter "" op_eq (JNum 1); FieldFilter "a" op_eq (JNum 2)] in
  parse input
  = {| Parser.ast := Some {| fields := None;
                             pagination := {| offset := 0; limit := 10 |};
                             sort := [];
                             filter := Some node |};
       errors := [];
       warnings := [] |}
  /\ wellFormed node = false
  /\ parseFilter (JObj [("", JObj [("eq", JNum 1)])]) [] ["filter"] = (None, []).
Proof. by vm_compute. Qed.

End ParserFacts.

(** ** Strings: [join], [split], [trim] *)

Section StringFacts.
Import Js RoundTrip.

Lemma app_String (c : ascii) (a b : string) : String c a +:+ b = String c (a +:+ b).
Proof. reflexivity. Qed.

Lemma app_empty (b : string) : "" +:+ b = b.
Proof. reflexivity. Qed.

Ltac sapp := rewrite ?app_String, ?app_empty.
Ltac sapp_in H := rewrite ?app_String, ?app_empty in H.

Lemma string_app_assoc (a b c : string) : (a +:+ b) +:+ c = a +:+ b +:+ c.
Proof. induction a as [|x a IH]; sapp; simpl; congruence. Qed.

Lemma string_length_app (a b : string) :
  String.length (a +:+ b) = (String.length a + String.length b)%nat.
Proof. induction a as [|x a IH]; sapp; simpl; congruence. Qed.

Lemma list_ascii_app (a b : string) :
  list_ascii_of_string (a +:+ b) = list_ascii_of_string a ++ list_ascii_of_string b.
Proof. induction a as [|x a IH]; sapp; simpl; congruence. Qed.

Lemma truthy_spec (s : string) : truthy s = true <-> s <> "".
Proof.
  unfold truthy. destruct (String.eqb_spec s ""); simpl; split; intros; congruence.
Qed.

Lemma commaFree_app (a b : string) :
  commaFree (a +:+ b) = commaFree a && commaFree b.
Proof. unfold commaFree. by rewrite list_ascii_app, forallb_app. Qed.

(** *** [trim] *)

Lemma trimStart_app (a b : string) :
  a <> "" -> trimStart a = a -> trimStart (a +:+ b) = a +:+ b.
Proof.
  destruct a as [|c a]; [done|]. intros _. sapp. cbn [trimStart].
  destruct (isWhiteSpace c); [|done].
  intros H. exfalso. assert (Hlen : (String.length (trimStart a) <= String.length a)%nat).
  { clear. induction a as [|x a IH]; simpl; [done|]. destruct (isWhiteSpace x); simpl; lia. }
  rewrite H in Hlen. simpl in Hlen. lia.
Qed.

Lemma trimEnd_app (a b : string) :
  trimEnd b <> "" -> trimEnd (a +:+ b) = a +:+ trimEnd b.
Proof.
  intros Hb. induction a as [|c a IH]; sapp; cbn [trimEnd]; [done|].
  rewrite IH. destruct (a +:+ trimEnd b) eqn:E; [|done].
  destruct a; sapp_in E; [done|discriminate].
Qed.

Lemma trim_id (s : string) : trimStart s = s -> trimEnd s = s -> trim s = s.
Proof. unfold trim. by intros -> ->. Qed.

(** A string that begins with a plain name and ends with a string that
    [trimEnd] leaves alone is left alone by [trim]. *)
Lemma trim_between (a b : string) :
  a <> "" -> trimStart a = a -> b <> "" -> trimEnd b = b -> trim (a +:+ b) = a +:+ b.
Proof.
  intros Ha Hsa Hb Heb. unfold trim. rewrite trimStart_app by done.
  rewrite trimEnd_app by congruence. by rewrite Heb.
Qed.

Lemma plainName_spec (s : string) :
  plainName s = true <->
  s <> "" /\ trimStart s = s /\ trimEnd s = s /\ commaFree s = true.
Proof.
  unfold plainName. rewrite !andb_true_iff, truthy_spec, !String.eqb_eq. tauto.
Qed.

(** *** [split] after [join] *)

Lemma split_commaFree (s : string) : commaFree s = true -> split "," s = [s].
Proof.
  unfold commaFree. induction s as [|c s IH]; cbn [list_ascii_of_string forallb split]; [done|].
  intros [Hc Hs]%andb_true_iff. apply negb_true_iff in Hc. rewrite Hc, IH by done. done.
Qed.

Lemma split_app_comma (a rest : string) :
  commaFree a = true -> split "," (a +:+ "," +:+ rest) = a :: split "," rest.
Proof.
  change ("," +:+ rest) with (String ","%char rest).
  unfold commaFree.
  induction a as [|c a IH]; rewrite ?app_String, ?app_empty;
    cbn [list_ascii_of_string forallb split]; [done|].
  intros [Hc Hs]%andb_true_iff. apply negb_true_iff in Hc. rewrite Hc, IH by done. done.
Qed.

Lemma join_cons (sep x y : string) (l : list string) :
  join sep (x :: y :: l) = x +:+ sep +:+ join sep (y :: l).
Proof. reflexivity. Qed.

Lemma split_join (l : list string) :
  l <> [] -> Forall (fun s => commaFree s = true) l -> split "," (join "," l) = l.
Proof.
  intros Hne Hall. induction Hall as [|x l Hx Hl IH]; [done|].
  destruct l as [|y l].
  - by apply split_commaFree.
  - rewrite join_cons, split_app_comma by done. by rewrite IH.
Qed.

(** The first and the last name decide what [trim] does to a joined
    list. *)
Lemma join_ends (l : list string) :
  l <> [] ->
  Forall (fun s => s <> "" /\ trimStart s = s /\ trimEnd s = s) l ->
  join "," l <> "" /\ trimStart (join "," l) = join "," l
  /\ trimEnd (join "," l) = join "," l.
Proof.
  intros Hne Hall. induction Hall as [|x l (Hx & Hsx & Hex) Hl IH]; [done|].
  destruct l as [|y l]; [done|].
  destruct IH as (Hj & Hsj & Hej); [done|].
  rewrite join_cons. split_and!.
  - by destruct x.
  - by apply trimStart_app.
  - rewrite trimEnd_app.
    + f_equal. change ("," +:+ join "," (y :: l)) with (String "," (join "," (y :: l))).
      cbn [trimEnd]. rewrite Hej. by destruct (join "," (y :: l)).
    + change ("," +:+ join "," (y :: l)) with (String "," (join "," (y :: l))).
      cbn [trimEnd]. rewrite Hej. by destruct (join "," (y :: l)).
Qed.

End StringFacts.

(** ** The round trip of fields and sort *)

Section NamesRoundTrip.
Import Js Ast Parser Printer RoundTrip.

Ltac sapp := rewrite ?app_String, ?app_empty.

Lemma parseFields_join (fs : list string) :
  fs <> [] -> Forall (fun f => plainName f = true) fs ->
  parseFields (JStr (join "," fs)) = Some fs.
Proof.
  intros Hne Hall.
  assert (Hends : Forall (fun s => s <> "" /\ trimStart s = s /\ trimEnd s = s) fs).
  { eapply Forall_impl; [exact Hall|]. intros f Hf%plainName_spec. tauto. }
  assert (Hcomma : Forall (fun s => commaFree s = true) fs).
  { eapply Forall_impl; [exact Hall|]. intros f Hf%plainName_spec. tauto. }
  destruct (join_ends fs Hne Hends) as (Hj & Hsj & Hej).
  unfold parseFields. rewrite (proj2 (truthy_spec _) Hj). cbn [negb].
  rewrite trim_id by done. rewrite (proj2 (String.eqb_neq _ _) Hj).
  rewrite split_join by done.
  replace (map trim fs) with fs.
  - replace (List.filter (fun f => (0 <? String.length f)%nat) fs) with fs.
    + by destruct fs.
    + clear -Hends. induction Hends as [|f fs (Hf & _) _ IH]; simpl; [done|].
      destruct f; [done|]. simpl. by rewrite <- IH.
  - clear -Hends. induction Hends as [|f fs (_ & Hs & He) _ IH]; simpl; [done|].
    rewrite trim_id by done. by rewrite <- IH.
Qed.

(** The text of a sort entry. *)
Lemma lastIndexOf_app (c : ascii) (a d : string) :
  lastIndexOf c d = -1 -> lastIndexOf c (a +:+ String c d) = Z.of_nat (String.length a).
Proof.
  intros Hd. induction a as [|x a IH]; sapp; cbn [lastIndexOf String.length].
  - rewrite Hd. cbn. by rewrite Ascii.eqb_refl.
  - rewrite IH. rewrite (proj2 (Z.leb_le 0 _)) by lia. lia.
Qed.

Lemma substring_prefix (a b : string) :
  String.substring 0 (String.length a) (a +:+ b) = a.
Proof.
  induction a as [|x a IH]; sapp; cbn [String.length String.substring].
  - by destruct b.
  - by rewrite IH.
Qed.

Lemma substring_suffix (a b : string) :
  String.substring (String.length a) (String.length b) (a +:+ b) = b.
Proof.
  induction a as [|x a IH]; sapp; cbn [String.length String.substring]; [|done].
  induction b as [|y b IHb]; cbn [String.length String.substring]; [done|].
  by rewrite IHb.
Qed.

Lemma direction_text (d : SortDirection) :
  let text := directionName d in
  text <> "" /\ trimEnd text = text /\ commaFree text = true
  /\ lastIndexOf ":" text = -1
  /\ default asc (sortDirectionOf (toLowerCase (trim text))) = d.
Proof. by destruct d; vm_compute. Qed.

Lemma sortText_ends (s : SortSpec) :
  plainName (sort_field s) = true ->
  sortText s <> "" /\ trimStart (sortText s) = sortText s
  /\ trimEnd (sortText s) = sortText s /\ commaFree (sortText s) = true.
Proof.
  intros (Hf & Hsf & Hef & Hcf)%plainName_spec.
  destruct (direction_text (direction s)) as (Hd & Hed & Hcd & _).
  unfold sortText. split_and!.
  - by destruct (sort_field s).
  - by apply trimStart_app.
  - rewrite trimEnd_app.
    + f_equal. change (":" +:+ ?d) with (String ":"%char d). cbn [trimEnd].
      rewrite Hed. by destruct (directionName _).
    + change (":" +:+ ?d) with (String ":"%char d). cbn [trimEnd].
      rewrite Hed. by destruct (directionName _).
  - rewrite !commaFree_app, Hcf, Hcd. done.
Qed.

Lemma parseSortStep_sortText (sortSpecs : list SortSpec) (s : SortSpec) :
  plainName (sort_field s) = true ->
  parseSortStep sortSpecs (sortText s) = sortSpecs ++ [s].
Proof.
  intros Hplain. destruct (sortText_ends s Hplain) as (Hne & Hst & Het & _).
  apply plainName_spec in Hplain as (Hf & Hsf & Hef & _).
  destruct (direction_text (direction s)) as (Hd & Hed & _ & Hcolon & Hdir).
  unfold parseSortStep. rewrite trim_id by done.
  rewrite (proj2 (String.eqb_neq _ _) Hne).
  assert (Hidx : lastIndexOf ":" (sortText s) = Z.of_nat (String.length (sort_field s))).
  { unfold sortText. change (":" +:+ ?d) with (String ":"%char d). by apply lastIndexOf_app. }
  rewrite Hidx. rewrite (proj2 (Z.eqb_neq _ _)) by lia.
  assert (Hlen : String.length (sortText s)
                 = (String.length (sort_field s) + 1
                    + String.length (directionName (direction s)))%nat).
  { unfold sortText. rewrite !string_length_app. simpl. lia. }
  assert (Hfield : substring (sortText s) 0 (Z.of_nat (String.length (sort_field s)))
                   = sort_field s).
  { unfold substring. rewrite Hlen.
    replace (Z.min (Z.max 0 0) _) with 0 by lia.
    replace (Z.min (Z.max (Z.of_nat (String.length (sort_field s))) 0) _)
      with (Z.of_nat (String.length (sort_field s))) by lia.
    rewrite Z.min_l, Z.max_r by lia. rewrite Z.sub_0_r, Nat2Z.id. cbn [Z.to_nat].
    apply substring_prefix. }
  assert (Hdirection : substringFrom (sortText s) (Z.of_nat (String.length (sort_field s)) + 1)
                       = directionName (direction s)).
  { unfold substringFrom, substring. rewrite Hlen.
    set (lf := String.length (sort_field s)). set (ld := String.length (directionName _)).
    replace (Z.min (Z.max (Z.of_nat lf + 1) 0) (Z.of_nat (lf + 1 + ld)))
      with (Z.of_nat (lf + 1)) by lia.
    replace (Z.min (Z.max (Z.of_nat (lf + 1 + ld)) 0) (Z.of_nat (lf + 1 + ld)))
      with (Z.of_nat (lf + 1 + ld)) by lia.
    rewrite Z.min_l, Z.max_r by lia.
    replace (Z.of_nat (lf + 1 + ld) - Z.of_nat (lf + 1)) with (Z.of_nat ld) by lia.
    rewrite !Nat2Z.id. unfold sortText.
    rewrite <- string_app_assoc.
    replace (lf + 1)%nat with (String.length (sort_field s +:+ ":")).
    - apply substring_suffix.
    - rewrite string_length_app. done. }
  rewrite Hfield, Hdirection, Hdir. rewrite trim_id by done.
  destruct (sort_field s) as [|c f] eqn:E; [done|]. cbn [String.length Nat.ltb Nat.leb].
  unfold push. by destruct s; simpl in *; subst.
Qed.

Lemma parseSort_join (sort : list SortSpec) :
  sort <> [] -> Forall (fun s => plainName (sort_field s) = true) sort ->
  parseSort (JStr (join "," (map sortText sort))) = sort.
Proof.
  intros Hne Hall.
  assert (Hends : Forall (fun t => t <> "" /\ trimStart t = t /\ trimEnd t = t)
                    (map sortText sort)).
  { apply Forall_map. eapply Forall_impl; [exact Hall|].
    intros s Hs%sortText_ends. simpl. tauto. }
  assert (Hcomma : Forall (fun t => commaFree t = true) (map sortText sort)).
  { apply Forall_map. eapply Forall_impl; [exact Hall|].
    intros s Hs%sortText_ends. simpl. tauto. }
  assert (Hne' : map sortText sort <> []) by (by destruct sort).
  destruct (join_ends _ Hne' Hends) as (Hj & Hsj & Hej).
  unfold parseSort. rewrite (proj2 (truthy_spec _) Hj). cbn [negb].
  rewrite trim_id by done. rewrite (proj2 (String.eqb_neq _ _) Hj).
  rewrite split_join by done.
  assert (Hgen : forall acc, fold_left parseSortStep (map sortText sort) acc = acc ++ sort).
  { clear -Hall. induction Hall as [|s sort Hs _ IH]; intros acc; simpl.
    - by rewrite app_nil_r.
    - rewrite parseSortStep_sortText by done. rewrite IH. by rewrite <- app_assoc. }
  apply Hgen.
Qed.

End NamesRoundTrip.

(** ** The round trip of the filter, and of the whole AST *)

Section FilterRoundTrip.
Import Js Ast Parser Printer RoundTrip.
Implicit Types (errors : list ParseError) (path : list string).


Lemma isValidLogicalOperator_name (o : LogicalOperator) :
  isValidLogicalOperator (logicalName o) = Some o /\ truthy (logicalName o) = true.
Proof. by destruct o; vm_compute. Qed.










End FilterRoundTrip.

(** ** security/validator.ts: what a configuration permits *)

Section ValidatorPermits.
Import Js Ast SecurityTypes Validator.

Lemma map_filter_nil {A B} (g : A -> B) (p : A -> bool) (l : list A) :
  map g (List.filter p l) = [] <-> Forall (fun x => p x = false) l.
Proof.
  induction l as [|x l IH]; simpl.
  - split; [constructor|done].
  - destruct (p x) eqn:E; simpl.
    + split; [done|]. intros H. inversion H; congruence.
    + rewrite IH. split; [by constructor|]. by inversion 1.
Qed.

Lemma fieldNodesAt_nodes (node : FilterNode) (path : list string) :
  map snd (fieldNodesAt node path) = fieldFilters node.
Proof.
  revert path. induction node as [f op v|lop conditions IH] using FilterNode_ind';
    intros path; [done|].
  cbn [fieldNodesAt fieldFilters]. generalize 0%nat.
  induction IH as [|c cs Hc _ IHcs]; intros i; [done|].
  cbn [flat_map]. by rewrite map_app, Hc, IHcs.
Qed.

Lemma validateOperatorsNode_spec (node : FilterNode) (ops : list FilterOperator)
    (path : list string) :
  validateOperatorsNode node ops path
  = map (operatorError ops)
      (List.filter (fun n => negb (includes ops n.2.1.2)) (fieldNodesAt node path)).
Proof.
  revert path. induction node as [f op v|lop conditions IH] using FilterNode_ind';
    intros path.
  - cbn [validateOperatorsNode fieldNodesAt List.filter snd fst].
    by destruct (negb _).
  - cbn [validateOperatorsNode fieldNodesAt].
    rewrite <- (app_nil_l (map _ _)). generalize (@nil SecurityError). generalize 0%nat.
    induction IH as [|c cs Hc _ IHcs]; intros i acc.
    + by rewrite app_nil_r.
    + rewrite IHcs, Hc, List.filter_app, map_app. by rewrite <- app_assoc.
Qed.

(** X1.  [validateOperators] reports the [FieldFilter] nodes whose operator is
    not allowed: one error for each such node, duplicates included, in
    the order of the traversal, with the path from the root to the node
    followed by its field and operator. *)
Theorem validateOperators_one_error_per_node (filter : option FilterNode)
    (ops : list FilterOperator) (path : list string) :
  let nodes := from_option (fun node => fieldNodesAt node path) [] filter in
  validateOperators filter ops path
  = map (operatorError ops) (List.filter (fun n => negb (includes ops n.2.1.2)) nodes)
  /\ map snd nodes = fieldFiltersOf filter.
Proof.
  destruct filter as [node|]; simpl; [|done].
  split; [apply validateOperatorsNode_spec|apply fieldNodesAt_nodes].
Qed.

Lemma validateOperators_nil (filter : option FilterNode) (ops : list FilterOperator)
    (path : list string) :
  validateOperators filter ops path = []
  <-> Forall (fun n => n.1.2 ∈ ops) (fieldFiltersOf filter).
Proof.
  destruct filter as [node|]; simpl; [|split; [constructor|done]].
  rewrite validateOperatorsNode_spec, map_filter_nil.
  rewrite <- (fieldNodesAt_nodes node path), Forall_fmap.
  apply Forall_iff. intros [p [[f op] v]]. simpl.
  rewrite negb_false_iff. apply includes_true.
Qed.

Lemma not_includes_false {A} `{EqDecision A} (l : list A) (x : A) :
  negb (includes l x) = false <-> x ∈ l.
Proof. rewrite negb_false_iff. apply includes_true. Qed.

Lemma validateFields_nil (fs : option (list string)) (allowed : list string) :
  validateFields fs allowed = []
  <-> allowed = [] \/ Forall (fun f => f ∈ allowed) (default [] fs).
Proof.
  destruct fs as [fs|]; [|simpl; split; [right; constructor|done]].
  destruct (decide (allowed = [])) as [->|Hne].
  - unfold validateFields. rewrite orb_true_r. split; [by left|done].
  - rewrite validateFields_spec, map_filter_nil by done. simpl.
    setoid_rewrite not_includes_false. naive_solver.
Qed.

Lemma validateSortFields_nil (sort : list SortSpec) (allowed : list string) :
  validateSortFields sort allowed = []
  <-> allowed = [] \/ Forall (fun f => f ∈ allowed) (map sort_field sort).
Proof.
  destruct (decide (allowed = [])) as [->|Hne].
  - unfold validateSortFields. simpl. split; [by left|done].
  - rewrite validateSortFields_spec, map_filter_nil, Forall_fmap by done.
    setoid_rewrite not_includes_false. naive_solver.
Qed.

Lemma validateFilterFields_nil (filter : option FilterNode) (allowed path : list string) :
  validateFilterFields filter allowed path = []
  <-> allowed = [] \/ Forall (fun f => f ∈ allowed) (filterFieldsOf filter).
Proof.
  destruct (decide (allowed = [])) as [->|Hne].
  - unfold validateFilterFields. simpl. split; [by left|done].
  - rewrite validateFilterFields_spec, map_filter_nil by done.
    setoid_rewrite not_includes_false.
    rewrite !Forall_forall. setoid_rewrite extractFilterFields_elem. naive_solver.
Qed.

Lemma validateSecurity_errors_nil (ast : QueryAST) (config : option SecurityConfig) :
  errors (validateSecurity (Some ast) config) = []
  <-> permits (resolveSecurityConfig config) ast.
Proof.
  rewrite validateSecurity_errors. unfold permits, mentionedFields.
  rewrite !app_nil, validateFields_nil, validateFilterFields_nil, validateSortFields_nil,
    validateOperators_nil, !Forall_app.
  tauto.
Qed.

Lemma validateSecurity_valid (ast : QueryAST) (config : option SecurityConfig) :
  valid (validateSecurity (Some ast) config)
  = bool_decide (errors (validateSecurity (Some ast) config) = []).
Proof.
  unfold validateSecurity. destruct (validateLimit _ _) as [capped w]. simpl.
  match goal with |- (length ?l =? 0)%nat = _ => by destruct l end.
Qed.

Lemma validateSecurity_valid_permits (ast : QueryAST) (config : option SecurityConfig) :
  valid (validateSecurity (Some ast) config) = true
  <-> permits (resolveSecurityConfig config) ast.
Proof.
  rewrite validateSecurity_valid, bool_decide_eq_true. apply validateSecurity_errors_nil.
Qed.

(** X2.  [validateSecurity] accepts an AST exactly when the configuration
    permits it: every selected field, filter field and sort field is in
    [allowedFields] (or [allowedFields] is empty), and the operator of every
    filter node is in [operators].  The limit plays no part. *)
Theorem validateSecurity_valid_iff_permitted (ast : QueryAST) (config : option SecurityConfig) :
  (valid (validateSecurity (Some ast) config) = true
   <-> permits (resolveSecurityConfig config) ast)
  /\ (errors (validateSecurity (Some ast) config) = []
      <-> permits (resolveSecurityConfig config) ast).
Proof.
  split; [apply validateSecurity_valid_permits|apply validateSecurity_errors_nil].
Qed.

Lemma elem_of_FILTER_OPERATORS (o : FilterOperator) : o ∈ FILTER_OPERATORS.
Proof. apply (bool_decide_unpack _). by destruct o. Qed.

(** X3.  Without a configuration, and with one that sets neither
    [allowedFields] nor [operators], nothing is rejected: every AST is
    valid and no error is reported. *)
Theorem validateSecurity_default_permits_all (ast : QueryAST)
    (relations : option (list string)) (maxLimit defaultLimit defaultPage : option Z) :
  let config :=
    {| cfg_allowedFields := None; cfg_allowedRelations := relations;
       cfg_maxLimit := maxLimit; cfg_operators := None;
       cfg_defaultLimit := defaultLimit; cfg_defaultPage := defaultPage |} in
  valid (validateSecurity (Some ast) None) = true
  /\ errors (validateSecurity (Some ast) None) = []
  /\ valid (validateSecurity (Some ast) (Some config)) = true
  /\ errors (validateSecurity (Some ast) (Some config)) = [].
Proof.
  intros config.
  assert (Hp : forall c, allowedFields (resolveSecurityConfig c) = [] ->
                 operators (resolveSecurityConfig c) = FILTER_OPERATORS ->
                 errors (validateSecurity (Some ast) c) = []).
  { intros c Hf Ho. apply validateSecurity_errors_nil. split; [by left|].
    rewrite Ho. apply Forall_forall. intros n _. apply elem_of_FILTER_OPERATORS. }
  rewrite !validateSecurity_valid, (Hp None), (Hp (Some config)); done.
Qed.

(** X4.  Validating the AST that [validateSecurity] returns changes nothing
    more: the same AST comes back with the same errors, and the limit,
    already capped, raises no further warning. *)
Theorem validateSecurity_idempotent (ast : QueryAST) (config : option SecurityConfig) :
  let r := validateSecurity (Some ast) config in
  validateSecurity (Validator.ast r) config
  = {| valid := valid r; errors := errors r; warnings := []; Validator.ast := Validator.ast r |}.
Proof.
  unfold validateSecurity.
  pose proof (validateLimit_limit (limit (pagination ast))
                (maxLimit (resolveSecurityConfig config))) as Hmin.
  destruct (validateLimit (limit (pagination ast)) _) as [capped w]. simpl in Hmin.
  cbn [Validator.ast valid errors fields sort filter pagination limit offset].
  assert (Hle : capped <= maxLimit (resolveSecurityConfig config)) by lia.
  unfold validateLimit at 1. apply Z.leb_le in Hle. by rewrite Hle.
Qed.

End ValidatorPermits.

(** ** compiler/drizzle-pg.ts: the errors of a compilation *)

Section CompilerErrors.
Import Js Ast CompilerTypes Compiler.
Context {PgColumn SQL : Type} {drizzle : Drizzle.Builders PgColumn SQL}.
Implicit Types (table : @PgTable PgColumn) (errors : list CompileError).

Lemma compileOperator_brief (column : PgColumn) op v f :
  map brief (snd (compileOperator column op v f []))
  = if mistyped (f, op, v) then [(TYPE_MISMATCH, f)] else [].
Proof.
  destruct op; simpl; try done.
  by destruct v as [| | | | |[|lo [|hi [|]]]|].
Qed.

Lemma compileNode_brief table (node : FilterNode) :
  map brief (snd (compileNode table node []))
  = map (rejection table) (List.filter (rejected table) (fieldFilters node)).
Proof.
  induction node as [f op v|lop conditions IH] using FilterNode_ind'.
  - cbn [compileNode fieldFilters List.filter]. unfold rejected, rejection. cbn [fst snd].
    destruct (known table f) eqn:E;
      [destruct (getColumn_known table f E) as [column Hc]|];
      unfold known in E; rewrite E; cbn [negb orb].
    + rewrite Hc, compileOperator_brief.
      destruct (mistyped _); [|done]. cbn [map fst snd]. unfold known. by rewrite E.
    + cbn [map fst snd]. unfold known. by rewrite E.
  - rewrite compileNode_logical. cbn [fieldFilters].
    assert (Hcs : map brief (snd (compileConditions table conditions []))
                  = map (rejection table)
                      (List.filter (rejected table) (flat_map fieldFilters conditions))).
    { induction IH as [|c cs Hc _ IHcs]; simpl; [done|].
      rewrite List.filter_app, map_app, <- Hc, <- IHcs.
      destruct (compileNode table c []) as [r e1]. simpl.
      rewrite (compileConditions_errors table cs e1).
      destruct (compileConditions table cs []) as [rs e2]. simpl.
      by rewrite map_app. }
    rewrite <- Hcs.
    destruct (compileConditions table conditions []) as [cc e']. simpl.
    destruct cc as [|first others]; [done|].
    destruct lop; simpl; try done; by destruct others.
Qed.

Lemma compile_errors (ast : QueryAST) table :
  map brief (errors (compile ast table))
  = map (fun f => (UNKNOWN_COLUMN, f))
      (List.filter (fun f => negb (known table f))
         (default [] (fields ast) ++ map sort_field (sort ast)))
    ++ map (rejection table) (List.filter (rejected table) (fieldFiltersOf (filter ast))).
Proof.
  unfold compile.
  assert (Hcols : exists cols ws,
            compileFields (fields ast) table [] []
            = (cols,
               map (fun f => createCompileError UNKNOWN_COLUMN f
                               ("Column '" +:+ f +:+ "' does not exist in table schema"))
                 (List.filter (fun f => negb (known table f)) (default [] (fields ast))), ws)).
  { destruct (fields ast) as [fs|]; cbn [default].
    - rewrite compileFields_spec. cbn zeta. destruct (_ && _); eauto.
    - eauto. }
  destruct Hcols as (cols & ws & ->).
  cbn [compilePagination]. rewrite compileSort_spec, compileFilter_spec.
  cbn [errors]. rewrite List.filter_app, !map_app, !map_map. cbn [brief code field createCompileError].
  rewrite <- ?app_assoc. apply (f_equal2 app); [done|apply (f_equal2 app)].
  - induction (sort ast) as [|spec l IH]; simpl; [done|].
    destruct (negb _); simpl; by rewrite IH.
  - destruct (filter ast) as [node|]; [apply compileNode_brief|done].
Qed.

(** X5.  The errors of [compile], by code and field: [UNKNOWN_COLUMN] for each
    selected field and each sort field that the table lacks, then, for the
    filter nodes in order, [UNKNOWN_COLUMN] for a node on a column that the
    table lacks and [TYPE_MISMATCH] for a [between] on a known column whose
    value is not an array of two values.  So [UNSUPPORTED_OPERATOR] is
    never reported, and there is no error exactly when every name is a
    column and no [between] is mistyped. *)
Theorem compile_errors_characterised (ast : QueryAST) table :
  map brief (errors (compile ast table))
  = map (fun f => (UNKNOWN_COLUMN, f))
      (List.filter (fun f => negb (known table f))
         (default [] (fields ast) ++ map sort_field (sort ast)))
    ++ map (rejection table) (List.filter (rejected table) (fieldFiltersOf (filter ast)))
  /\ Forall (fun e => code e <> UNSUPPORTED_OPERATOR) (errors (compile ast table))
  /\ (errors (compile ast table) = []
      <-> Forall (fun f => known table f = true)
            (default [] (fields ast) ++ map sort_field (sort ast))
          /\ Forall (fun n => known table n.1.1 = true /\ mistyped n = false)
               (fieldFiltersOf (filter ast))).
Proof.
  pose proof (compile_errors ast table) as He. split_and!; [done| |].
  - assert (Hb : Forall (fun b => b.1 <> UNSUPPORTED_OPERATOR)
                   (map brief (errors (compile ast table)))).
    { rewrite He. apply Forall_app. split; apply Forall_forall.
      - by intros b (f & -> & _)%list_elem_of_fmap.
      - intros b (n & -> & _)%list_elem_of_fmap. unfold rejection. simpl.
        by destruct (known table _). }
    by rewrite Forall_fmap in Hb.
  - transitivity (map brief (errors (compile ast table)) = []).
    { by destruct (errors (compile ast table)). }
    rewrite He, app_nil, !map_filter_nil.
    assert (H1 : forall l : list string,
              Forall (fun f => negb (known table f) = false) l
              <-> Forall (fun f => known table f = true) l).
    { intros l. apply Forall_iff. intros x. apply negb_false_iff. }
    assert (H2 : forall l : list (string * FilterOperator * JsValue),
              Forall (fun n => rejected table n = false) l
              <-> Forall (fun n => known table n.1.1 = true /\ mistyped n = false) l).
    { intros l. apply Forall_iff. intros x. unfold rejected.
      by rewrite orb_false_iff, negb_false_iff. }
    by rewrite H1, H2.
Qed.

End CompilerErrors.

(** ** From the validator to the compiler *)

Section ValidatedCompile.
Import Js Ast SecurityTypes Compiler.
Context {PgColumn SQL : Type} {drizzle : Drizzle.Builders PgColumn SQL}.
Implicit Types (table : @PgTable PgColumn).



Lemma elem_of_List_filter {A} (p : A -> bool) (l : list A) (x : A) :
  x ∈ List.filter p l <-> x ∈ l /\ p x = true.
Proof. rewrite !list_elem_of_In. apply filter_In. Qed.




End ValidatedCompile.


(** ** ast/factory.ts *)

Section FactoryFacts.
Import Js Ast Parser Factory RoundTrip.

Lemma throwIf_ok (b : bool) (message : string) : throwIf b message = Ok tt <-> b = false.
Proof. by destruct b. Qed.

Lemma bind_ok {A} (r : Result unit) (k : Result A) (a : A) :
  (r ;; k) = Ok a <-> r = Ok tt /\ k = Ok a.
Proof. destruct r as [[]|m]; simpl; [tauto|]. split; [done|by intros [? _]]. Qed.

Lemma forEach_ok {A} (f : A -> Result unit) (l : list A) :
  forEach f l = Ok tt <-> Forall (fun x => f x = Ok tt) l.
Proof.
  induction l as [|x l IH]; simpl.
  - split; [constructor|done].
  - rewrite bind_ok, IH. split; [intros []; by constructor|by inversion 1].
Qed.

Lemma length_eqb_0_false {A} (l : list A) : (length l =? 0)%nat = false <-> l <> [].
Proof. destruct l; simpl; split; intros; congruence. Qed.

Lemma string_length_0 (s : string) : (String.length s =? 0)%nat = false <-> truthy s = true.
Proof. by destruct s. Qed.


Lemma validateFilterNode_ok (node : FilterNode) :
  validateFilterNode node = Ok tt <-> wellFormed node = true.
Proof.
  induction node as [f op v|lop conditions IH] using FilterNode_ind'.
  - cbn [validateFilterNode wellFormed].
    rewrite bind_ok, !throwIf_ok, string_length_0, andb_true_iff, negb_false_iff. done.
  - cbn [validateFilterNode wellFormed].
    rewrite !bind_ok, !throwIf_ok, forEach_ok, andb_true_iff, length_eqb_0_false.
    assert (Hall : Forall (fun c => validateFilterNode c = Ok tt) conditions
                   <-> forallb wellFormed conditions = true).
    { split.
      - intros H. apply forallb_Forall_true.
        rewrite Forall_forall in *. intros c Hc. by apply IH, H.
      - intros H%forallb_true_Forall.
        rewrite Forall_forall in *. intros c Hc. by apply IH, H. }
    rewrite Hall.
    assert (Hlop : negb (includes LOGICAL_OPERATORS lop) = false) by (by destruct lop).
    assert (Hlen : conditions <> [] <-> (0 <? length conditions)%nat = true).
    { destruct conditions; split; intros H; try done. }
    rewrite <- Hlen. tauto.
Qed.




(** X8.  The node factories return the node made of their arguments, or
    throw: [createFieldFilter] wants a non-empty field,
    [createLogicalFilter] wants conditions, each satisfying the invariants
    of a filter tree, and [createSortSpec] a non-empty field, its direction
    being [asc] by default.  So every tree they return is well formed. *)
Theorem factory_nodes_well_formed :
  (forall f operator value node,
     createFieldFilter f operator value = Ok node
     <-> f <> "" /\ node = FieldFilter f operator value)
  /\ (forall operator conditions node,
        createLogicalFilter operator conditions = Ok node
        <-> conditions <> [] /\ Forall (fun c => wellFormed c = true) conditions
            /\ node = LogicalFilter operator conditions)
  /\ (forall f direction spec,
        createSortSpec f direction = Ok spec
        <-> f <> "" /\ spec = {| sort_field := f; direction := default asc direction |})
  /\ (forall f operator value operator' conditions node,
        createFieldFilter f operator value = Ok node
        \/ createLogicalFilter operator' conditions = Ok node ->
        wellFormed node = true).
Proof.
  assert (Hfield : forall f operator value node,
            createFieldFilter f operator value = Ok node
            <-> f <> "" /\ node = FieldFilter f operator value).
  { intros f operator value node. unfold createFieldFilter.
    rewrite !bind_ok, !throwIf_ok, string_length_0, truthy_spec, negb_false_iff,
      includes_FILTER_OPERATORS.
    split; [intros (? & _ & [= <-])|intros [? ->]]; done. }
  assert (Hlogical : forall operator conditions node,
            createLogicalFilter operator conditions = Ok node
            <-> conditions <> [] /\ Forall (fun c => wellFormed c = true) conditions
                /\ node = LogicalFilter operator conditions).
  { intros operator conditions node. unfold createLogicalFilter.
    rewrite !bind_ok, !throwIf_ok, length_eqb_0_false, forEach_ok.
    assert (Hall : Forall (fun c => validateFilterNode c = Ok tt) conditions
                   <-> Forall (fun c => wellFormed c = true) conditions).
    { apply Forall_iff. intros c. apply validateFilterNode_ok. }
    rewrite Hall. destruct operator; simpl;
      (split; [intros (_ & ? & ? & [= <-])|intros (? & ? & ->)]; done). }
  split_and!; [done|done| |].
  - intros f direction spec. unfold createSortSpec.
    rewrite !bind_ok, !throwIf_ok, string_length_0, truthy_spec.
    destruct direction as [[]|]; simpl;
      (split; [intros (? & _ & [= <-])|intros [? ->]]; done).
  - intros f operator value operator' conditions node
      [(Hf & ->)%Hfield|(Hne & Hall & ->)%Hlogical]; cbn [wellFormed].
    + apply truthy_spec in Hf. by rewrite Hf, includes_FILTER_OPERATORS.
    + apply forallb_Forall_true in Hall. rewrite Hall. by destruct conditions.
Qed.

End FactoryFacts.

(** ** ast/parser.ts: errors and warnings *)

Section ParserDiagnostics.
Import Js Ast Parser.
Implicit Types (errors : list ParseError) (path : list string).

Lemma pushedTo_refl (P : ParseError -> Prop) errors : pushedTo P errors errors.
Proof. exists []. by rewrite app_nil_r. Qed.

Lemma pushedTo_trans (P : ParseError -> Prop) errors1 errors2 errors3 :
  pushedTo P errors1 errors2 -> pushedTo P errors2 errors3 -> pushedTo P errors1 errors3.
Proof.
  intros (n1 & -> & H1) (n2 & -> & H2). exists (n1 ++ n2).
  rewrite app_assoc. split; [done|by apply Forall_app].
Qed.

Lemma pushedTo_push (P : ParseError -> Prop) errors (e : ParseError) :
  P e -> pushedTo P errors (push errors e).
Proof. intros He. exists [e]. split; [done|by constructor]. Qed.

Lemma collect_pushedTo (P : ParseError -> Prop) parseOne keys errors conditions errors' :
  (forall key e r e', key ∈ keys -> parseOne key e = Some (r, e') -> pushedTo P e e') ->
  collect parseOne keys errors = Some (conditions, errors') ->
  pushedTo P errors errors'.
Proof.
  rewrite collect_fold. generalize (@nil FilterNode) as acc. revert errors.
  induction keys as [|k keys IH]; intros errors acc Hone; simpl.
  - intros [= _ <-]. apply pushedTo_refl.
  - destruct (parseOne k errors) as [[r e1]|] eqn:Ek.
    + assert (H1 : pushedTo P errors e1) by (eapply Hone; [left|exact Ek]).
      assert (Hrest : forall key e r e', key ∈ keys -> parseOne key e = Some (r, e') ->
                pushedTo P e e').
      { intros key e r' e' Hin. apply Hone. by right. }
      destruct r as [c|]; intros H; eapply pushedTo_trans; eauto.
    + by rewrite collectStep_None.
Qed.

Lemma parseFieldFilterFromObject_pushedTo (f : string) (v : JsValue) errors path :
  pushedTo (fun e => code e = INVALID_OPERATOR) errors
    (snd (parseFieldFilterFromObject f v errors path)).
Proof.
  unfold parseFieldFilterFromObject.
  destruct v as [| | | | |items|obj]; try apply pushedTo_refl.
  destruct (length _ =? 0)%nat; [apply pushedTo_refl|].
  destruct (1 <? length _)%nat.
  - match goal with |- context [fold_left ?step ?ops0 ?init] =>
      assert (Hloop : forall ops acc errs,
                pushedTo (fun e => code e = INVALID_OPERATOR) errs
                  (snd (fold_left step ops (acc, errs))))
    end.
    { induction ops as [|op ops IH]; intros acc errs; simpl; [apply pushedTo_refl|].
      destruct (isValidFilterOperator op); [apply IH|].
      eapply pushedTo_trans; [|apply IH]. by apply pushedTo_push. }
    specialize (Hloop (map fst obj) [] errors).
    destruct (fold_left _ _ _) as [conditions errs]. simpl in Hloop.
    by destruct conditions as [|c [|c' cs]].
  - destruct (truthy _); simpl; [|apply pushedTo_refl].
    destruct (isValidFilterOperator _); simpl; [apply pushedTo_refl|].
    by apply pushedTo_push.
Qed.

Lemma pushedTo_weaken (P Q : ParseError -> Prop) errors errors' :
  (forall e, P e -> Q e) -> pushedTo P errors errors' -> pushedTo Q errors errors'.
Proof. intros HPQ (new & -> & Hnew). exists new. split; [done|]. by eapply Forall_impl. Qed.

Ltac case_first_key :=
  match goal with
  | |- context [if ?b then isValidLogicalOperator ?k else None] =>
      destruct (if b then isValidLogicalOperator k else None) as [operator|]
  end.

Ltac use_collect_pushedTo :=
  match goal with
  | |- context [collect ?f ?keys ?e] =>
      let Hc := fresh "Hc" in
      let Hp := fresh "Hp" in
      destruct (collect f keys e) as [[conditions errs]|] eqn:Hc; [|done];
      assert (Hp : pushedTo parserCode e errs);
      [eapply collect_pushedTo; [clear Hc|exact Hc]|clear Hc]
  end.

Lemma parseFilterN_pushedTo (n : nat) :
  (forall v errors path r errors',
     parseFilterN n v errors path = Some (r, errors') -> pushedTo parserCode errors errors')
  /\ (forall operator v errors path r errors',
        parseLogicalFilterN n operator v errors path = Some (r, errors') ->
        pushedTo parserCode errors errors').
Proof.
  induction n as [|n [IHf IHl]]; [split; intros; discriminate|].
  assert (Hfield : forall f v errors path r errors',
            parseFieldFilterFromObject f v errors path = (r, errors') ->
            pushedTo parserCode errors errors').
  { intros f v errors path r errors' H.
    pose proof (parseFieldFilterFromObject_pushedTo f v errors path) as Hp.
    rewrite H in Hp. eapply pushedTo_weaken; [|exact Hp]. by right. }
  assert (Hinvalid : forall errors (e : ParseError),
            code e = INVALID_VALUE -> pushedTo parserCode errors (push errors e)).
  { intros errors e He. apply pushedTo_push. by left. }
  split.
  - intros v errors path r errors'. cbn [parseFilterN].
    destruct v as [| | | | |items|props];
      try (intros [= _ <-]; first [apply pushedTo_refl|by apply Hinvalid]).
    all: destruct (length _ =? 0)%nat; [intros [= _ <-]; apply pushedTo_refl|].
    all: case_first_key; [by apply IHl|].
    all: destruct (1 <? length _)%nat.
    2,4: destruct (negb (truthy _)); [intros [= _ <-]; apply pushedTo_refl|];
         intros [= H]; by eapply Hfield.
    all: use_collect_pushedTo.
    1,3: intros key e r' e' _; cbv beta; destruct (isValidLogicalOperator key);
         [by apply IHl|]; intros [= H]; by eapply Hfield.
    all: destruct conditions as [|c [|c' cs]]; by intros [= _ <-].
  - intros operator v errors path r errors'. cbn [parseLogicalFilterN].
    destruct v as [| | | | |items|props];
      try (intros [= _ <-]; first [apply pushedTo_refl|by apply Hinvalid]).
    + use_collect_pushedTo.
      { intros key e r' e' _ H. cbv beta in H. by apply IHf in H. }
      destruct conditions as [|c cs]; by intros [= _ <-].
    + destruct (_ && _).
      * use_collect_pushedTo.
        { intros key e r' e' _ H. cbv beta in H. by apply IHf in H. }
        destruct conditions as [|c cs]; by intros [= _ <-].
      * destruct (parseFilterN n _ _ _) as [[[c|] e]|] eqn:Ef; [| |done].
        -- intros [= _ <-]. by apply IHf in Ef.
        -- intros [= _ <-]. apply IHf in Ef. eapply pushedTo_trans; [exact Ef|].
           by apply Hinvalid.
Qed.

Lemma parseFilter_pushedTo (v : JsValue) errors path :
  pushedTo parserCode errors (snd (parseFilter v errors path)).
Proof.
  pose proof (parseFilter_total v errors path) as Ht.
  destruct (parseFilter v errors path) as [r errors'].
  by apply (proj1 (parseFilterN_pushedTo _)) in Ht.
Qed.

Lemma parse_errors (input : QueryInput) :
  errors (parse input) = snd (parseFilter (in_filter input) [] ["filter"]).
Proof.
  unfold parse. destruct (parseFilter _ _ _) as [f errs]. by destruct (existsb _ errs).
Qed.

Lemma parse_codes (input : QueryInput) : Forall parserCode (errors (parse input)).
Proof.
  rewrite parse_errors.
  by destruct (parseFilter_pushedTo (in_filter input) [] ["filter"]) as (new & -> & Hcodes).
Qed.

Lemma parse_ast_None (input : QueryInput) :
  Parser.ast (parse input) = None
  <-> Exists (fun e => code e = INVALID_VALUE) (errors (parse input)).
Proof.
  pose proof (parse_codes input) as Hcodes. unfold parse in *.
  destruct (parseFilter (in_filter input) [] ["filter"]) as [f errs].
  assert (Hcrit : existsb (fun e => bool_decide (code e = INVALID_VALUE)
                                    || bool_decide (code e = SECURITY_VIOLATION)
                                    || bool_decide (code e = EXCEEDED_LIMIT)) errs = true
                  <-> Exists (fun e => code e = INVALID_VALUE) errs).
  { assert (Hc : Forall parserCode errs) by (by destruct (existsb _ errs)).
    rewrite existsb_exists, Exists_exists. rewrite Forall_forall in Hc.
    split; intros (e & Hin & He); exists e.
    - apply list_elem_of_In in Hin. split; [done|].
      destruct (Hc e Hin) as [Hcode|Hcode]; [done|]. rewrite Hcode in He. done.
    - split; [by apply list_elem_of_In|]. by rewrite He. }
  destruct (existsb _ errs) eqn:Ec; cbn [errors Parser.ast].
  - by rewrite <- Hcrit.
  - split; [done|]. intros H%Hcrit. done.
Qed.

(** X9.  What [parse] reports.  Its errors are those of the filter alone, each
    with the code [INVALID_VALUE] or [INVALID_OPERATOR]; it returns no AST
    exactly when one of them is an [INVALID_VALUE], so an invalid operator
    is reported and the AST still returned.  Its only warning is
    [DEFAULT_APPLIED] for [page], given when [limit] is there and [page]
    is not. *)
Theorem parse_diagnostics (input : QueryInput) :
  errors (parse input) = snd (parseFilter (in_filter input) [] ["filter"])
  /\ Forall parserCode (errors (parse input))
  /\ (Parser.ast (parse input) = None
      <-> Exists (fun e => code e = INVALID_VALUE) (errors (parse input)))
  /\ map w_code (warnings (parse input))
     = (if isUndefined (in_page input) && negb (isUndefined (in_limit input))
        then [DEFAULT_APPLIED] else [])
  /\ Forall (fun w => w_field w = "page") (warnings (parse input)).
Proof.
  split_and!; [apply parse_errors|apply parse_codes|apply parse_ast_None| |].
  all: unfold parse; destruct (parseFilter _ _ _) as [f errs];
    destruct (existsb _ errs); cbn [warnings].
  all: by destruct (in_page input), (in_limit input); repeat constructor.
Qed.

End ParserDiagnostics.

(** ** builder/index.ts *)

Section BuilderFacts.
Import Js Ast SecurityTypes Builder.
Variable qsParse : string -> JsValue.

Lemma resolve_asSecurityConfig (resolved : ResolvedSecurityConfig) :
  resolveSecurityConfig (Some (asSecurityConfig resolved)) = resolved.
Proof. by destruct resolved. Qed.

Lemma validateSecurity_ast (parsed : QueryAST) (config : option SecurityConfig) :
  Validator.ast (Validator.validateSecurity (Some parsed) config)
  = Some (Validator.withLimit parsed
            (Z.min (limit (pagination parsed)) (maxLimit (resolveSecurityConfig config)))).
Proof.
  unfold Validator.validateSecurity.
  pose proof (validateLimit_limit (limit (pagination parsed))
                (maxLimit (resolveSecurityConfig config))) as Hmin.
  destruct (Validator.validateLimit _ _) as [capped w]. simpl in *. by rewrite Hmin.
Qed.

Lemma permits_withLimit (resolved : ResolvedSecurityConfig) (parsed : QueryAST) (l : Z) :
  Validator.permits resolved (Validator.withLimit parsed l) <-> Validator.permits resolved parsed.
Proof. done. Qed.

Lemma parseInternal_ast (resolved : ResolvedSecurityConfig) (r : Parser.ParserResult)
    (ast : QueryAST) :
  p_ast (parseInternal resolved r) = Some ast
  <-> exists parsed,
        Parser.ast r = Some parsed
        /\ Validator.permits resolved parsed
        /\ ast = Validator.withLimit parsed
                   (Z.min (limit (pagination parsed)) (maxLimit resolved)).
Proof.
  unfold parseInternal. destruct (Parser.ast r) as [parsed|]; [|naive_solver].
  pose proof (validateSecurity_valid_permits parsed (Some (asSecurityConfig resolved)))
    as Hvalid.
  pose proof (validateSecurity_ast parsed (Some (asSecurityConfig resolved))) as Hast.
  rewrite resolve_asSecurityConfig in Hvalid, Hast.
  destruct (Validator.valid _) eqn:Ev; cbn [negb p_ast].
  - rewrite Hast. split.
    + intros [= <-]. exists parsed. split_and!; [done|by apply Hvalid|done].
    + by intros (? & [= <-] & _ & ->).
  - split; [done|]. intros (? & [= <-] & Hp%Hvalid & _). done.
Qed.

Lemma parseInternal_errors (resolved : ResolvedSecurityConfig) (r : Parser.ParserResult) :
  is_Some (p_ast (parseInternal resolved r)) ->
  p_errors (parseInternal resolved r) = map OfParser (Parser.errors r).
Proof.
  unfold parseInternal. destruct (Parser.ast r) as [parsed|]; [|by intros [? [=]]].
  pose proof (validateSecurity_valid parsed (Some (asSecurityConfig resolved))) as Hv.
  destruct (Validator.valid _); cbn [negb p_ast p_errors]; [|by intros [? [=]]].
  symmetry in Hv. apply bool_decide_eq_true in Hv. rewrite Hv. intros _.
  by rewrite app_nil_r.
Qed.

(** X18.  What [parse] of a query builder lets through.  It returns an AST
    exactly when the parser returns one and the configuration permits
    it (fields and operators), and the AST returned is the parsed one
    with its limit capped to [maxLimit]: so its limit never exceeds
    [maxLimit] and it is itself permitted.  The errors next to a
    returned AST are those of the parser, all [INVALID_OPERATOR]: the
    AST is there although errors are. *)
Theorem builder_parse_lets_through {TTable TQuery : Type}
    (options : CreateQueryBuilderOptions TTable TQuery) (input : Parser.QueryInput)
    (ast : QueryAST) :
  let builder := createQueryBuilder qsParse options in
  let resolved := resolveSecurityConfig (config options) in
  (p_ast (parse builder input) = Some ast
   <-> exists parsed,
         Parser.ast (Parser.parse input) = Some parsed
         /\ Validator.permits resolved parsed
         /\ ast = Validator.withLimit parsed
                    (Z.min (limit (pagination parsed)) (maxLimit resolved)))
  /\ (p_ast (parse builder input) = Some ast ->
      limit (pagination ast) <= maxLimit resolved
      /\ Validator.permits resolved ast
      /\ p_errors (parse builder input) = map OfParser (Parser.errors (Parser.parse input))
      /\ Forall (fun e => Parser.code e = Parser.INVALID_OPERATOR)
           (Parser.errors (Parser.parse input)))
  /\ getSecurityConfig builder = asSecurityConfig resolved.
Proof.
  intros builder resolved. cbn [parse builder createQueryBuilder].
  split_and!; [apply parseInternal_ast| |done].
  intros Hast. pose proof Hast as (parsed & Hparsed & Hp & ->)%parseInternal_ast.
  split_and!.
  - unfold Validator.withLimit. cbn [limit pagination]. subst resolved. lia.
  - by apply permits_withLimit.
  - apply parseInternal_errors. by rewrite Hast.
  - pose proof (parse_codes input) as Hcodes.
    assert (Hno : ~ Exists (fun e => Parser.code e = Parser.INVALID_VALUE)
                    (Parser.errors (Parser.parse input))).
    { intros H%parse_ast_None. by rewrite H in Hparsed. }
    rewrite Forall_forall in *. intros e He. destruct (Hcodes e He) as [Hc|Hc]; [|done].
    destruct Hno. apply Exists_exists. eauto.
Qed.



End BuilderFacts.

(** ** ast/parser.ts: the shapes of a filter *)

Section FilterShapes.
Import Js Ast Parser.
Implicit Types (errors : list ParseError) (path : list string).

(** *** A value in place of an operator object *)

Lemma parseFilterN_field (n : nat) (f : string) (v : JsValue) errors path :
  isValidLogicalOperator f = None ->
  parseFilterN (S n) (JObj [(f, v)]) errors path
  = Some (if truthy f then parseFieldFilterFromObject f v errors (path ++ [f])
          else (None, errors)).
Proof.
  intros Hf. cbn [parseFilterN objectKeys entries map fst length Nat.eqb hd andb].
  rewrite Hf. destruct (truthy f) eqn:Et; cbn [Nat.ltb Nat.leb negb]; [|done].
  unfold getProp. cbn [entries lookupProp]. by rewrite String.eqb_refl.
Qed.

(** X10.  A field given a value that is not an object is compared with [eq]:
    [{ f: v }] parses as [{ f: { eq: v } }] does, to the condition
    [f eq v], for a boolean, a number, a string or an array [v] and a
    field that is not named after a logical operator.  An empty field
    name gives no filter and no error. *)
Theorem parseFilter_value_means_eq (f : string) (v : JsValue) errors path :
  isValidLogicalOperator f = None ->
  isPlainValue v = true ->
  parseFilter (JObj [(f, v)]) errors path
  = (if truthy f then Some (FieldFilter f op_eq v) else None, errors)
  /\ parseFilter (JObj [(f, JObj [("eq", v)])]) errors path
     = parseFilter (JObj [(f, v)]) errors path.
Proof.
  intros Hf Hv.
  assert (H1 : parseFilter (JObj [(f, v)]) errors path
               = (if truthy f then Some (FieldFilter f op_eq v) else None, errors)).
  { apply (parseFilter_eq 1). rewrite parseFilterN_field by done.
    destruct (truthy f); [|done]. by destruct v. }
  split; [done|]. rewrite H1.
  apply (parseFilter_eq 1). rewrite parseFilterN_field by done.
  by destruct (truthy f).
Qed.

(** *** Several operators on one field *)

Lemma lookupProp_NoDup (props : list (string * JsValue)) (k : string) (v : JsValue) :
  NoDup (map fst props) -> (k, v) ∈ props -> lookupProp props k = v.
Proof.
  induction props as [|[k' v'] props IH]; simpl; [by intros _ ?%elem_of_nil|].
  intros [Hk' Hnd]%NoDup_cons [[= <- <-]|Hin]%elem_of_cons.
  - by rewrite String.eqb_refl.
  - destruct (String.eqb_spec k' k) as [->|Hne]; [|by apply IH].
    destruct Hk'. apply list_elem_of_fmap. by exists (k, v).
Qed.

Lemma operators_loop (f : string) (obj : list (string * JsValue)) path
    (ops : list string) (conditions : list FilterNode) errors :
  fold_left (fun '(conditions, errors) op =>
      match isValidFilterOperator op with
      | Some o => (push conditions (FieldFilter f o (lookupProp obj op)), errors)
      | None =>
          (conditions,
           push errors
             {| code := INVALID_OPERATOR;
                field := join "." path;
                message := "Invalid filter operator: " +:+ dquote +:+ op +:+ dquote;
                Parser.path := path ++ [op] |})
      end) ops (conditions, errors)
  = (conditions
     ++ omap (fun op => (fun o => FieldFilter f o (lookupProp obj op))
                        <$> isValidFilterOperator op) ops,
     errors
     ++ map (invalidOperatorError path)
          (List.filter (fun op => bool_decide (isValidFilterOperator op = None)) ops)).
Proof.
  revert conditions errors. induction ops as [|op ops IH]; intros conditions errors;
    cbn [fold_left omap list_omap List.filter map].
  - by rewrite !app_nil_r.
  - destruct (isValidFilterOperator op) as [o|] eqn:Eo; rewrite IH;
      cbn [fmap option_fmap option_map]; unfold push; rewrite <- !app_assoc; [done|].
    by rewrite bool_decide_eq_true_2.
Qed.

(** X11.  An object with several keys under a field is read key by key: each
    key that is a [FilterOperator] gives a condition on the field with the
    value of the key, each other key an [INVALID_OPERATOR] error with the
    path of the key, and the conditions that are left are joined with
    [and] (one is returned as it is, none gives [null]).  So
    [{ age: { gte: 18, lte: 65 } }] is a range. *)
Theorem parseFieldFilterFromObject_operators (f : string) (props : list (string * JsValue))
    errors path :
  (1 < length props)%nat ->
  NoDup (map fst props) ->
  parseFieldFilterFromObject f (JObj props) errors path
  = (match omap (fun kv => (fun o => FieldFilter f o kv.2) <$> isValidFilterOperator kv.1)
             props with
     | [] => None
     | [condition] => Some condition
     | conditions => Some (LogicalFilter lop_and conditions)
     end,
     errors
     ++ map (invalidOperatorError path)
          (List.filter (fun op => bool_decide (isValidFilterOperator op = None))
             (map fst props))).
Proof.
  intros Hlen Hnd. unfold parseFieldFilterFromObject.
  rewrite length_map.
  destruct (length props =? 0)%nat eqn:E0; [apply Nat.eqb_eq in E0; lia|].
  apply Nat.ltb_lt in Hlen. rewrite Hlen. rewrite operators_loop. cbn [app].
  assert (Hmap : omap (fun op => (fun o => FieldFilter f o (lookupProp props op))
                                 <$> isValidFilterOperator op) (map fst props)
                 = omap (fun kv => (fun o => FieldFilter f o kv.2)
                                   <$> isValidFilterOperator kv.1) props).
  { assert (Hsub : forall l, l ⊆ props ->
              omap (fun op => (fun o => FieldFilter f o (lookupProp props op))
                              <$> isValidFilterOperator op) (map fst l)
              = omap (fun kv => (fun o => FieldFilter f o kv.2)
                                <$> isValidFilterOperator kv.1) l).
    { induction l as [|[k v] l IH]; intros Hl; [done|].
      cbn [map omap list_omap fst snd].
      rewrite (lookupProp_NoDup props k v) by (done || apply Hl; left).
      rewrite IH; [done|]. intros x Hx. apply Hl. by right. }
    by apply Hsub. }
  rewrite Hmap.
  by destruct (omap _ props) as [|c [|c' cs]].
Qed.

End FilterShapes.

(** A witness of [parseFilter_value_means_eq]: [{ title: "hello" }]. *)
Lemma parseFilter_value_means_eq_witness :
  Parser.parseFilter (Js.JObj [("title", Js.JStr "hello")]) [] ["filter"]
  = (Some (Ast.FieldFilter "title" Ast.op_eq (Js.JStr "hello")), [])
  /\ Parser.parseFilter (Js.JObj [("title", Js.JObj [("eq", Js.JStr "hello")])]) [] ["filter"]
     = Parser.parseFilter (Js.JObj [("title", Js.JStr "hello")]) [] ["filter"].
Proof.
  exact (parseFilter_value_means_eq "title" (Js.JStr "hello") [] ["filter"] eq_refl eq_refl).
Defined.

(** A witness of [parseFieldFilterFromObject_operators]: a range on [age]
    with a misspelt third key. *)
Lemma parseFieldFilterFromObject_operators_witness :
  Parser.parseFieldFilterFromObject "age"
    (Js.JObj [("gte", Js.JNum 18); ("lte", Js.JNum 65); ("lessThan", Js.JNum 70)])
    [] ["filter"; "age"]
  = (Some (Ast.LogicalFilter Ast.lop_and
             [Ast.FieldFilter "age" Ast.op_gte (Js.JNum 18);
              Ast.FieldFilter "age" Ast.op_lte (Js.JNum 65)]),
     [Parser.invalidOperatorError ["filter"; "age"] "lessThan"]).
Proof.
  apply (parseFieldFilterFromObject_operators "age"
           [("gte", Js.JNum 18); ("lte", Js.JNum 65); ("lessThan", Js.JNum 70)]
           [] ["filter"; "age"]).
  - simpl. lia.
  - apply (bool_decide_unpack _). by vm_compute.
Defined.

(** ** ast/parser.ts: conditions in an object with indices for keys *)

Section ArrayLike.
Import Js Ast Parser.
Implicit Types (errors : list ParseError) (path : list string).

Lemma pretty_N_go_digits (x : N) (s : string) :
  forallb isDigit (list_ascii_of_string s) = true ->
  forallb isDigit (list_ascii_of_string (pretty_N_go x s)) = true.
Proof.
  revert s. induction (N.lt_wf_0 x) as [x _ IH]. intros s Hs.
  destruct (decide (x = 0%N)) as [->|Hx]; [by rewrite pretty_N_go_0|].
  rewrite pretty_N_go_step by lia. apply IH; [apply N.div_lt; lia|].
  cbn [list_ascii_of_string forallb]. rewrite Hs, andb_true_r.
  apply pretty_N_char_digit, N.mod_lt. lia.
Qed.

Lemma allDigits_pretty_nat (i : nat) : allDigits (pretty i) = true.
Proof.
  unfold allDigits. fold (truthy (pretty i)). rewrite pretty_nat_truthy. cbn [andb].
  unfold pretty, pretty_nat, pretty, pretty_N. case_decide; [done|].
  by apply pretty_N_go_digits.
Qed.

Lemma keyNumber_pretty_nat (i : nat) : keyNumber (pretty i) = Z.of_nat i.
Proof.
  unfold keyNumber, pretty, pretty_nat. destruct (N.of_nat i) as [|p] eqn:Ei.
  - assert (i = 0%nat) as -> by lia. done.
  - rewrite parseInt_pretty_pos. simpl. lia.
Qed.

Lemma insertKey_last (key : string) (sorted : list string) :
  Forall (fun k => keyNumber k <= keyNumber key) sorted ->
  insertKey key sorted = sorted ++ [key].
Proof.
  induction 1 as [|k sorted Hk _ IH]; simpl; [done|].
  destruct (Z.ltb_spec (keyNumber key) (keyNumber k)); [lia|]. by rewrite IH.
Qed.

Lemma sortKeys_sorted (keys : list string) :
  StronglySorted (fun a b => keyNumber a <= keyNumber b) keys -> sortKeys keys = keys.
Proof.
  unfold sortKeys. intros Hs.
  assert (Hgen : forall acc,
            Forall (fun a => Forall (fun k => keyNumber a <= keyNumber k) keys) acc ->
            fold_left (fun sorted key => insertKey key sorted) keys acc = acc ++ keys).
  { induction Hs as [|k keys Hs IH Hk]; intros acc Hacc; simpl; [by rewrite app_nil_r|].
    rewrite insertKey_last.
    - rewrite IH; [by rewrite <- app_assoc|].
      apply Forall_app. split.
      + eapply Forall_impl; [exact Hacc|]. intros a Ha. by apply Forall_inv_tail in Ha.
      + by constructor.
    - eapply Forall_impl; [exact Hacc|]. intros a Ha. by apply Forall_inv in Ha. }
  apply (Hgen []). constructor.
Qed.

Lemma objectKeys_JArr (items : list JsValue) :
  objectKeys (JArr items) = pretty <$> seq 0 (length items).
Proof.
  unfold objectKeys. cbn [entries]. change (map fst ?l) with (fst <$> l).
  rewrite fmap_imap. apply (imap_seq_0 items (fun i => pretty i)).
Qed.

Lemma indices_sorted (i n : nat) :
  StronglySorted (fun a b => keyNumber a <= keyNumber b) (pretty <$> seq i n).
Proof.
  revert i. induction n as [|n IH]; intros i; cbn [seq fmap list_fmap]; constructor.
  - apply IH.
  - rewrite Forall_fmap, Forall_seq. intros j Hj. cbn.
    rewrite !keyNumber_pretty_nat. lia.
Qed.

Lemma parseLogicalFilterN_array_like (n : nat) (operator : LogicalOperator)
    (items : list JsValue) errors path :
  items <> [] ->
  parseLogicalFilterN n operator (JObj (entries (JArr items))) errors path
  = parseLogicalFilterN n operator (JArr items) errors path.
Proof.
  intros Hne. destruct n as [|n]; [done|]. cbn [parseLogicalFilterN].
  change (objectKeys (JObj (entries (JArr items)))) with (objectKeys (JArr items)).
  rewrite objectKeys_JArr.
  assert (Hd : forallb allDigits (pretty <$> seq 0 (length items)) = true).
  { apply forallb_Forall_true. rewrite Forall_fmap. apply Forall_forall.
    intros i _. apply allDigits_pretty_nat. }
  rewrite Hd, length_fmap, length_seq.
  replace (0 <? length items)%nat with true by (by destruct items).
  cbn [andb]. rewrite sortKeys_sorted by apply indices_sorted. done.
Qed.

(** X12.  The conditions of a logical operator may come as an object whose keys
    are the indices [0], [1], ... (the form qs gives a long array): it
    parses as the array of its values does, when there is a condition at
    all.  With none the two differ: the empty array gives no filter and no
    error, the empty object an [INVALID_VALUE] error. *)
Theorem parseFilter_array_like (operator : LogicalOperator) (items : list JsValue)
    errors path :
  (items <> [] ->
   parseFilter (JObj [(logicalName operator, JObj (entries (JArr items)))]) errors path
   = parseFilter (JObj [(logicalName operator, JArr items)]) errors path)
  /\ parseFilter (JObj [(logicalName operator, JArr [])]) errors path = (None, errors)
  /\ exists e,
       parseFilter (JObj [(logicalName operator, JObj [])]) errors path = (None, errors ++ [e])
       /\ code e = INVALID_VALUE
       /\ Parser.path e = path ++ [logicalName operator].
Proof.
  split_and!.
  - intros Hne.
    pose proof (parseFilter_total (JObj [(logicalName operator, JArr items)]) errors path)
      as Ht.
    apply (parseFilter_eq (enough (JObj [(logicalName operator, JArr items)]))).
    rewrite <- Ht. unfold enough.
    generalize (2 * depth (JObj [(logicalName operator, JArr items)]))%nat. intros n.
    cbn [parseFilterN objectKeys entries map fst length Nat.eqb hd andb].
    destruct (isValidLogicalOperator_name operator) as [-> ->].
    unfold getProp. cbn [entries lookupProp]. rewrite String.eqb_refl.
    by apply parseLogicalFilterN_array_like.
  - apply (parseFilter_eq 2). by destruct operator.
  - destruct operator; eexists; (split; [by apply (parseFilter_eq 3)|done]).
Qed.

End ArrayLike.

(** ** ast/parser.ts: the names that the parser returns *)

Section ParsedNames.
Import Js Ast Parser Printer RoundTrip.

Lemma trimStart_head (s : string) :
  match trimStart s with
  | EmptyString => True
  | String c _ => isWhiteSpace c = false
  end.
Proof. induction s as [|c s IH]; simpl; [done|]. by destruct (isWhiteSpace c) eqn:E. Qed.

Lemma trimEnd_idem (s : string) : trimEnd (trimEnd s) = trimEnd s.
Proof.
  induction s as [|c s IH]; [done|]. cbn [trimEnd].
  destruct (trimEnd s) as [|d t] eqn:E.
  - destruct (isWhiteSpace c) eqn:Ec; [done|]. cbn [trimEnd]. by rewrite Ec.
  - cbn [trimEnd] in *. by rewrite IH.
Qed.

Lemma trimEnd_head (c : ascii) (s : string) :
  isWhiteSpace c = false -> exists t, trimEnd (String c s) = String c t.
Proof.
  intros Hc. cbn [trimEnd]. destruct (trimEnd s); rewrite ?Hc; eauto.
Qed.

Lemma trim_fixed (s : string) : trimStart (trim s) = trim s /\ trimEnd (trim s) = trim s.
Proof.
  unfold trim. split; [|apply trimEnd_idem].
  pose proof (trimStart_head s) as Hh. destruct (trimStart s) as [|c t]; [done|].
  destruct (trimEnd_head c t Hh) as [t' ->]. cbn [trimStart]. by rewrite Hh.
Qed.

Lemma commaFree_trimStart (s : string) : commaFree s = true -> commaFree (trimStart s) = true.
Proof.
  unfold commaFree. induction s as [|c s IH]; simpl; [done|].
  intros [Hc Hs]%andb_true_iff. destruct (isWhiteSpace c); [auto|].
  simpl. by rewrite Hc, Hs.
Qed.

Lemma commaFree_trimEnd (s : string) : commaFree s = true -> commaFree (trimEnd s) = true.
Proof.
  unfold commaFree. induction s as [|c s IH]; [done|]. cbn [list_ascii_of_string forallb].
  intros [Hc Hs]%andb_true_iff. cbn [trimEnd]. specialize (IH Hs).
  destruct (trimEnd s) as [|d t].
  - destruct (isWhiteSpace c); [done|]. simpl. by rewrite Hc.
  - cbn [list_ascii_of_string forallb] in *. by rewrite Hc, IH.
Qed.

Lemma commaFree_trim (s : string) : commaFree s = true -> commaFree (trim s) = true.
Proof. intros Hs. by apply commaFree_trimEnd, commaFree_trimStart. Qed.

Lemma commaFree_split (s : string) : Forall (fun t => commaFree t = true) (split "," s).
Proof.
  induction s as [|c s IH]; cbn [split]; [by repeat constructor|].
  destruct (Ascii.eqb c ",") eqn:Ec; [by constructor|].
  destruct (split "," s) as [|first others]; [by repeat constructor; unfold commaFree; simpl; rewrite Ec|].
  inversion IH as [|? ? Hfirst Hothers]; subst. constructor; [|done].
  unfold commaFree in *. simpl. by rewrite Ec, Hfirst.
Qed.

Lemma commaFree_substring (n m : nat) (s : string) :
  commaFree s = true -> commaFree (String.substring n m s) = true.
Proof.
  unfold commaFree. revert n m. induction s as [|c s IH]; intros n m.
  - by destruct n, m.
  - cbn [list_ascii_of_string forallb]. intros [Hc Hs]%andb_true_iff.
    destruct n as [|n]; [destruct m as [|m]; [done|]|by apply IH].
    cbn [String.substring list_ascii_of_string forallb]. by rewrite Hc, IH.
Qed.

Lemma plainName_trim (s : string) :
  commaFree s = true -> trim s <> "" -> plainName (trim s) = true.
Proof.
  intros Hc Hne. apply plainName_spec. destruct (trim_fixed s) as [Hs He].
  split_and!; [done|done|done|by apply commaFree_trim].
Qed.

Lemma length_pos_ne (s : string) : (0 <? String.length s)%nat = true <-> s <> "".
Proof. by destruct s. Qed.

Lemma parseFields_plain (v : JsValue) (fs : list string) :
  parseFields v = Some fs -> fs <> [] /\ Forall (fun f => plainName f = true) fs.
Proof.
  unfold parseFields. destruct v as [| | | |s| |]; try done.
  destruct (negb (truthy s)); [done|]. destruct (String.eqb (trim s) ""); [done|].
  match goal with |- context [List.filter ?p ?l] => set (names := List.filter p l) end.
  assert (Hall : Forall (fun f => plainName f = true) names).
  { apply Forall_forall. intros f [Hin Hlen]%elem_of_List_filter.
    apply length_pos_ne in Hlen.
    apply list_elem_of_fmap in Hin as (part & -> & Hpart).
    apply plainName_trim; [|done].
    pose proof (commaFree_split (trim s)) as Hparts.
    rewrite Forall_forall in Hparts. by apply Hparts. }
  destruct names as [|f names']; [done|]. by intros [= <-].
Qed.

(** X13.  [parseFields] returns [null] or a list of names that is not empty,
    each name non-empty, trimmed and without a comma; printing such a list
    and parsing the text gives the list back.  So it never returns an
    empty selection or an empty name. *)
Theorem parseFields_normal_form (v : JsValue) (fs : list string) :
  parseFields v = Some fs ->
  fs <> []
  /\ Forall (fun f => plainName f = true) fs
  /\ printFields (Some fs) = Some (join "," fs)
  /\ parseFields (JStr (join "," fs)) = Some fs.
Proof.
  intros [Hne Hall]%parseFields_plain. split_and!; [done|done| |by apply parseFields_join].
  unfold printFields. by destruct fs.
Qed.

Lemma parseSortStep_plain (sortSpecs : list SortSpec) (part : string) :
  commaFree part = true ->
  Forall (fun s => plainName (sort_field s) = true) sortSpecs ->
  Forall (fun s => plainName (sort_field s) = true) (parseSortStep sortSpecs part).
Proof.
  intros Hpart Hacc. unfold parseSortStep.
  destruct (String.eqb_spec (trim part) "") as [|Hne]; [done|].
  destruct (lastIndexOf ":" (trim part) =? -1).
  - rewrite (proj2 (length_pos_ne _) Hne). apply Forall_app. split; [done|].
    constructor; [|constructor]. by apply plainName_trim.
  - match goal with |- context [trim (substring ?s ?a ?b)] =>
      set (f := trim (substring s a b))
    end.
    destruct (0 <? String.length f)%nat eqn:Hlen; [|done].
    apply Forall_app. split; [done|]. constructor; [|constructor]. cbn [sort_field].
    apply plainName_trim; [|by apply length_pos_ne].
    apply commaFree_substring. by apply commaFree_trim.
Qed.

Lemma parseSort_plain (v : JsValue) :
  Forall (fun s => plainName (sort_field s) = true) (parseSort v).
Proof.
  unfold parseSort. destruct v as [| | | |s| |]; try constructor.
  destruct (negb (truthy s)); [constructor|].
  destruct (String.eqb (trim s) ""); [constructor|].
  pose proof (commaFree_split (trim s)) as Hparts.
  assert (Hgen : forall acc, Forall (fun s => plainName (sort_field s) = true) acc ->
            Forall (fun s => plainName (sort_field s) = true)
              (fold_left parseSortStep (split "," (trim s)) acc)).
  { induction Hparts as [|part parts Hpart _ IH]; intros acc Hacc; simpl; [done|].
    apply IH. by apply parseSortStep_plain. }
  apply Hgen. constructor.
Qed.

Lemma trimStart_trimEnd (s : string) : trimStart (trimEnd s) = trimEnd (trimStart s).
Proof.
  induction s as [|c s IH]; [done|]. cbn [trimStart trimEnd].
  destruct (isWhiteSpace c) eqn:Ec.
  - rewrite <- IH. destruct (trimEnd s) as [|d t]; [done|].
    cbn [trimStart]. by rewrite Ec.
  - cbn [trimEnd]. destruct (trimEnd s) as [|d t]; rewrite ?Ec; cbn [trimStart];
      by rewrite Ec.
Qed.

Lemma trim_trimEnd (s : string) : trim (trimEnd s) = trim s.
Proof. unfold trim. by rewrite trimStart_trimEnd, trimEnd_idem. Qed.

Lemma lastIndexOf_ge (c : ascii) (s : string) : -1 <= lastIndexOf c s.
Proof.
  induction s as [|x s IH]; cbn [lastIndexOf]; [lia|].
  destruct (Z.leb_spec 0 (lastIndexOf c s)); [lia|]. destruct (Ascii.eqb x c); lia.
Qed.

Lemma lastIndexOf_cons (c x : ascii) (s : string) :
  lastIndexOf c (String x s) = -1 <-> Ascii.eqb x c = false /\ lastIndexOf c s = -1.
Proof.
  cbn [lastIndexOf]. pose proof (lastIndexOf_ge c s).
  destruct (Z.leb_spec 0 (lastIndexOf c s)); [lia|].
  destruct (Ascii.eqb x c); split; (lia || intros [? ?]; (lia || done) || (split; [done|lia])).
Qed.

Lemma lastIndexOf_trimEnd (c : ascii) (s : string) :
  lastIndexOf c s = -1 -> lastIndexOf c (trimEnd s) = -1.
Proof.
  induction s as [|x s IH]; [done|]. intros [Hx Hs]%lastIndexOf_cons.
  cbn [trimEnd]. specialize (IH Hs). destruct (trimEnd s) as [|d t].
  - destruct (isWhiteSpace x); [done|]. by apply lastIndexOf_cons.
  - by apply lastIndexOf_cons.
Qed.

Lemma substring_head (a b : string) :
  substring (a +:+ b) 0 (Z.of_nat (String.length a)) = a.
Proof.
  unfold substring. rewrite string_length_app.
  replace (Z.min (Z.max 0 0) _) with 0 by lia.
  replace (Z.min (Z.max (Z.of_nat (String.length a)) 0) _)
    with (Z.of_nat (String.length a)) by lia.
  rewrite Z.min_l, Z.max_r by lia. rewrite Z.sub_0_r, Nat2Z.id. cbn [Z.to_nat].
  apply substring_prefix.
Qed.

Lemma substringFrom_tail (a b : string) :
  substringFrom (a +:+ b) (Z.of_nat (String.length a)) = b.
Proof.
  unfold substringFrom, substring. rewrite string_length_app.
  set (la := String.length a). set (lb := String.length b).
  replace (Z.min (Z.max (Z.of_nat la) 0) (Z.of_nat (la + lb))) with (Z.of_nat la) by lia.
  replace (Z.min (Z.max (Z.of_nat (la + lb)) 0) (Z.of_nat (la + lb)))
    with (Z.of_nat (la + lb)) by lia.
  rewrite Z.min_l, Z.max_r by lia.
  replace (Z.of_nat (la + lb) - Z.of_nat la) with (Z.of_nat lb) by lia.
  rewrite !Nat2Z.id. apply substring_suffix.
Qed.

Lemma parseSort_entry (f direction : string) :
  plainName f = true -> commaFree direction = true ->
  lastIndexOf ":" direction = -1 ->
  parseSort (JStr (f +:+ ":" +:+ direction))
  = [ {| sort_field := f;
         direction := default asc (sortDirectionOf (toLowerCase (trim direction))) |} ].
Proof.
  intros (Hf & Hsf & Hef & Hcf)%plainName_spec Hcd Hcolon.
  set (d := trimEnd direction).
  assert (Htail : trimEnd (":" +:+ direction) = ":" +:+ d).
  { change (":" +:+ ?x) with (String ":"%char x). cbn [trimEnd]. subst d.
    by destruct (trimEnd direction). }
  assert (Htrim : trim (f +:+ ":" +:+ direction) = f +:+ ":" +:+ d).
  { unfold trim. rewrite trimStart_app by done. rewrite trimEnd_app; rewrite Htail; [done|].
    by change (":" +:+ d) with (String ":"%char d). }
  assert (Hne : f +:+ ":" +:+ d <> "") by (by destruct f).
  assert (Hc : commaFree (f +:+ ":" +:+ d) = true).
  { rewrite !commaFree_app, Hcf. subst d. by rewrite commaFree_trimEnd. }
  unfold parseSort.
  assert (Htruthy : truthy (f +:+ ":" +:+ direction) = true) by (by destruct f).
  rewrite Htruthy. cbn [negb]. rewrite Htrim.
  rewrite (proj2 (String.eqb_neq _ _) Hne), split_commaFree by done.
  cbn [fold_left]. unfold parseSortStep.
  assert (Htrim' : trim (f +:+ ":" +:+ d) = f +:+ ":" +:+ d).
  { rewrite <- Htrim. apply trim_id; apply trim_fixed. }
  rewrite Htrim', (proj2 (String.eqb_neq _ _) Hne).
  assert (Hidx : lastIndexOf ":" (f +:+ ":" +:+ d) = Z.of_nat (String.length f)).
  { change (":" +:+ d) with (String ":"%char d). apply lastIndexOf_app.
    by apply lastIndexOf_trimEnd. }
  rewrite Hidx, (proj2 (Z.eqb_neq _ _)) by lia.
  rewrite substring_head.
  assert (Hdir : substringFrom (f +:+ ":" +:+ d) (Z.of_nat (String.length f) + 1) = d).
  { rewrite <- string_app_assoc.
    replace (Z.of_nat (String.length f) + 1) with (Z.of_nat (String.length (f +:+ ":"))).
    - apply substringFrom_tail.
    - rewrite string_length_app. simpl. lia. }
  rewrite Hdir, trim_id by done. subst d. rewrite trim_trimEnd.
  by rewrite (proj2 (length_pos_ne f) Hf).
Qed.

(** X14.  Every entry that [parseSort] returns has a field that is non-empty,
    trimmed and without a comma (and a direction, [asc] when none or an
    unknown one was given); printing the entries and parsing the text gives
    them back. *)
Theorem parseSort_normal_form (v : JsValue) :
  Forall (fun s => plainName (sort_field s) = true) (parseSort v)
  /\ (parseSort v <> [] ->
      printSort (parseSort v) = Some (join "," (map sortText (parseSort v)))
      /\ parseSort (JStr (join "," (map sortText (parseSort v)))) = parseSort v)
  /\ (forall f direction : string,
        plainName f = true -> commaFree direction = true ->
        lastIndexOf ":" direction = -1 ->
        parseSort (JStr (f +:+ ":" +:+ direction))
        = [ {| sort_field := f;
               direction := default asc (sortDirectionOf (toLowerCase (trim direction))) |} ]).
Proof.
  split_and!.
  - apply parseSort_plain.
  - intros Hne. split.
    + unfold printSort. by destruct (parseSort v).
    + apply parseSort_join; [done|apply parseSort_plain].
  - apply parseSort_entry.
Qed.

End ParsedNames.

(** A witness of [parseFields_normal_form]: blanks and empty entries are
    dropped. *)
Lemma parseFields_normal_form_witness :
  ["id"; "name"] <> []
  /\ Forall (fun f => RoundTrip.plainName f = true) ["id"; "name"]
  /\ Printer.printFields (Some ["id"; "name"]) = Some (Js.join "," ["id"; "name"])
  /\ Parser.parseFields (Js.JStr (Js.join "," ["id"; "name"])) = Some ["id"; "name"].
Proof.
  exact (parseFields_normal_form (Js.JStr " id, ,name ,") ["id"; "name"] eq_refl).
Defined.

(** ** ast/parser.ts: the AST that the parser returns *)

Section ParsedAst.
Import Js Ast Parser Printer RoundTrip.
Implicit Types (errors : list ParseError) (path : list string).










End ParsedAst.


(** ** From the parser to the factory *)

Section ParsedValid.
Import Js Ast Parser Factory RoundTrip.




End ParsedValid.


(** ** The LRU result cache: the other methods *)

Section CacheMethods.
Import Js Cache.
Implicit Types (m : list (string * CacheEntry)) (this : LRUCache).

Lemma mapGet_mapSet key entry m : mapGet key (mapSet key entry m) = Some entry.
Proof.
  induction m as [|[k e] m IH]; simpl; [by rewrite String.eqb_refl|].
  destruct (String.eqb_spec k key) as [->|Hne]; simpl.
  - by rewrite String.eqb_refl.
  - by rewrite (proj2 (String.eqb_neq k key) Hne).
Qed.

Lemma mapGet_Some_keys key m entry : mapGet key m = Some entry -> key ∈ mapKeys m.
Proof.
  induction m as [|[k e] m IH]; simpl; [done|].
  destruct (String.eqb_spec k key) as [->|Hne]; [left|right; auto].
Qed.

Lemma mapGet_None_keys key m : mapGet key m = None <-> key ∉ mapKeys m.
Proof.
  split; [|apply mapGet_absent].
  intros Hg Hin. induction m as [|[k e] m IH]; simpl in *; [by apply elem_of_nil in Hin|].
  destruct (String.eqb_spec k key) as [->|Hne]; [done|].
  apply elem_of_cons in Hin as [?|?]; [congruence|auto].
Qed.

Lemma mapHas_keys key m : mapHas key m = bool_decide (key ∈ mapKeys m).
Proof.
  unfold mapHas. apply bool_decide_ext. split.
  - intros [e He]. by eapply mapGet_Some_keys.
  - intros Hin. destruct (mapGet key m) eqn:E; [done|]. by apply mapGet_None_keys in E.
Qed.

Lemma mapGet_app_absent key kept m :
  key ∉ mapKeys kept -> mapGet key (kept ++ m) = mapGet key m.
Proof.
  induction kept as [|[k e] kept IH]; simpl; [done|].
  intros [Hne Hnot]%not_elem_of_cons.
  destruct (String.eqb_spec k key); [congruence|auto].
Qed.

Lemma mapDelete_app_absent key kept m :
  key ∉ mapKeys kept -> mapDelete key (kept ++ m) = kept ++ mapDelete key m.
Proof.
  induction kept as [|[k e] kept IH]; simpl; [done|].
  intros [Hne Hnot]%not_elem_of_cons.
  destruct (String.eqb_spec k key); [congruence|]. by rewrite IH.
Qed.

Lemma mapDelete_NoDup key m : NoDup (mapKeys m) -> NoDup (mapKeys (mapDelete key m)).
Proof.
  intros H. eapply sublist_NoDup; [exact H|]. apply (fmap_sublist fst), mapDelete_sublist.
Qed.

Lemma mapSet_keys key entry m :
  mapKeys (mapSet key entry m)
  = if bool_decide (key ∈ mapKeys m) then mapKeys m else mapKeys m ++ [key].
Proof.
  induction m as [|[k e] m IH]; simpl; [done|].
  destruct (String.eqb_spec k key) as [->|Hne]; simpl.
  - rewrite bool_decide_eq_true_2; [done|left].
  - rewrite IH. case_bool_decide as H1; case_bool_decide as H2; try done.
    + destruct H2. by right.
    + apply elem_of_cons in H2 as [?|?]; [congruence|done].
Qed.

Lemma mapSet_NoDup key entry m : NoDup (mapKeys m) -> NoDup (mapKeys (mapSet key entry m)).
Proof.
  intros H. rewrite mapSet_keys. case_bool_decide as Hin; [done|].
  apply NoDup_app. split_and!; [done| |apply NoDup_singleton].
  by intros x Hx ->%list_elem_of_singleton.
Qed.

(** *** One eviction, and several *)

Lemma evictedAll_nil reason this : evictedAll reason [] this this.
Proof.
  unfold evictedAll. cbn [length map]. rewrite app_nil_r. split_and!; try done; try lia.
  intros r. case_bool_decide; lia.
Qed.

Lemma evictedAll_cons reason a gone this1 this2 this3 :
  evictedAll reason [a] this1 this2 -> evictedAll reason gone this2 this3 ->
  evictedAll reason (a :: gone) this1 this3.
Proof.
  intros (Hc1 & Hh1 & Hm1 & He1 & Hr1 & Hl1) (Hc2 & Hh2 & Hm2 & He2 & Hr2 & Hl2).
  unfold evictedAll. split_and!; try congruence.
  - rewrite He2, He1. cbn [length]. lia.
  - intros r. rewrite Hr2, Hr1. cbn [length]. case_bool_decide; lia.
  - rewrite Hl2, Hl1. cbn [map]. by rewrite <- app_assoc.
Qed.

Lemma evict_present key reason this entry :
  mapGet key (cache this) = Some entry ->
  cache (evict key reason this) = mapDelete key (cache this)
  /\ evictedAll reason [(key, entry)] this (evict key reason this).
Proof.
  intros Hg. unfold evict. rewrite Hg. split; [done|].
  unfold evictedAll. cbn. split_and!; try done.
  intros r. case_bool_decide; lia.
Qed.

Lemma evict_absent key reason this :
  mapGet key (cache this) = None -> evict key reason this = this.
Proof. intros Hg. unfold evict. by rewrite Hg. Qed.

Lemma evict_config key reason this : config (evict key reason this) = config this.
Proof. unfold evict. by destruct (mapGet key (cache this)). Qed.

Lemma evictLRU_config this : config (evictLRU this) = config this.
Proof. unfold evictLRU. destruct (mapKeys (cache this)); [done|apply evict_config]. Qed.

Lemma evictWhile_config cond n this this' :
  evictWhile cond n this = Some this' -> config this' = config this.
Proof.
  revert this. induction n as [|n IH]; intros this; simpl.
  - destruct (cond this); [done|]. by intros [= <-].
  - destruct (cond this); [|by intros [= <-]].
    intros H%IH. by rewrite H, evictLRU_config.
Qed.

(** *** [set], then [get] *)

Lemma set_stored key v now this this' :
  set key v now this = Some this' ->
  mapGet key (cache this') = Some (newEntry v now) /\ config this' = config this.
Proof.
  unfold set. set (this1 := if mapHas key (cache this) then _ else this).
  assert (Hcfg : config this1 = config this).
  { subst this1. by destruct (mapHas key (cache this)). }
  destruct (evictWhile _ _ this1) as [this2|] eqn:Ew; [|done].
  intros [= <-]. cbn [cache config withCache]. split; [apply mapGet_mapSet|].
  apply evictWhile_config in Ew. congruence.
Qed.

Lemma set_entry_live key v now now' this this' :
  set key v now this = Some this' ->
  now' - now <= ttl (config this) ->
  mapGet key (cache this') = Some (newEntry v now)
  /\ isExpired this' now' (newEntry v now) = false.
Proof.
  intros [Hg Hcfg]%set_stored Hfresh. split; [done|].
  unfold isExpired. rewrite Hcfg. cbn [createdAt newEntry]. rewrite Z.gtb_ltb.
  apply Z.ltb_ge. lia.
Qed.

(** X20.  What [set] stores, [get] returns until the entry expires.  After
    [set(key, v)] at time [now], a [get(key)] or [has(key)] at a time
    [now'] with [now' - now <= ttl] finds [v]: [get] returns it, counts a
    hit and no miss, and leaves the entry with the access time [now'] and
    two accesses; [has] answers [true] and changes nothing.  This holds
    whether or not the key was there before, so a second [set] replaces
    the value. *)
Theorem set_then_get key v now now' this this' :
  set key v now this = Some this' ->
  now' - now <= ttl (config this) ->
  exists this'',
    get key now' this' = (Some v, this'')
    /\ hits this'' = hits this' + 1
    /\ misses this'' = misses this'
    /\ evicted this'' = evicted this'
    /\ mapGet key (cache this'')
       = Some {| value := v; createdAt := now; lastAccessedAt := now'; accessCount := 2;
                 size := estimateSize v |}
    /\ has key now' this' = (true, this').
Proof.
  intros Hset Hfresh. destruct (set_entry_live key v now now' this this' Hset Hfresh) as [Hg Hlive].
  unfold get, has. rewrite Hg, Hlive. eexists. split; [reflexivity|].
  cbn [hits misses evicted cache]. split_and!; try done. apply mapGet_mapSet.
Qed.

(** *** [delete] and [clear] *)

(** X21.  [delete] tells whether the key was there.  If it was, the entry is
    removed, the others keep their order, [onEvict] is called once with
    the reason [manual] and the eviction is counted; afterwards [has] and
    [get] miss the key.  If it was not, nothing changes.  [clear] removes
    every entry, calling [onEvict] for each in order with the reason
    [clear] and counting each. *)
Theorem delete_and_clear key this :
  fst (delete key this) = bool_decide (key ∈ mapKeys (cache this))
  /\ (forall entry, mapGet key (cache this) = Some entry ->
        cache (snd (delete key this)) = mapDelete key (cache this)
        /\ evictedAll manual [(key, entry)] this (snd (delete key this))
        /\ (NoDup (mapKeys (cache this)) ->
            forall now,
              fst (has key now (snd (delete key this))) = false
              /\ fst (get key now (snd (delete key this))) = None))
  /\ (mapGet key (cache this) = None -> snd (delete key this) = this)
  /\ cache (clear this) = []
  /\ evictedAll clear_ (cache this) this (clear this).
Proof.
  unfold delete. rewrite mapHas_keys. split_and!.
  - by case_bool_decide.
  - intros entry Hg. rewrite bool_decide_eq_true_2 by (by eapply mapGet_Some_keys).
    cbn [snd]. destruct (evict_present key manual this entry Hg) as [Hc He].
    split_and!; [done|done|]. intros Hnd now.
    assert (Hgone : mapGet key (cache (evict key manual this)) = None).
    { rewrite Hc. by apply mapGet_absent, mapDelete_gone. }
    unfold has, get. by rewrite Hgone.
  - intros Hg. rewrite bool_decide_eq_false_2; [done|]. by apply mapGet_None_keys.
  - done.
  - unfold evictedAll, clear, mapSize. cbn. split_and!; try done.
    + intros r. case_bool_decide; lia.
    + f_equal. apply map_ext. by intros [k e].
Qed.

End CacheMethods.

(** A witness of [set_then_get]: a value read back 40 ms later. *)
Lemma set_then_get_witness :
  exists this'',
    Cache.get "q" 50
      (Cache.withCache (Cache.create Cache.DEFAULT_CACHE_CONFIG)
         [("q", Cache.newEntry (Js.JNum 7) 10)])
    = (Some (Js.JNum 7), this'')
    /\ Cache.hits this'' = 0 + 1
    /\ Cache.misses this'' = 0
    /\ Cache.evicted this'' = []
    /\ Cache.mapGet "q" (Cache.cache this'')
       = Some {| Cache.value := Js.JNum 7; Cache.createdAt := 10; Cache.lastAccessedAt := 50;
                 Cache.accessCount := 2; Cache.size := 8 |}
    /\ Cache.has "q" 50
         (Cache.withCache (Cache.create Cache.DEFAULT_CACHE_CONFIG)
            [("q", Cache.newEntry (Js.JNum 7) 10)])
       = (true,
          Cache.withCache (Cache.create Cache.DEFAULT_CACHE_CONFIG)
            [("q", Cache.newEntry (Js.JNum 7) 10)]).
Proof.
  apply (set_then_get "q" (Js.JNum 7) 10 50 (Cache.create Cache.DEFAULT_CACHE_CONFIG)).
  - reflexivity.
  - simpl. lia.
Defined.

(** ** The sweeps of the cache: [cleanup], [invalidateOlderThan], [invalidatePattern] *)

Section CacheSweeps.
Import Js Cache.
Implicit Types (m : list (string * CacheEntry)) (this : LRUCache).

Lemma fold_left_pointwise {A B} (f g : A -> B -> A) l x :
  (forall acc b, f acc b = g acc b) -> fold_left f l x = fold_left g l x.
Proof. intros H. revert x. induction l as [|b l IH]; intros x; simpl; [done|]. by rewrite H, IH. Qed.

Lemma fold_left_keys {A} (f : A -> string -> A) m x :
  fold_left f (mapKeys m) x = fold_left (fun acc a => f acc a.1) m x.
Proof. revert x. induction m as [|a m IH]; intros x; simpl; [done|]. by rewrite IH. Qed.

Lemma NoDup_keys_middle kept a rest :
  NoDup (mapKeys (kept ++ a :: rest)) ->
  (a.1 ∉ mapKeys kept) /\ NoDup (mapKeys (kept ++ rest)).
Proof.
  unfold mapKeys. rewrite !map_app. cbn [map].
  intros (Hk & Hd & Hr)%NoDup_app. apply NoDup_cons in Hr as [Ha Hr]. split.
  - intros Hin. apply (Hd _ Hin). left.
  - apply NoDup_app. split_and!; [done| |done]. intros x Hx Hx'. apply (Hd x Hx). by right.
Qed.

Lemma mapGet_middle kept a rest :
  a.1 ∉ mapKeys kept -> mapGet a.1 (kept ++ a :: rest) = Some a.2.
Proof.
  intros H. rewrite mapGet_app_absent by done. destruct a as [k e]. simpl.
  by rewrite String.eqb_refl.
Qed.

Lemma mapDelete_middle kept a rest :
  a.1 ∉ mapKeys kept -> mapDelete a.1 (kept ++ a :: rest) = kept ++ rest.
Proof.
  intros H. rewrite mapDelete_app_absent by done. destruct a as [k e]. simpl.
  by rewrite String.eqb_refl.
Qed.

(** A loop over the entries that evicts those selected by a test that
    reads nothing of the cache but its configuration. *)
Lemma sweep_spec (sel : LRUCache -> string * CacheEntry -> bool) reason :
  (forall this this' a, config this = config this' -> sel this a = sel this' a) ->
  forall rest kept this n,
    cache this = kept ++ rest ->
    NoDup (mapKeys (kept ++ rest)) ->
    let r := fold_left (fun acc a => if sel acc.2 a then (acc.1 + 1, evict a.1 reason acc.2)
                                     else acc) rest (n, this) in
    r.1 = n + Z.of_nat (length (List.filter (sel this) rest))
    /\ cache r.2 = kept ++ List.filter (fun a => negb (sel this a)) rest
    /\ evictedAll reason (List.filter (sel this) rest) this r.2.
Proof.
  intros Hsel. induction rest as [|a rest IH]; intros kept this n Hc Hnd.
  { cbn. rewrite Hc. split_and!; [lia|done|apply evictedAll_nil]. }
  cbn [fold_left List.filter fst snd]. destruct (sel this a) eqn:Es; cbn [negb].
  - apply NoDup_keys_middle in Hnd as [Ha Hnd].
    destruct (evict_present a.1 reason this a.2) as [Hc' He].
    { rewrite Hc. by apply mapGet_middle. }
    rewrite Hc, mapDelete_middle in Hc' by done.
    destruct (IH kept (evict a.1 reason this) (n + 1) Hc' Hnd) as (H1 & H2 & H3).
    assert (Hs : forall b, sel (evict a.1 reason this) b = sel this b).
    { intros b. apply Hsel, evict_config. }
    rewrite (filter_ext _ _ Hs) in H1, H3.
    rewrite (filter_ext (fun b => negb (sel (evict a.1 reason this) b))
               (fun b => negb (sel this b))) in H2 by (intros b; by rewrite Hs).
    split_and!.
    + rewrite H1. cbn [length]. lia.
    + done.
    + eapply evictedAll_cons; [|exact H3]. by destruct a.
  - destruct (IH (kept ++ [a]) this n) as (H1 & H2 & H3).
    { by rewrite <- app_assoc. }
    { by rewrite <- app_assoc. }
    split_and!; [done| |done]. by rewrite H2, <- app_assoc.
Qed.

Lemma sweep_nothing (sel : LRUCache -> string * CacheEntry -> bool) reason rest this (n : Z) :
  Forall (fun a => sel this a = false) rest ->
  fold_left (fun acc a => if sel acc.2 a then (acc.1 + 1, evict a.1 reason acc.2) else acc)
    rest (n, this) = (n, this).
Proof.
  induction 1 as [|a rest Ha _ IH]; cbn [fold_left fst snd]; [done|]. by rewrite Ha.
Qed.

Lemma mapGet_filter (p : string * CacheEntry -> bool) key m :
  NoDup (mapKeys m) ->
  mapGet key (List.filter p m)
  = match mapGet key m with
    | Some entry => if p (key, entry) then Some entry else None
    | None => None
    end.
Proof.
  induction m as [|[k e] m IH]; [done|]. cbn [mapKeys map fst].
  intros [Hk Hnd]%NoDup_cons. cbn [List.filter mapGet].
  destruct (String.eqb_spec k key) as [->|Hne].
  - destruct (p (key, e)) eqn:Ep; cbn [mapGet]; [by rewrite String.eqb_refl|].
    apply mapGet_absent. intros Hin. apply Hk.
    unfold mapKeys in *. apply list_elem_of_fmap in Hin as (a & -> & Ha).
    apply list_elem_of_fmap. exists a. split; [done|].
    apply list_elem_of_In in Ha. apply filter_In in Ha as [Ha _]. by apply list_elem_of_In.
  - rewrite <- IH by done. destruct (p (k, e)); cbn [mapGet]; [|done].
    by rewrite (proj2 (String.eqb_neq k key) Hne).
Qed.

Lemma filter_NoDup_keys (p : string * CacheEntry -> bool) m :
  NoDup (mapKeys m) -> NoDup (mapKeys (List.filter p m)).
Proof.
  induction m as [|a m IH]; [done|]. cbn [mapKeys map]. intros [Ha Hnd]%NoDup_cons.
  cbn [List.filter]. destruct (p a); [|by apply IH]. cbn [map]. apply NoDup_cons.
  split; [|by apply IH]. intros Hin. apply Ha.
  apply list_elem_of_fmap in Hin as (b & -> & Hb). apply list_elem_of_fmap. exists b.
  split; [done|]. apply list_elem_of_In in Hb. apply filter_In in Hb as [Hb _].
  by apply list_elem_of_In.
Qed.

Lemma cleanup_sweep now this :
  cleanup now this
  = fold_left (fun acc a => if isExpired acc.2 now a.2 then (acc.1 + 1, evict a.1 expired acc.2)
                            else acc) (cache this) (0, this).
Proof. unfold cleanup. apply fold_left_pointwise. by intros [n c] [k e]. Qed.

Lemma isExpired_config this this' now entry :
  config this = config this' -> isExpired this now entry = isExpired this' now entry.
Proof. unfold isExpired. by intros ->. Qed.

(** X22.  [cleanup] removes exactly the expired entries.  At time [now] it
    evicts, in the order of the [Map] and with the reason [expired], the
    entries with [now - createdAt > ttl], returns their number, and leaves
    the others in their order.  What [has] and [get] answer at that time
    is the same before and after, and a second [cleanup] at the same time
    finds nothing. *)
Theorem cleanup_removes_expired now this :
  NoDup (mapKeys (cache this)) ->
  let gone := List.filter (fun a => isExpired this now a.2) (cache this) in
  let this' := snd (cleanup now this) in
  fst (cleanup now this) = Z.of_nat (length gone)
  /\ cache this' = List.filter (fun a => negb (isExpired this now a.2)) (cache this)
  /\ evictedAll expired gone this this'
  /\ (forall key, fst (has key now this') = fst (has key now this)
                  /\ fst (get key now this') = fst (get key now this))
  /\ cleanup now this' = (0, this').
Proof.
  intros Hnd gone this'. subst gone this'. rewrite !cleanup_sweep.
  destruct (sweep_spec (fun c a => isExpired c now a.2) expired
              (fun c c' a => isExpired_config c c' now a.2) (cache this) [] this 0 eq_refl Hnd)
    as (H1 & H2 & H3).
  cbn [app] in H2. split_and!; [lia|done|done| |].
  - intros key. unfold has, get. rewrite H2, mapGet_filter by done.
    destruct H3 as (Hcfg & _).
    destruct (mapGet key (cache this)) as [entry|]; [|done]. cbn [snd].
    destruct (isExpired this now entry) eqn:Ee; cbn [negb]; [done|].
    by rewrite (isExpired_config _ this now entry Hcfg), Ee.
  - rewrite H2 at 1. apply (sweep_nothing (fun c a => isExpired c now a.2) expired).
    apply Forall_forall. intros a Ha.
    apply elem_of_List_filter in Ha as [_ Ha]. destruct H3 as (Hcfg & _).
    rewrite (isExpired_config _ this now a.2 Hcfg). by apply negb_true_iff.
Qed.

Lemma invalidateOlderThan_ttl now this :
  invalidateOlderThan (ttl (config this)) now this = cleanup now this.
Proof.
  unfold invalidateOlderThan, cleanup.
  assert (H : forall l c (n : Z),
            config c = config this ->
            fold_left (fun '(invalidated, this0) '(key, entry) =>
                         if createdAt entry <? now - ttl (config this)
                         then (invalidated + 1, evict key expired this0)
                         else (invalidated, this0)) l (n, c)
            = fold_left (fun '(cleaned, this0) '(key, entry) =>
                           if now - createdAt entry >? ttl (config this0)
                           then (cleaned + 1, evict key expired this0)
                           else (cleaned, this0)) l (n, c)); [|by apply H].
  induction l as [|[k e] l IH]; intros c n Hc; cbn [fold_left]; [done|].
  rewrite Hc.
  replace (now - createdAt e >? ttl (config this))
    with (createdAt e <? now - ttl (config this))
    by (rewrite Z.gtb_ltb; destruct (Z.ltb_spec (createdAt e) (now - ttl (config this))),
          (Z.ltb_spec (ttl (config this)) (now - createdAt e)); lia).
  destruct (createdAt e <? now - ttl (config this)); apply IH; [|done].
  by rewrite evict_config.
Qed.

(** X23.  [invalidateOlderThan(maxAge)] removes exactly the entries created
    before [now - maxAge], with the reason [expired], and returns their
    number; with the cache's own ttl as [maxAge] it is [cleanup]. *)
Theorem invalidateOlderThan_removes_older maxAge now this :
  NoDup (mapKeys (cache this)) ->
  let gone := List.filter (fun a => createdAt a.2 <? now - maxAge) (cache this) in
  let this' := snd (invalidateOlderThan maxAge now this) in
  fst (invalidateOlderThan maxAge now this) = Z.of_nat (length gone)
  /\ cache this' = List.filter (fun a => negb (createdAt a.2 <? now - maxAge)) (cache this)
  /\ evictedAll expired gone this this'
  /\ invalidateOlderThan (ttl (config this)) now this = cleanup now this.
Proof.
  intros Hnd gone this'. subst gone this'.
  assert (Hsw : forall maxAge,
            invalidateOlderThan maxAge now this
            = fold_left (fun acc a => if createdAt a.2 <? now - maxAge
                                      then (acc.1 + 1, evict a.1 expired acc.2) else acc)
                (cache this) (0, this)).
  { intros age. unfold invalidateOlderThan. apply fold_left_pointwise. by intros [n c] [k e]. }
  rewrite !Hsw.
  destruct (sweep_spec (fun _ a => createdAt a.2 <? now - maxAge) expired
              (fun _ _ _ _ => eq_refl) (cache this) [] this 0 eq_refl Hnd) as (H1 & H2 & H3).
  split_and!; [lia|done|done|].
  rewrite <- Hsw. apply invalidateOlderThan_ttl.
Qed.

(** X24.  [invalidatePattern] removes exactly the entries whose key matches:
    the keys that start with a string pattern, or that a [RegExp] accepts.
    Each is evicted with the reason [manual], in the order of the [Map];
    the number returned is their number; the others stay in their order.
    Every key starts with the empty string, so the empty pattern empties
    the cache. *)
Theorem invalidatePattern_removes_matching pattern this :
  NoDup (mapKeys (cache this)) ->
  let matches key :=
    match pattern with inl pattern => startsWith key pattern | inr test => test key end in
  let gone := List.filter (fun a => matches a.1) (cache this) in
  let this' := snd (invalidatePattern pattern this) in
  fst (invalidatePattern pattern this) = Z.of_nat (length gone)
  /\ cache this' = List.filter (fun a => negb (matches a.1)) (cache this)
  /\ evictedAll manual gone this this'
  /\ (pattern = inl EmptyString -> cache this' = [] /\ gone = cache this).
Proof.
  intros Hnd matches gone this'. subst gone this'.
  assert (Hsw : invalidatePattern pattern this
                = fold_left (fun acc a => if matches a.1
                                          then (acc.1 + 1, evict a.1 manual acc.2) else acc)
                    (cache this) (0, this)).
  { unfold invalidatePattern. rewrite fold_left_keys. apply fold_left_pointwise.
    by intros [n c] [k e]. }
  rewrite !Hsw.
  destruct (sweep_spec (fun _ a => matches a.1) manual
              (fun _ _ _ _ => eq_refl) (cache this) [] this 0 eq_refl Hnd) as (H1 & H2 & H3).
  split_and!; [lia|done|done|].
  intros ->. rewrite H2. subst matches. cbn beta iota. unfold startsWith.
  assert (Hp : forall s, String.prefix EmptyString s = true) by (by intros []).
  clear. induction (cache this) as [|a l [IH1 IH2]]; [done|]. cbn [List.filter app].
  replace (String.prefix EmptyString a.1) with true by (by destruct a.1).
  cbn [negb]. split; [done|]. by rewrite IH2.
Qed.

End CacheSweeps.

(** A witness of [cleanup_removes_expired]: of two entries, the one of
    five minutes ago is gone. *)
Lemma cleanup_removes_expired_witness :
  let this := Cache.withCache (Cache.create Cache.DEFAULT_CACHE_CONFIG)
                [("a", Cache.newEntry (Js.JNum 1) 0);
                 ("b", Cache.newEntry (Js.JNum 2) 400000)] in
  NoDup (Cache.mapKeys (Cache.cache this))
  /\ fst (Cache.cleanup 500000 this) = 1
  /\ Cache.cache (snd (Cache.cleanup 500000 this)) = [("b", Cache.newEntry (Js.JNum 2) 400000)].
Proof.
  intros this.
  assert (Hnd : NoDup (Cache.mapKeys (Cache.cache this))) by (by apply (bool_decide_unpack _)).
  split; [exact Hnd|].
  destruct (cleanup_removes_expired 500000 this Hnd) as (H1 & H2 & _).
  split; [exact H1|exact H2].
Defined.

(** A witness of [invalidateOlderThan_removes_older]: a maximum age of
    one minute. *)
Lemma invalidateOlderThan_removes_older_witness :
  let this := Cache.withCache (Cache.create Cache.DEFAULT_CACHE_CONFIG)
                [("a", Cache.newEntry (Js.JNum 1) 0);
                 ("b", Cache.newEntry (Js.JNum 2) 90000)] in
  NoDup (Cache.mapKeys (Cache.cache this))
  /\ fst (Cache.invalidateOlderThan 60000 100000 this) = 1
  /\ Cache.cache (snd (Cache.invalidateOlderThan 60000 100000 this))
     = [("b", Cache.newEntry (Js.JNum 2) 90000)].
Proof.
  intros this.
  assert (Hnd : NoDup (Cache.mapKeys (Cache.cache this))) by (by apply (bool_decide_unpack _)).
  split; [exact Hnd|].
  destruct (invalidateOlderThan_removes_older 60000 100000 this Hnd) as (H1 & H2 & _).
  split; [exact H1|exact H2].
Defined.

(** A witness of [invalidatePattern_removes_matching]: the keys that
    start with [users]. *)
Lemma invalidatePattern_removes_matching_witness :
  let this := Cache.withCache (Cache.create Cache.DEFAULT_CACHE_CONFIG)
                [("users?page=1", Cache.newEntry (Js.JNum 1) 0);
                 ("posts?page=1", Cache.newEntry (Js.JNum 2) 0);
                 ("users?page=2", Cache.newEntry (Js.JNum 3) 0)] in
  NoDup (Cache.mapKeys (Cache.cache this))
  /\ fst (Cache.invalidatePattern (inl "users") this) = 2
  /\ Cache.cache (snd (Cache.invalidatePattern (inl "users") this))
     = [("posts?page=1", Cache.newEntry (Js.JNum 2) 0)].
Proof.
  intros this.
  assert (Hnd : NoDup (Cache.mapKeys (Cache.cache this))) by (by apply (bool_decide_unpack _)).
  split; [exact Hnd|].
  destruct (invalidatePattern_removes_matching (inl "users") this Hnd) as (H1 & H2 & _).
  split; [exact H1|exact H2].
Defined.

(** ** The capacity of the cache: the loops of [set] and [setMaxSize] *)

Section CacheCapacity.
Import Js Cache.
Implicit Types (m : list (string * CacheEntry)) (this : LRUCache).

(** A loop that evicts the first entry while more than [keep] are left. *)
Lemma evictWhile_spec cond cfg (keep : nat) :
  (forall this, config this = cfg ->
                cond this = bool_decide (keep < length (cache this))%nat) ->
  forall fuel this,
    config this = cfg -> (length (cache this) <= fuel)%nat ->
    exists this',
      evictWhile cond fuel this = Some this'
      /\ cache this' = drop (length (cache this) - keep) (cache this)
      /\ evictedAll capacity (take (length (cache this) - keep) (cache this)) this this'.
Proof.
  intros Hcond. induction fuel as [|fuel IH]; intros this Hcfg Hlen.
  - simpl. rewrite Hcond by done. rewrite bool_decide_eq_false_2 by lia. exists this.
    replace (length (cache this) - keep)%nat with 0%nat by lia.
    split_and!; [done|done|apply evictedAll_nil].
  - simpl. rewrite Hcond by done. case_bool_decide as Hk.
    + destruct (cache this) as [|a rest] eqn:Ec; [simpl in Hk; lia|].
      assert (HL : evictLRU this = evict a.1 capacity this).
      { unfold evictLRU. by rewrite Ec. }
      destruct (evict_present a.1 capacity this a.2) as [Hc' He].
      { rewrite Ec. destruct a. simpl. by rewrite String.eqb_refl. }
      assert (Hrest : cache (evict a.1 capacity this) = rest).
      { rewrite Hc', Ec. destruct a. simpl. by rewrite String.eqb_refl. }
      destruct (IH (evict a.1 capacity this)) as (this' & H1 & H2 & H3).
      { by rewrite evict_config. }
      { rewrite Hrest. cbn [length] in Hlen. lia. }
      exists this'. rewrite HL. rewrite Hrest in H2, H3. cbn [length] in Hk |- *.
      replace (S (length rest) - keep)%nat with (S (length rest - keep)) by lia.
      split_and!; [done|done|]. cbn [take]. eapply evictedAll_cons; [|exact H3].
      by destruct a.
    + exists this. replace (length (cache this) - keep)%nat with 0%nat by lia.
      split_and!; [done|done|apply evictedAll_nil].
Qed.

Lemma evictWhile_forever cond fuel this :
  (forall this', config this' = config this -> cond this' = true) ->
  evictWhile cond fuel this = None.
Proof.
  revert this. induction fuel as [|fuel IH]; intros this H; simpl; rewrite (H this eq_refl);
    [done|].
  apply IH. intros this' Hc. apply H. by rewrite Hc, evictLRU_config.
Qed.

Lemma set_loop_cond cfg this :
  0 < maxSize cfg -> config this = cfg ->
  (mapSize (cache this) >=? maxSize (config this))
  = bool_decide (Z.to_nat (maxSize cfg - 1) < length (cache this))%nat.
Proof.
  intros Hpos ->. rewrite Z.geb_leb. unfold mapSize.
  case_bool_decide; [apply Z.leb_le|apply Z.leb_gt]; lia.
Qed.

Lemma setMaxSize_loop_cond n this :
  0 <= n ->
  (mapSize (cache this) >? n) = bool_decide (Z.to_nat n < length (cache this))%nat.
Proof.
  intros Hn. rewrite Z.gtb_ltb. unfold mapSize.
  case_bool_decide; [apply Z.ltb_lt|apply Z.ltb_ge]; lia.
Qed.

Lemma drop_keys_absent key (k : nat) m : key ∉ mapKeys m -> key ∉ mapKeys (drop k m).
Proof.
  intros H Hin. apply H. unfold mapKeys in *. rewrite <- (take_drop k m), fmap_app.
  apply elem_of_app. by right.
Qed.

(** X25.  What [set] does, whatever the cache holds.  With a positive
    [maxSize], [set(key, v)] returns; the key's old entry, if any, is
    dropped without a call of [onEvict]; of the other entries only the
    last [maxSize - 1] stay, the ones before them being evicted in order
    with the reason [capacity]; the new entry goes last.  Hits and misses
    do not change.  Replacing the value of a key of a cache that is not
    over its capacity evicts nothing. *)
Theorem set_evicts_oldest_and_appends key v now this :
  0 < maxSize (config this) ->
  NoDup (mapKeys (cache this)) ->
  let others := mapDelete key (cache this) in
  let over := (length others - Z.to_nat (maxSize (config this) - 1))%nat in
  exists this',
    set key v now this = Some this'
    /\ cache this' = drop over others ++ [(key, newEntry v now)]
    /\ evictedAll capacity (take over others) this this'
    /\ mapSize (cache this') <= maxSize (config this')
    /\ (key ∈ mapKeys (cache this) -> mapSize (cache this) <= maxSize (config this) ->
        over = 0%nat).
Proof.
  intros Hpos Hnd others over.
  set (this1 := if mapHas key (cache this) then withCache this (mapDelete key (cache this))
                else this).
  assert (Hc1 : cache this1 = others).
  { subst this1 others. rewrite mapHas_keys. case_bool_decide as Hin; [done|].
    clear -Hin. induction (cache this) as [|[k e] m IH]; [done|]. simpl in *.
    apply not_elem_of_cons in Hin as [Hne Hin].
    destruct (String.eqb_spec k key); [congruence|]. by rewrite <- IH. }
  assert (Hs1 : evictedAll capacity [] this this1).
  { subst this1. destruct (mapHas key (cache this)); [|apply evictedAll_nil].
    unfold evictedAll. cbn. rewrite app_nil_r. split_and!; try done; try lia.
    intros r. case_bool_decide; lia. }
  assert (Hcfg1 : config this1 = config this) by apply Hs1.
  destruct (evictWhile_spec (fun this => mapSize (cache this) >=? maxSize (config this))
              (config this) (Z.to_nat (maxSize (config this) - 1))
              (fun c Hc => set_loop_cond (config this) c Hpos Hc)
              (length (cache this1)) this1 Hcfg1 (le_n _)) as (this2 & H1 & H2 & H3).
  rewrite Hc1 in H2, H3. fold over in H2, H3.
  assert (Hgone : key ∉ mapKeys (drop over others)).
  { apply drop_keys_absent. by apply mapDelete_gone. }
  exists (withCache this2 (mapSet key (newEntry v now) (cache this2))).
  split_and!.
  - unfold set. fold this1. by rewrite H1.
  - cbn [cache withCache]. rewrite H2. by apply mapSet_absent.
  - destruct H3 as (G1 & G2 & G3 & G4 & G5 & G6).
    destruct Hs1 as (F1 & F2 & F3 & F4 & F5 & F6).
    unfold evictedAll. cbn [withCache config hits misses evictions evictionsByReason evicted].
    split_and!; try congruence.
    + rewrite G4, F4. cbn [length]. lia.
    + intros r. rewrite G5, F5. cbn [length]. case_bool_decide; lia.
    + rewrite G6, F6. cbn [map]. by rewrite app_nil_r.
  - cbn [cache withCache config]. rewrite H2, mapSet_absent by done.
    destruct H3 as (G1 & _). rewrite G1, Hcfg1. unfold mapSize.
    rewrite length_app, length_drop. cbn [length]. subst over. lia.
  - intros Hin Hsize. subst over others.
    destruct (mapGet key (cache this)) as [entry|] eqn:Eg;
      [|by apply mapGet_None_keys in Eg].
    assert (Hlen : S (length (mapDelete key (cache this))) = length (cache this)).
    { clear -Eg. induction (cache this) as [|[k e] m IH]; [done|]. simpl in *.
      destruct (String.eqb k key); [done|]. simpl. by rewrite IH. }
    unfold mapSize in Hsize. lia.
Qed.

Lemma loops_end_iff key v now n this :
  (set key v now this = None <-> maxSize (config this) <= 0)
  /\ (setMaxSize n this = None <-> n < 0).
Proof.
  split; split.
  - intros Hnone. destruct (decide (maxSize (config this) <= 0)) as [|Hpos]; [done|].
    exfalso. unfold set in Hnone.
    set (this1 := if mapHas key (cache this) then withCache this (mapDelete key (cache this))
                  else this) in Hnone.
    assert (Hcfg1 : config this1 = config this).
    { subst this1. by destruct (mapHas key (cache this)). }
    destruct (evictWhile_spec (fun this => mapSize (cache this) >=? maxSize (config this))
                (config this) (Z.to_nat (maxSize (config this) - 1))
                (fun c Hc => set_loop_cond (config this) c ltac:(lia) Hc)
                (length (cache this1)) this1 Hcfg1 (le_n _)) as (this2 & H1 & _).
    by rewrite H1 in Hnone.
  - apply set_without_capacity.
  - intros Hnone. destruct (decide (n < 0)) as [|Hn]; [done|]. exfalso.
    unfold setMaxSize in Hnone.
    destruct (evictWhile_spec (fun this => mapSize (cache this) >? n)
                (config (withConfig this
                           {| maxSize := n; ttl := ttl (config this);
                              autoCleanup := autoCleanup (config this);
                              cleanupInterval := cleanupInterval (config this) |}))
                (Z.to_nat n)
                (fun c _ => setMaxSize_loop_cond n c ltac:(lia))
                (length (cache this)) _ eq_refl (le_n _)) as (this2 & H1 & _).
    cbv zeta in Hnone. cbn [cache withConfig] in H1, Hnone. by rewrite H1 in Hnone.
  - intros Hn. unfold setMaxSize. apply evictWhile_forever. intros this' _.
    rewrite Z.gtb_ltb. apply Z.ltb_lt. unfold mapSize. lia.
Qed.


End CacheCapacity.

(** A witness of [set_evicts_oldest_and_appends]: a third key in a cache
    of two. *)
Lemma set_evicts_oldest_and_appends_witness :
  let this :=
    Cache.withCache
      (Cache.create {| Cache.maxSize := 2; Cache.ttl := 1000; Cache.autoCleanup := false;
                       Cache.cleanupInterval := 0 |})
      [("a", Cache.newEntry (Js.JNum 1) 0); ("b", Cache.newEntry (Js.JNum 2) 1)] in
  0 < Cache.maxSize (Cache.config this)
  /\ NoDup (Cache.mapKeys (Cache.cache this))
  /\ exists this',
       Cache.set "c" (Js.JNum 3) 2 this = Some this'
       /\ Cache.cache this'
          = [("b", Cache.newEntry (Js.JNum 2) 1); ("c", Cache.newEntry (Js.JNum 3) 2)]
       /\ Cache.evicted this' = [("a", Js.JNum 1, Cache.capacity)].
Proof.
  intros this.
  assert (Hpos : 0 < Cache.maxSize (Cache.config this)) by (simpl; lia).
  assert (Hnd : NoDup (Cache.mapKeys (Cache.cache this))) by (by apply (bool_decide_unpack _)).
  split; [exact Hpos|]. split; [exact Hnd|].
  destruct (set_evicts_oldest_and_appends "c" (Js.JNum 3) 2 this Hpos Hnd)
    as (this' & H1 & H2 & (_ & _ & _ & _ & _ & H3) & _).
  exists this'. split; [exact H1|]. split; [exact H2|exact H3].
Defined.


(** ** What every sequence of calls keeps true of the cache *)

Section CacheInvariants.
Import Js Cache.
Implicit Types (m : list (string * CacheEntry)) (this : LRUCache).

Lemma reasonCount_app r l l' : reasonCount r (l ++ l') = reasonCount r l + reasonCount r l'.
Proof. unfold reasonCount. rewrite List.filter_app, length_app. lia. Qed.

Lemma reasonCount_cons r a l :
  reasonCount r (a :: l) = (if bool_decide (r = a.2) then 1 else 0) + reasonCount r l.
Proof.
  unfold reasonCount. cbn [List.filter].
  destruct (decide (a.2 = r)) as [<-|Hne].
  - rewrite !bool_decide_eq_true_2 by done. cbn [length]. lia.
  - rewrite !bool_decide_eq_false_2 by congruence. lia.
Qed.

Lemma reasonCount_total l :
  reasonCount expired l + reasonCount capacity l + reasonCount manual l + reasonCount clear_ l
  = Z.of_nat (length l).
Proof.
  induction l as [|[[k v] r] l IH]; [done|]. rewrite !reasonCount_cons. cbn [snd length].
  destruct r; repeat case_bool_decide; try done; lia.
Qed.

Lemma reasonCount_same reason (gone : list (string * CacheEntry)) r :
  reasonCount r (map (fun a => (a.1, value a.2, reason)) gone)
  = if bool_decide (r = reason) then Z.of_nat (length gone) else 0.
Proof.
  induction gone as [|a gone IH]; [by case_bool_decide|].
  cbn [map]. rewrite reasonCount_cons, IH. cbn [snd length]. case_bool_decide; lia.
Qed.

Lemma evictedAll_logged reason gone this this' :
  evictedAll reason gone this this' -> logged this this'.
Proof.
  intros (_ & _ & _ & H4 & H5 & H6). exists (map (fun a => (a.1, value a.2, reason)) gone).
  rewrite length_map. split_and!; [done| |done]. intros r. by rewrite H5, reasonCount_same.
Qed.

Lemma logged_refl this : logged this this.
Proof.
  exists []. rewrite app_nil_r. split_and!; [simpl; lia| |done]. intros r. unfold reasonCount.
  simpl. lia.
Qed.

Lemma logged_trans this1 this2 this3 :
  logged this1 this2 -> logged this2 this3 -> logged this1 this3.
Proof.
  intros (n1 & A1 & A2 & A3) (n2 & B1 & B2 & B3). exists (n1 ++ n2).
  rewrite length_app. split_and!.
  - lia.
  - intros r. rewrite B2, A2, reasonCount_app. lia.
  - by rewrite B3, A3, app_assoc.
Qed.

Lemma shrinks_refl this : shrinks this this.
Proof. split_and!; [done|done|done|apply logged_refl]. Qed.

Lemma shrinks_trans this1 this2 this3 :
  shrinks this1 this2 -> shrinks this2 this3 -> shrinks this1 this3.
Proof.
  intros (A1 & A2 & A3 & A4) (B1 & B2 & B3 & B4).
  split_and!; [auto|congruence|lia|by eapply logged_trans].
Qed.

Lemma mapDelete_length key m : (length (mapDelete key m) <= length m)%nat.
Proof. apply sublist_length, mapDelete_sublist. Qed.

Lemma mapDelete_length_present key m entry :
  mapGet key m = Some entry -> S (length (mapDelete key m)) = length m.
Proof.
  induction m as [|[k e] m IH]; [done|]. simpl.
  destruct (String.eqb k key); [done|]. simpl. intros H. by rewrite IH.
Qed.

Lemma mapSet_length key entry m : (length (mapSet key entry m) <= S (length m))%nat.
Proof.
  induction m as [|[k e] m IH]; simpl; [lia|]. destruct (String.eqb k key); simpl; lia.
Qed.

Lemma shrinks_evict key reason this : shrinks this (evict key reason this).
Proof.
  destruct (mapGet key (cache this)) as [entry|] eqn:Eg.
  - destruct (evict_present key reason this entry Eg) as [Hc He].
    split_and!.
    + rewrite Hc. apply mapDelete_NoDup.
    + apply He.
    + rewrite Hc. apply mapDelete_length.
    + by eapply evictedAll_logged.
  - rewrite evict_absent by done. apply shrinks_refl.
Qed.

Lemma shrinks_evictLRU this : shrinks this (evictLRU this).
Proof.
  unfold evictLRU. destruct (mapKeys (cache this)); [apply shrinks_refl|apply shrinks_evict].
Qed.

Lemma shrinks_evictWhile cond n this this' :
  evictWhile cond n this = Some this' -> shrinks this this'.
Proof.
  revert this. induction n as [|n IH]; intros this; simpl.
  - destruct (cond this); [done|]. intros [= <-]. apply shrinks_refl.
  - destruct (cond this); [|intros [= <-]; apply shrinks_refl].
    intros H%IH. eapply shrinks_trans; [apply shrinks_evictLRU|exact H].
Qed.

Lemma evictWhile_ends cond n this this' :
  evictWhile cond n this = Some this' -> cond this' = false.
Proof.
  revert this. induction n as [|n IH]; intros this; simpl.
  - destruct (cond this) eqn:E; [done|]. by intros [= <-].
  - destruct (cond this) eqn:E; [apply IH|]. by intros [= <-].
Qed.

Lemma shrinks_fold {A} (f : Z * LRUCache -> A -> Z * LRUCache) l acc :
  (forall acc a, shrinks acc.2 (f acc a).2) -> shrinks acc.2 (fold_left f l acc).2.
Proof.
  intros Hf. revert acc. induction l as [|a l IH]; intros acc; cbn [fold_left].
  - apply shrinks_refl.
  - eapply shrinks_trans; [apply (Hf acc a)|apply IH].
Qed.

Lemma shrinks_cleanup now this : shrinks this (cleanup now this).2.
Proof.
  unfold cleanup. apply (shrinks_fold _ _ (0, this)). intros [n c] [k e]. cbn [snd].
  destruct (_ >? _); [apply shrinks_evict|apply shrinks_refl].
Qed.

Lemma shrinks_invalidateOlderThan maxAge now this :
  shrinks this (invalidateOlderThan maxAge now this).2.
Proof.
  unfold invalidateOlderThan. apply (shrinks_fold _ _ (0, this)). intros [n c] [k e]. cbn [snd].
  destruct (_ <? _); [apply shrinks_evict|apply shrinks_refl].
Qed.

Lemma shrinks_invalidatePattern pattern this :
  shrinks this (invalidatePattern pattern this).2.
Proof.
  unfold invalidatePattern. apply (shrinks_fold _ _ (0, this)). intros [n c] k. cbn [snd].
  destruct pattern as [p|test]; cbn beta iota zeta.
  - destruct (startsWith k p); [apply shrinks_evict|apply shrinks_refl].
  - destruct (test k); [apply shrinks_evict|apply shrinks_refl].
Qed.

Lemma shrinks_withMisses this n : shrinks this (withMisses this n).
Proof. split_and!; [done|done|done|apply (logged_refl this)]. Qed.

Lemma shrinks_get key now this : shrinks this (get key now this).2.
Proof.
  unfold get.
  destruct (mapGet key (cache this)) as [entry|] eqn:Eg; [|apply shrinks_withMisses].
  destruct (isExpired this now entry).
  - cbn [snd]. apply (shrinks_trans _ (evict key expired this)); [apply shrinks_evict|].
    apply shrinks_withMisses.
  - unfold shrinks. cbn [snd cache config evictions evictionsByReason evicted]. split_and!.
    + intros Hnd. by apply mapSet_NoDup, mapDelete_NoDup.
    + done.
    + pose proof (mapSet_length key
                    {| value := value entry; createdAt := createdAt entry;
                       lastAccessedAt := now; accessCount := accessCount entry + 1;
                       size := size entry |} (mapDelete key (cache this))).
      pose proof (mapDelete_length_present key (cache this) entry Eg). lia.
    + apply (logged_refl this).
Qed.

Lemma shrinks_has key now this : shrinks this (has key now this).2.
Proof.
  unfold has. destruct (mapGet key (cache this)) as [entry|]; [|apply shrinks_refl].
  destruct (isExpired this now entry); [apply shrinks_evict|apply shrinks_refl].
Qed.

Lemma shrinks_delete key this : shrinks this (delete key this).2.
Proof.
  unfold delete. destruct (mapHas key (cache this)); [apply shrinks_evict|apply shrinks_refl].
Qed.

Lemma shrinks_clear this : shrinks this (clear this).
Proof.
  split_and!; [intros _; apply NoDup_nil_2|done|simpl; lia|].
  apply (evictedAll_logged clear_ (cache this)).
  unfold evictedAll, clear, mapSize. cbn. split_and!; try done.
  - intros r. case_bool_decide; lia.
  - f_equal. apply map_ext. by intros [k e].
Qed.

(** What one call keeps: distinct keys and the bound on the size; and it
    either resets the counters or counts the calls of [onEvict] it makes. *)
Lemma call_keeps c this this' :
  call c this = Some this' ->
  (NoDup (mapKeys (cache this)) -> NoDup (mapKeys (cache this')))
  /\ (mapSize (cache this) <= maxSize (config this) ->
      mapSize (cache this') <= maxSize (config this'))
  /\ (isResetStats c = false -> logged this this')
  /\ (isResetStats c = true ->
      evictions this' = 0 /\ forall r, evictionsByReason this' r = 0).
Proof.
  assert (Hshrinks : forall this this', shrinks this this' ->
            (NoDup (mapKeys (cache this)) -> NoDup (mapKeys (cache this')))
            /\ (mapSize (cache this) <= maxSize (config this) ->
                mapSize (cache this') <= maxSize (config this'))
            /\ (false = false -> logged this this')
            /\ (false = true -> evictions this' = 0 /\ forall r, evictionsByReason this' r = 0)).
  { intros c0 c1 (A1 & A2 & A3 & A4). split_and!; [done| |done|done].
    rewrite A2. unfold mapSize. lia. }
  destruct c; cbn [call isResetStats]; try (intros [= <-]).
  - apply Hshrinks, shrinks_get.
  - unfold set.
    set (this1 := if mapHas key (cache this) then withCache this (mapDelete key (cache this))
                  else this).
    assert (H1 : shrinks this this1).
    { subst this1. destruct (mapHas key (cache this)); [|apply shrinks_refl].
      cbn [withCache cache config evictions evictionsByReason evicted].
      split_and!; [apply mapDelete_NoDup|done|apply mapDelete_length|apply (logged_refl this)]. }
    destruct (evictWhile _ _ this1) as [this2|] eqn:Ew; [|done]. intros [= <-].
    pose proof (shrinks_evictWhile _ _ _ _ Ew) as H2.
    apply evictWhile_ends in Ew.
    destruct (shrinks_trans _ _ _ H1 H2) as (A1 & A2 & A3 & A4).
    cbn [withCache cache config evictions evictionsByReason evicted].
    split_and!; [|intros _|done|done].
    + intros Hnd. by apply mapSet_NoDup, A1.
    + rewrite Z.geb_leb in Ew. apply Z.leb_gt in Ew.
      pose proof (mapSet_length key
                    {| value := v; createdAt := now; lastAccessedAt := now; accessCount := 1;
                       size := estimateSize v |} (cache this2)).
      unfold mapSize in *. lia.
  - apply Hshrinks, shrinks_has.
  - apply Hshrinks, shrinks_delete.
  - apply Hshrinks, shrinks_clear.
  - apply Hshrinks, shrinks_cleanup.
  - apply Hshrinks, shrinks_invalidatePattern.
  - apply Hshrinks, shrinks_invalidateOlderThan.
  - split_and!; [done| |intros _; apply (logged_refl this)|done].
    by unfold setTTL.
  - unfold setMaxSize. intros Ew.
    pose proof (shrinks_evictWhile _ _ _ _ Ew) as (A1 & A2 & A3 & A4).
    apply evictWhile_ends in Ew.
    cbn [withConfig cache config evictions evictionsByReason evicted] in *.
    split_and!; [done|intros _|done|done].
    rewrite A2. cbn [maxSize]. rewrite Z.gtb_ltb in Ew. by apply Z.ltb_ge in Ew.
  - split_and!; [done|done|done|]. by intros _.
Qed.

Lemma callAll_keeps calls this this' :
  callAll calls this = Some this' ->
  NoDup (mapKeys (cache this)) ->
  mapSize (cache this) <= maxSize (config this) ->
  evictions this
  = evictionsByReason this expired + evictionsByReason this capacity
    + evictionsByReason this manual + evictionsByReason this clear_ ->
  NoDup (mapKeys (cache this'))
  /\ mapSize (cache this') <= maxSize (config this')
  /\ evictions this'
     = evictionsByReason this' expired + evictionsByReason this' capacity
       + evictionsByReason this' manual + evictionsByReason this' clear_
  /\ (forallb (fun c => negb (isResetStats c)) calls = true ->
      evictions this = Z.of_nat (length (evicted this)) ->
      (forall r, evictionsByReason this r = reasonCount r (evicted this)) ->
      evictions this' = Z.of_nat (length (evicted this'))
      /\ forall r, evictionsByReason this' r = reasonCount r (evicted this')).
Proof.
  revert this. induction calls as [|c calls IH]; intros this; cbn [callAll forallb].
  { intros [= <-] ? ? ?. by split_and!. }
  destruct (call c this) as [this1|] eqn:Ec; [|done].
  intros Hall Hnd Hsize Hsum.
  destruct (call_keeps c this this1 Ec) as (K1 & K2 & K3 & K4).
  assert (Hsum1 : evictions this1
                  = evictionsByReason this1 expired + evictionsByReason this1 capacity
                    + evictionsByReason this1 manual + evictionsByReason this1 clear_).
  { destruct (isResetStats c) eqn:Er.
    - destruct (K4 eq_refl) as [-> H0]. by rewrite !H0.
    - destruct (K3 eq_refl) as (new & L1 & L2 & _). rewrite L1, !L2, Hsum.
      pose proof (reasonCount_total new). lia. }
  destruct (IH this1 Hall (K1 Hnd) (K2 Hsize) Hsum1) as (I1 & I2 & I3 & I4).
  split_and!; [done|done|done|].
  intros [Hc Hcalls]%andb_true_iff Hlen Hby. apply negb_true_iff in Hc.
  destruct (K3 Hc) as (new & L1 & L2 & L3). apply I4; [done| |].
  - rewrite L1, L3, length_app, Hlen. lia.
  - intros r. by rewrite L2, L3, reasonCount_app, Hby.
Qed.

(** X28.  Whatever methods are called on a new cache, in whatever order and at
    whatever times: the keys of the [Map] stay distinct, the cache never
    holds more than [maxSize] entries, and [evictions] is the sum of the
    four counters of [evictionsByReason].  As long as [resetStats] is not
    called, [evictions] is the number of calls of [onEvict] made so far,
    and each counter the number of those with its reason. *)
Theorem cache_invariants cfg calls this :
  0 <= maxSize cfg ->
  callAll calls (create cfg) = Some this ->
  NoDup (mapKeys (cache this))
  /\ mapSize (cache this) <= maxSize (config this)
  /\ evictions this
     = evictionsByReason this expired + evictionsByReason this capacity
       + evictionsByReason this manual + evictionsByReason this clear_
  /\ (forallb (fun c => negb (isResetStats c)) calls = true ->
      evictions this = Z.of_nat (length (evicted this))
      /\ forall r, evictionsByReason this r = reasonCount r (evicted this)).
Proof.
  intros Hmax Hall.
  destruct (callAll_keeps calls (create cfg) this Hall) as (H1 & H2 & H3 & H4).
  - apply NoDup_nil_2.
  - by cbn.
  - done.
  - split_and!; [done|done|done|]. intros Hcalls. by apply H4.
Qed.

Lemma callAll_returns cfg calls :
  0 < maxSize cfg ->
  Forall (fun c => match c with CallSetMaxSize n => 0 < n | _ => True end) calls ->
  is_Some (callAll calls (create cfg)).
Proof.
  intros Hmax Hcalls.
  assert (H : forall this, 0 < maxSize (config this) -> is_Some (callAll calls this));
    [|by apply H].
  induction Hcalls as [|c calls Hc _ IH]; intros this Hpos; cbn [callAll]; [done|].
  assert (Hstep : exists this1, call c this = Some this1 /\ 0 < maxSize (config this1)).
  { destruct c; cbn [call]; try (eexists; split; [reflexivity|]).
    - by destruct (shrinks_get key now this) as (_ & -> & _).
    - destruct (set key v now this) as [this1|] eqn:Es.
      + exists this1. split; [done|]. apply set_stored in Es as [_ ->]. done.
      + exfalso. revert Es. unfold set.
        set (this1 := if mapHas key (cache this)
                      then withCache this (mapDelete key (cache this)) else this).
        assert (Hcfg1 : config this1 = config this).
        { subst this1. by destruct (mapHas key (cache this)). }
        destruct (evictWhile_spec (fun this => mapSize (cache this) >=? maxSize (config this))
                    (config this) (Z.to_nat (maxSize (config this) - 1))
                    (fun c Hc => set_loop_cond (config this) c Hpos Hc)
                    (length (cache this1)) this1 Hcfg1 (le_n _)) as (this2 & -> & _).
        done.
    - by destruct (shrinks_has key now this) as (_ & -> & _).
    - by destruct (shrinks_delete key this) as (_ & -> & _).
    - done.
    - by destruct (shrinks_cleanup now this) as (_ & -> & _).
    - by destruct (shrinks_invalidatePattern pattern this) as (_ & -> & _).
    - by destruct (shrinks_invalidateOlderThan maxAge now this) as (_ & -> & _).
    - done.
    - unfold setMaxSize.
      destruct (evictWhile_spec (fun this => mapSize (cache this) >? n)
                  (config (withConfig this
                             {| maxSize := n; ttl := ttl (config this);
                                autoCleanup := autoCleanup (config this);
                                cleanupInterval := cleanupInterval (config this) |}))
                  (Z.to_nat n)
                  (fun c _ => setMaxSize_loop_cond n c ltac:(lia))
                  (length (cache this)) _ eq_refl (le_n _)) as (this2 & H1 & _ & H3).
      cbn [cache withConfig] in H1. exists this2. split; [done|].
      destruct H3 as (-> & _). done.
    - done. }
  destruct Hstep as (this1 & -> & Hpos1). by apply IH.
Qed.

(** X27.  When the loops of the cache end.  [set] returns unless [maxSize] is
    zero or negative, and [setMaxSize(n)] returns unless [n] is negative:
    then the loop finds nothing left to evict and its condition stays
    true for ever, also on an empty cache.  So from a cache created with
    a positive [maxSize], a sequence of calls in which [setMaxSize] is
    only given positive sizes runs to its end. *)
Theorem capacity_loops_end_iff :
  (forall key v now this, set key v now this = None <-> maxSize (config this) <= 0)
  /\ (forall n this, setMaxSize n this = None <-> n < 0)
  /\ (forall cfg calls,
        0 < maxSize cfg ->
        Forall (fun c => match c with CallSetMaxSize n => 0 < n | _ => True end) calls ->
        is_Some (callAll calls (create cfg))).
Proof.
  split_and!.
  - intros key v now this. apply (loops_end_iff key v now 0 this).
  - intros n this. apply (loops_end_iff EmptyString JNull 0 n this).
  - apply callAll_returns.
Qed.

End CacheInvariants.

(** A witness of [cache_invariants]: three keys in a cache of two, read,
    deleted and swept. *)
Lemma cache_invariants_witness :
  let cfg := {| Cache.maxSize := 2; Cache.ttl := 1000; Cache.autoCleanup := false;
                Cache.cleanupInterval := 0 |} in
  let calls :=
    [Cache.CallSet "a" (Js.JNum 1) 0; Cache.CallSet "b" (Js.JNum 2) 1;
     Cache.CallSet "c" (Js.JNum 3) 2; Cache.CallGet "b" 3; Cache.CallDelete "c";
     Cache.CallCleanup 5000] in
  exists this,
    0 <= Cache.maxSize cfg
    /\ Cache.callAll calls (Cache.create cfg) = Some this
    /\ NoDup (Cache.mapKeys (Cache.cache this))
    /\ Cache.mapSize (Cache.cache this) <= Cache.maxSize (Cache.config this)
    /\ Cache.evictions this = 3
    /\ Cache.evictions this = Z.of_nat (length (Cache.evicted this)).
Proof.
  intros cfg calls.
  assert (Hmax : 0 <= Cache.maxSize cfg) by (simpl; lia).
  eexists. split; [exact Hmax|]. split; [reflexivity|].
  destruct (cache_invariants cfg calls _ Hmax eq_refl) as (H1 & H2 & H3 & H4).
  split; [exact H1|]. split; [exact H2|]. split; [reflexivity|]. exact (proj1 (H4 eq_refl)).
Defined.

(** ** [QueryCache]: the keys of cached queries *)

Section QueryCacheKeys.
Import Js Cache.

Lemma trim_idem (s : string) : trim (trim s) = trim s.
Proof. destruct (trim_fixed s) as [H1 H2]. unfold trim at 1. by rewrite H1, H2. Qed.

Lemma append_inj (a s1 s2 : string) : a +:+ s1 = a +:+ s2 -> s1 = s2.
Proof. induction a as [|c a IH]; simpl; [done|]. intros [= H]. by apply IH. Qed.

Lemma trimEnd_append (a b : string) :
  trimEnd b <> EmptyString -> trimEnd (a +:+ b) = a +:+ trimEnd b.
Proof.
  intros Hb. induction a as [|c a IH]; [done|].
  change (trimEnd (String c a +:+ b))
    with (match trimEnd (a +:+ b) with
          | EmptyString => if isWhiteSpace c then EmptyString else String c EmptyString
          | t => String c t
          end).
  rewrite IH. change (String c a +:+ trimEnd b) with (String c (a +:+ trimEnd b)).
  destruct (a +:+ trimEnd b) eqn:E; [|done].
  destruct a; simpl in E; [done|discriminate].
Qed.

Lemma trim_key (q s : string) :
  trim q = q -> trimEnd s = s -> s <> EmptyString ->
  trim (q +:+ ":" +:+ s) = q +:+ ":" +:+ s.
Proof.
  intros Hq Hs Hne. unfold trim.
  assert (Hstart : trimStart (q +:+ ":" +:+ s) = q +:+ ":" +:+ s).
  { destruct q as [|c q]; [done|].
    pose proof (trimStart_head (trim (String c q))) as Hh.
    rewrite (proj1 (trim_fixed _)), Hq in Hh. simpl. by rewrite Hh. }
  assert (Hcs : trimEnd (":" +:+ s) = ":" +:+ s).
  { change (":" +:+ s) with (String ":" s).
    change (trimEnd (String ":" s))
      with (match trimEnd s with
            | EmptyString => if isWhiteSpace ":" then EmptyString else String ":" EmptyString
            | t => String ":" t
            end).
    rewrite Hs. by destruct s. }
  rewrite Hstart, trimEnd_append; rewrite Hcs; [done|]. by destruct s.
Qed.

(** X29.  The key of a cached query.  [generateKey] ignores the white space
    around the query string; an empty schema name gives the key of no
    schema name; for one query, two schema names give the same key only if
    they are the same.  The keys of queries with and without a schema name
    are not kept apart: the query [q:s] without a schema name has the key
    of the query [q] for the schema [s]. *)
Theorem generateKey_normalises queryString schemaName :
  generateKey (trim queryString) schemaName = generateKey queryString schemaName
  /\ generateKey queryString (Some EmptyString) = generateKey queryString None
  /\ (forall s1 s2,
        s1 <> EmptyString -> s2 <> EmptyString ->
        generateKey queryString (Some s1) = generateKey queryString (Some s2) -> s1 = s2)
  /\ (forall s,
        s <> EmptyString -> trimEnd s = s ->
        generateKey (trim queryString +:+ ":" +:+ s) None = generateKey queryString (Some s)).
Proof.
  unfold generateKey. split_and!.
  - by rewrite trim_idem.
  - done.
  - intros s1 s2 H1 H2. unfold truthy.
    rewrite (proj2 (String.eqb_neq s1 EmptyString) H1),
      (proj2 (String.eqb_neq s2 EmptyString) H2). cbn [negb].
    intros H%append_inj. by injection H.
  - intros s Hne Hs. unfold truthy. rewrite (proj2 (String.eqb_neq s EmptyString) Hne).
    cbn [negb]. apply trim_key; [apply trim_idem|done|done].
Qed.

(** X30.  A cached query is found again whatever white space surrounds the
    query string: after [setQuery(q, v, schema)], [getQuery] and
    [hasQuery] of a query string with the same trimmed text and the same
    schema find [v] until the entry expires. *)
Theorem setQuery_then_getQuery q q' v schemaName now now' this this' :
  trim q' = trim q ->
  setQuery q v schemaName now this = Some this' ->
  now' - now <= ttl (config this) ->
  fst (getQuery q' schemaName now' this') = Some v
  /\ hasQuery q' schemaName now' this' = (true, this').
Proof.
  intros Hq Hset Hfresh. unfold setQuery in Hset. unfold getQuery, hasQuery.
  assert (Hk : generateKey q' schemaName = generateKey q schemaName).
  { unfold generateKey. by rewrite Hq. }
  rewrite Hk.
  destruct (set_entry_live _ v now now' this this' Hset Hfresh) as [Hg Hlive].
  unfold get, has. by rewrite Hg, Hlive.
Qed.

End QueryCacheKeys.

(** A witness of [setQuery_then_getQuery]: the query is found with other
    white space around it. *)
Lemma setQuery_then_getQuery_witness :
  let this' :=
    Cache.withCache (Cache.create Cache.DEFAULT_CACHE_CONFIG)
      [("page=1:users", Cache.newEntry (Js.JNum 7) 10)] in
  Js.trim "page=1  " = Js.trim " page=1"
  /\ Cache.setQuery " page=1" (Js.JNum 7) (Some "users") 10
       (Cache.create Cache.DEFAULT_CACHE_CONFIG) = Some this'
  /\ fst (Cache.getQuery "page=1  " (Some "users") 50 this') = Some (Js.JNum 7)
  /\ Cache.hasQuery "page=1  " (Some "users") 50 this' = (true, this').
Proof.
  intros this'.
  assert (Hq : Js.trim "page=1  " = Js.trim " page=1") by reflexivity.
  assert (Hset : Cache.setQuery " page=1" (Js.JNum 7) (Some "users") 10
                   (Cache.create Cache.DEFAULT_CACHE_CONFIG) = Some this') by reflexivity.
  split; [exact Hq|]. split; [exact Hset|].
  apply (setQuery_then_getQuery " page=1" "page=1  " (Js.JNum 7) (Some "users") 10 50
           (Cache.create Cache.DEFAULT_CACHE_CONFIG) this' Hq Hset).
  simpl. lia.
Defined.

(** ** The query string of a URL *)

Section UrlQuery.
Import Js Parser.
Variable qsParse : string -> JsValue.









End UrlQuery.

